(** * Home Credit dashboard: data preparation and aggregation helpers

    A shallow embedding of [preprocessing.py] and [utils/utils.py].

    Numeric cells are IEEE-754 binary64 values, as pandas stores them in a
    [float64] column; the missing value of a numeric column is NaN.  The
    arithmetic is the one of the Standard Library's [SpecFloat] (correctly
    rounded, round-to-nearest-even), instantiated at [prec = 53] and
    [emax = 1024]. *)

From Stdlib Require Import ZArith List Bool String Ascii Lia.
From Stdlib Require Import Floats.SpecFloat.
From stdpp Require Import base option list strings gmap sorting.
Import ListNotations.
Local Open Scope Z_scope.

(** ** binary64 *)

Module F64.

Definition prec : Z := 53.
Definition emax : Z := 1024.

Definition float := spec_float.

Definition nan : float := S754_nan.
Definition inf : float := S754_infinity false.
Definition neg_inf : float := S754_infinity true.
Definition zero : float := S754_zero false.

Definition valid (x : float) : bool := valid_binary prec emax x.

Definition of_Z (z : Z) : float := binary_normalize prec emax z 0 false.

Definition add : float -> float -> float := SFadd prec emax.
Definition sub : float -> float -> float := SFsub prec emax.
Definition mul : float -> float -> float := SFmul prec emax.
Definition div : float -> float -> float := SFdiv prec emax.
Definition sqrt : float -> float := SFsqrt prec emax.
Definition neg : float -> float := SFopp.

Definition eqb : float -> float -> bool := SFeqb.
Definition ltb : float -> float -> bool := SFltb.
Definition leb : float -> float -> bool := SFleb.
Definition gtb (x y : float) : bool := SFltb y x.
Definition geb (x y : float) : bool := SFleb y x.

Definition is_nan (x : float) : bool :=
  match x with S754_nan => true | _ => false end.

Definition is_inf (x : float) : bool :=
  match x with S754_infinity _ => true | _ => false end.

Definition is_zero (x : float) : bool :=
  match x with S754_zero _ => true | _ => false end.

(** Neither NaN nor an infinity. *)
Definition is_finite (x : float) : bool :=
  match x with S754_zero _ | S754_finite _ _ _ => true | _ => false end.

(** The literal [a/b] of the source, for integers [a], [b] that binary64
    holds exactly: the double nearest to the quotient. *)
Definition lit (a b : Z) : float := div (of_Z a) (of_Z b).

(** [floor], as an integer; 0 on NaN and on the infinities. *)
Definition floor (x : float) : Z :=
  match x with
  | S754_finite s m e =>
      let v := if s then Z.neg m else Z.pos m in
      if 0 <=? e then v * 2 ^ e else v / 2 ^ (- e)
  | _ => 0
  end.

(** The largest finite double and the smallest positive one. *)
Definition max_float : float := S754_finite false (2 ^ 53 - 1) 971.
Definition min_subnormal : float := S754_finite false 1 (-1074).

End F64.

Abbreviation float := F64.float.

(** ** Numeric series

    A [float64] Series with the default positional index. *)

Definition Series := list float.

(** [Series.replace(vals, nan)]: a cell that compares equal ([==]) to one of
    [vals] becomes NaN. *)
Definition replace_cell (vals : list float) (x : float) : float :=
  if existsb (F64.eqb x) vals then F64.nan else x.

Definition replace (vals : list float) (s : Series) : Series :=
  map (replace_cell vals) s.

(** Element-wise [/] of two series: positions are aligned on the index, and a
    position that only one operand has yields NaN. *)
Fixpoint series_div (a b : Series) : Series :=
  match a, b with
  | [], _ => map (fun _ => F64.nan) b
  | _ :: _, [] => map (fun _ => F64.nan) a
  | x :: a', y :: b' => F64.div x y :: series_div a' b'
  end.

(** [_guard_ratio] of preprocessing.py. *)
Definition _guard_ratio (numer denom : Series) : Series :=
  let r := series_div (replace [F64.inf; F64.neg_inf] numer)
                      (replace [F64.zero; F64.inf; F64.neg_inf] denom) in
  replace [F64.inf; F64.neg_inf] r.

(** The cell-level reading of [_guard_ratio]. *)
Definition guard_cell (n d : float) : float :=
  replace_cell [F64.inf; F64.neg_inf]
    (F64.div (replace_cell [F64.inf; F64.neg_inf] n)
             (replace_cell [F64.zero; F64.inf; F64.neg_inf] d)).

(** ** Winsorizer *)

Definition dropna (s : Series) : Series :=
  List.filter (fun x => negb (F64.is_nan x)) s.

Fixpoint insert_sorted (x : float) (l : list float) : list float :=
  match l with
  | [] => [x]
  | y :: l' => if F64.leb x y then x :: l else y :: insert_sorted x l'
  end.

Definition sort_values (l : list float) : list float :=
  fold_right insert_sorted [] l.

(** [Series.quantile(q)] with the default linear interpolation, as NumPy
    computes it on the sorted non-missing values [v] of length [n]: pandas
    hands NumPy the percentage [q * 100], which NumPy divides by 100 again;
    the virtual index is that fraction times [n - 1], [a] and [b] are the
    entries below and above it, and the result is [a + (b - a) * t] for the
    fractional part [t] (computed from [b] downwards when [t >= 0.5]).  NaN
    on a series with no non-missing value. *)
Definition lerp (a b t : float) : float :=
  let diff_b_a := F64.sub b a in
  if F64.geb t (F64.lit 1 2)
  then F64.sub b (F64.mul diff_b_a (F64.sub (F64.of_Z 1) t))
  else F64.add a (F64.mul diff_b_a t).

Definition quantile (s : Series) (q : float) : float :=
  let v := sort_values (dropna s) in
  match v with
  | [] => F64.nan
  | _ =>
      let n := Z.of_nat (List.length v) in
      let q := F64.div (F64.mul q (F64.of_Z 100)) (F64.of_Z 100) in
      let h := F64.mul q (F64.of_Z (n - 1)) in
      let i := F64.floor h in
      let t := F64.sub h (F64.of_Z i) in
      let a := nth (Z.to_nat i) v F64.nan in
      let b := nth (Z.to_nat (Z.min (i + 1) (n - 1))) v F64.nan in
      lerp a b t
  end.

(** Python's [min(a, b)] and [max(a, b)] on floats: the first argument unless
    the second is strictly smaller (larger). *)
Definition py_min (a b : float) : float := if F64.ltb b a then b else a.
Definition py_max (a b : float) : float := if F64.gtb b a then b else a.

(** [Series.clip(lower, upper)] with scalar thresholds.  A NaN threshold is
    ignored; two thresholds given in the wrong order are swapped; a missing
    cell stays missing; both comparisons are made on the original cell. *)
Definition clip_cell (lower upper : option float) (x : float) : float :=
  let r1 := match lower with
            | Some l => if F64.is_nan x || F64.geb x l then x else l
            | None => x
            end in
  match upper with
  | Some u => if F64.is_nan x || F64.leb x u then r1 else u
  | None => r1
  end.

Definition clip_thresholds (lower upper : float)
  : option float * option float :=
  let lower' := if F64.is_nan lower then None else Some lower in
  let upper' := if F64.is_nan upper then None else Some upper in
  match lower', upper' with
  | Some l, Some u => (Some (py_min l u), Some (py_max l u))
  | _, _ => (lower', upper')
  end.

Definition clip (lower upper : float) (s : Series) : Series :=
  let '(lo, hi) := clip_thresholds lower upper in
  map (clip_cell lo hi) s.

(** Thresholds that are numbers and in order. *)
Definition thresholds_ok (lo hi : option float) : Prop :=
  (forall l, lo = Some l -> F64.is_nan l = false) /\
  (forall u, hi = Some u -> F64.is_nan u = false) /\
  (forall l u, lo = Some l -> hi = Some u -> F64.leb l u = true).

Record WinsorParams := { low : float; high : float }.

(** [_winsorize] of preprocessing.py. *)
Definition _winsorize (series : Series) (lower upper : float)
  : Series * WinsorParams :=
  let lo := quantile series lower in
  let hi := quantile series upper in
  (clip lo hi series, {| low := lo; high := hi |}).

(** The call of the pipeline: [_winsorize(df[c].astype(float), 0.01, 0.99)]. *)
Definition winsorize_1_99 (series : Series) : Series * WinsorParams :=
  _winsorize series (F64.lit 1 100) (F64.lit 99 100).

(** ** Rare-category merger *)

(** A text column of [string] dtype: [None] is the missing value [pd.NA]. *)
Definition StrSeries := list (option string).

(** Python's [str(k)] on a cell of such a column. *)
Definition py_str (k : option string) : string :=
  match k with
  | Some s => s
  | None => "<NA>"
  end.

Definition count_of (k : option string) (s : StrSeries) : nat :=
  List.length (List.filter (fun y => bool_decide (y = k)) s).

(** The distinct cells of a column, in order of first appearance. *)
Fixpoint unique (s : StrSeries) : list (option string) :=
  match s with
  | [] => []
  | x :: s' => x :: List.filter (fun y => negb (bool_decide (y = x))) (unique s')
  end.

(** Insertion into a list sorted by decreasing count, before the entries of
    equal count: folded from the right over the distinct cells, it leaves
    cells of equal count in order of first appearance. *)
Fixpoint insert_by_count (e : option string * nat)
    (l : list (option string * nat)) : list (option string * nat) :=
  match l with
  | [] => [e]
  | e' :: l' =>
      if (snd e' <=? snd e)%nat then e :: l else e' :: insert_by_count e l'
  end.

(** [s.value_counts(dropna=False, normalize=True)]: one entry per distinct
    cell, the missing value included, sorted by decreasing count; the share
    is the binary64 quotient count / number of rows. *)
Definition value_counts_normalized (s : StrSeries)
  : list (option string * float) :=
  let counts := map (fun k => (k, count_of k s)) (unique s) in
  let sorted := fold_right insert_by_count [] counts in
  let total := F64.of_Z (Z.of_nat (List.length s)) in
  map (fun e => (fst e, F64.div (F64.of_Z (Z.of_nat (snd e))) total)) sorted.

(** [_merge_rare_levels] of preprocessing.py: [rare_index] is its [rare],
    [label_map] its [mapping] before the ["XNA"] entry is restored. *)
Definition rare_index (s : StrSeries) (min_share : float)
  : list (option string) :=
  map fst (List.filter (fun e => F64.ltb (snd e) min_share)
             (value_counts_normalized s)).

Definition label_map (s : StrSeries) (min_share : float) : gmap string string :=
  fold_left
    (fun m k =>
       <[py_str k := if bool_decide (k ∈ rare_index s min_share)
                     then "Other" else py_str k]> m)
    (map fst (value_counts_normalized s)) ∅.

Definition _merge_rare_levels (s : StrSeries) (min_share : float)
  : StrSeries * gmap string string :=
  let mapping := label_map s min_share in
  let mapping :=
    if bool_decide (is_Some (mapping !! "XNA"))
    then <["XNA" := "XNA"]> mapping else mapping in
  let s2 := map (fun x => Some (default (py_str x) (mapping !! py_str x))) s in
  (s2, mapping).

(** The share of a cell in a column, and the test [freq < min_share]. *)
Definition share (k : option string) (s : StrSeries) : float :=
  F64.div (F64.of_Z (Z.of_nat (count_of k s)))
          (F64.of_Z (Z.of_nat (List.length s))).

Definition is_rare (k : option string) (s : StrSeries) (min_share : float)
  : bool := F64.ltb (share k s) min_share.

(** The label the merger is meant to give a cell. *)
Definition final_label (k : option string) (s : StrSeries) (min_share : float)
  : string :=
  if bool_decide (py_str k = "XNA") then "XNA"
  else if is_rare k s min_share then "Other" else py_str k.

(** ** Dataframes

    A column is numeric ([float64]; an [int64] column is held by its values,
    which binary64 represents exactly below 2^53), of [object] dtype holding
    text, or categorical with its list of categories.  In a text or
    categorical column [None] is the missing value.  A dataframe is its row
    index and its columns in order. *)

Inductive Column :=
| NumCol (v : Series)
| ObjCol (v : StrSeries)
| CatCol (cats : list string) (v : StrSeries).

Record DataFrame := { index : list nat; columns : list (string * Column) }.

Definition col_length (c : Column) : nat :=
  match c with
  | NumCol v => List.length v
  | ObjCol v | CatCol _ v => List.length v
  end.

(** [len(df)]. *)
Definition df_len (df : DataFrame) : nat := List.length (index df).

(** [df.columns]. *)
Definition df_columns (df : DataFrame) : list string := map fst (columns df).

Fixpoint assoc_get (c : string) (l : list (string * Column)) : option Column :=
  match l with
  | [] => None
  | (c', v) :: l' => if String.eqb c c' then Some v else assoc_get c l'
  end.

(** [df[c]] when [c in df.columns]. *)
Definition df_get (c : string) (df : DataFrame) : option Column :=
  assoc_get c (columns df).

(** [c in df.columns]. *)
Definition has_col (c : string) (df : DataFrame) : bool :=
  match df_get c df with Some _ => true | None => false end.

(** Python exceptions. *)
Inductive result (A : Type) :=
| Ok (a : A)
| Raise (e : string).
Arguments Ok {A} a.
Arguments Raise {A} e.



(** ** Rate by category *)

Definition TARGET : string := "TARGET".

(** Group labels: a number, a text, or the missing value. *)
Inductive Cell :=
| CNum (x : float)
| CStr (s : string)
| CNA.

#[global] Instance spec_float_eq_dec : EqDecision spec_float.
Proof. solve_decision. Defined.

#[global] Instance Cell_eq_dec : EqDecision Cell.
Proof. solve_decision. Defined.

(** The label of a numeric cell: NaN is the missing label and the two zeros
    are one label. *)
Definition num_key (x : float) : Cell :=
  if F64.is_nan x then CNA
  else CNum (if F64.is_zero x then F64.zero else x).

Definition str_key (x : option string) : Cell :=
  match x with
  | Some s => CStr s
  | None => CNA
  end.

Definition row_keys (c : Column) : list Cell :=
  match c with
  | NumCol v => map num_key v
  | ObjCol v | CatCol _ v => map str_key v
  end.

Definition cell_leb (a b : Cell) : bool :=
  match a, b with
  | CNum x, CNum y => F64.leb x y
  | CStr s, CStr t => String.leb s t
  | CNum _, CStr _ => true
  | _, CNA => true
  | _, _ => false
  end.

Definition cell_le (a b : Cell) : Prop := cell_leb a b = true.

#[global] Instance cell_le_dec (a b : Cell) : Decision (cell_le a b).
Proof. unfold cell_le; apply _. Defined.

(** The groups of [df.groupby(col, dropna=False)], in order: the sorted
    distinct labels (for a categorical column, all its categories, observed
    or not), then the group of the missing value if the column has one. *)
Definition group_keys (c : Column) : list Cell :=
  let ks := row_keys c in
  let labels :=
    match c with
    | CatCol cats _ => map CStr cats
    | _ => merge_sort cell_le
             (remove_dups (List.filter (fun k => negb (bool_decide (k = CNA))) ks))
    end in
  labels ++ (if bool_decide (CNA ∈ ks) then [CNA] else []).

(** The cells of [t] on the rows whose label is [k]. *)
Definition group_values (k : Cell) (keys : list Cell) (t : Series) : Series :=
  map snd (List.filter (fun p => bool_decide (fst p = k)) (combine keys t)).

(** The number of rows whose label is [k]. *)
Definition group_size (k : Cell) (keys : list Cell) : nat :=
  List.length (List.filter (fun k' => bool_decide (k' = k)) keys).

(** The sum of the cells, added from left to right.  That is the order of
    NumPy on fewer than eight cells; on a longer column NumPy adds in
    blocks, and the last bit of the sum can differ. *)
Definition sum (v : Series) : float := fold_left F64.add v F64.zero.

(** [Series.mean()]: missing cells are skipped, and the mean of nothing is
    NaN. *)
Definition mean (v : Series) : float :=
  let w := dropna v in
  F64.div (sum w) (F64.of_Z (Z.of_nat (List.length w))).

(** Result tables: named columns of labels, floats or counts. *)
Inductive TCol :=
| TKey (v : list Cell)
| TFloat (v : list float)
| TInt (v : list nat).

Definition Table := list (string * TCol).

Fixpoint table_get (c : string) (t : Table) : option TCol :=
  match t with
  | [] => None
  | (c', v) :: t' => if String.eqb c c' then Some v else table_get c t'
  end.

(** [t[c] = v]: overwrite the column named [c], or append it. *)
Fixpoint table_set (c : string) (v : TCol) (t : Table) : Table :=
  match t with
  | [] => [(c, v)]
  | (c', v') :: t' =>
      if String.eqb c c' then (c', v) :: t' else (c', v') :: table_set c v t'
  end.

Definition tcol_length (c : TCol) : nat :=
  match c with
  | TKey v => List.length v
  | TFloat v => List.length v
  | TInt v => List.length v
  end.

Definition tcol_take (order : list nat) (c : TCol) : TCol :=
  match c with
  | TKey v => TKey (map (fun i => nth i v CNA) order)
  | TFloat v => TFloat (map (fun i => nth i v F64.nan) order)
  | TInt v => TInt (map (fun i => nth i v 0%nat) order)
  end.

(** A stable sort, as [sort_values] is on the short tables of the
    dashboard: an entry is put before the first one it may precede, so
    entries that tie stay in their order. *)
Fixpoint stable_insert {A} (R : relation A) `{forall x y, Decision (R x y)}
    (x : A) (l : list A) : list A :=
  match l with
  | [] => [x]
  | y :: l' => if decide (R x y) then x :: l else y :: stable_insert R x l'
  end.

Definition stable_sort {A} (R : relation A) `{forall x y, Decision (R x y)}
    (l : list A) : list A :=
  fold_right (stable_insert R) [] l.

(** Descending order with NaN last. *)
Definition desc_before (x y : float) : bool :=
  if F64.is_nan y then true
  else if F64.is_nan x then false else F64.geb x y.

Definition row_before (v : list float) (i j : nat) : Prop :=
  desc_before (nth i v F64.nan) (nth j v F64.nan) = true.

#[global] Instance row_before_dec v (i j : nat) : Decision (row_before v i j).
Proof. unfold row_before; apply _. Defined.

(** [t.sort_values(by, ascending=False)] on a float column. *)
Definition sort_values_desc (by_ : string) (t : Table) : Table :=
  match table_get by_ t with
  | Some (TFloat v) =>
      let order := stable_sort (row_before v) (seq 0 (List.length v)) in
      map (fun '(c, col) => (c, tcol_take order col)) t
  | _ => t
  end.

(** [pd.DataFrame(columns=[...])]. *)
Definition empty_table (headers : list string) : Table :=
  map (fun h => (h, TKey [])) headers.

(** [by_category_rate] of utils/utils.py.  [reset_index] raises when the
    grouping column is itself named ["Default_%"], and the mean of a column
    that is not numeric raises. *)
Definition by_category_rate (df : DataFrame) (col : string) : result Table :=
  match df_get TARGET df, df_get col df with
  | Some tcol, Some c =>
      match tcol with
      | NumCol tv =>
          let keys := row_keys c in
          let groups := group_keys c in
          let rate :=
            map (fun k => F64.mul (mean (group_values k keys tv)) (F64.of_Z 100))
                groups in
          if String.eqb col "Default_%"
          then Raise "ValueError: cannot insert Default_%, already exists"
          else
            let t := [(col, TKey groups); ("Default_%", TFloat rate)] in
            let t := table_set "count"
                       (TInt (map (fun k => group_size k keys) groups)) t in
            Ok (sort_values_desc "Default_%" t)
      | _ => Raise "TypeError: agg function failed"
      end
  | _, _ => Ok (empty_table [col; "Default_%"; "count"])
  end.

(** ** Correlation *)

(** [pd.api.types.is_numeric_dtype(df[c])]. *)
Definition is_numeric_dtype (c : Column) : bool :=
  match c with
  | NumCol _ => true
  | _ => false
  end.

(** [Series.std()]: the sample standard deviation (ddof = 1) of the
    non-missing cells, computed in two passes (the mean, then the squared
    deviations from it); NaN when fewer than two cells are left. *)
Definition var (v : Series) : float :=
  let w := dropna v in
  let count := Z.of_nat (List.length w) in
  if count <=? 1 then F64.nan
  else
    let avg := F64.div (sum w) (F64.of_Z count) in
    let sqr := map (fun x => let d := F64.sub avg x in F64.mul d d) w in
    F64.div (sum sqr) (F64.of_Z (count - 1)).

Definition std (v : Series) : float := F64.sqrt (var v).

Record CorrMatrix := { labels : list string; entries : list (list float) }.

(** The test of the loop of [compute_corr]:
    [s = df[c].dropna(); s.size > 2 and s.std() > 0]. *)
Definition has_variance (v : Series) : bool :=
  let s := dropna v in
  (2 <? List.length s)%nat && F64.gtb (std s) F64.zero.

Definition numeric_columns (df : DataFrame) : list (string * Series) :=
  omap (fun '(c, col) => match col with
                         | NumCol v => Some (c, v)
                         | _ => None
                         end) (columns df).

Section Correlation.

(** The correlation coefficient of two columns under a method
    (["spearman"] or ["pearson"]), as [DataFrame.corr] computes it. *)
Variable pairwise_corr : string -> Series -> Series -> float.

(** [compute_corr] of utils/utils.py: the matrix over the kept columns, and
    the outcome's row of it without the outcome itself. *)
Definition compute_corr (df : DataFrame) (method : string)
  : CorrMatrix * list (string * float) :=
  let num_cols := numeric_columns df in
  let keep := List.filter (fun '(c, v) => has_variance v) num_cols in
  match keep with
  | [] => ({| labels := []; entries := [] |}, [])
  | _ =>
      let corr :=
        {| labels := map fst keep;
           entries := map (fun '(_, v) =>
                             map (fun '(_, w) => pairwise_corr method v w) keep)
                          keep |} in
      let tgt_corr :=
        match List.find (fun '(c, _) => String.eqb c TARGET) keep with
        | Some (_, t) =>
            map (fun '(c, v) => (c, pairwise_corr method v t))
                (List.filter (fun '(c, _) => negb (String.eqb c TARGET)) keep)
        | None => []
        end in
      (corr, tgt_corr)
  end.

End Correlation.

(** ** Dataframe operations *)

(** [df[c] = col]: overwrite the column named [c] in place, or append it. *)
Fixpoint assoc_set (c : string) (col : Column) (l : list (string * Column))
  : list (string * Column) :=
  match l with
  | [] => [(c, col)]
  | (c', col') :: l' =>
      if String.eqb c c' then (c', col) :: l' else (c', col') :: assoc_set c col l'
  end.

Definition df_set (c : string) (col : Column) (df : DataFrame) : DataFrame :=
  {| index := index df; columns := assoc_set c col (columns df) |}.

(** [c in cs] for a list or set of names. *)
Definition name_in (c : string) (cs : list string) : bool :=
  existsb (String.eqb c) cs.

(** [df.drop(columns=cs, errors="ignore")]. *)
Definition df_drop (cs : list string) (df : DataFrame) : DataFrame :=
  {| index := index df;
     columns := List.filter (fun '(c, _) => negb (name_in c cs)) (columns df) |}.

(** Boolean-mask row selection [df[mask]]. *)
Fixpoint mask_filter {A} (mask : list bool) (l : list A) : list A :=
  match mask, l with
  | b :: mask', x :: l' =>
      if b then x :: mask_filter mask' l' else mask_filter mask' l'
  | _, _ => []
  end.

Definition col_mask (mask : list bool) (c : Column) : Column :=
  match c with
  | NumCol v => NumCol (mask_filter mask v)
  | ObjCol v => ObjCol (mask_filter mask v)
  | CatCol cats v => CatCol cats (mask_filter mask v)
  end.

Definition df_mask (mask : list bool) (df : DataFrame) : DataFrame :=
  {| index := mask_filter mask (index df);
     columns := map (fun '(c, col) => (c, col_mask mask col)) (columns df) |}.

(** [col.isna()]. *)
Definition isna (c : Column) : list bool :=
  match c with
  | NumCol v => map F64.is_nan v
  | ObjCol v | CatCol _ v =>
      map (fun x => match x with None => true | Some _ => false end) v
  end.

Definition count_true (l : list bool) : nat :=
  List.length (List.filter (fun b => b) l).

(** [col.isna().mean() * 100]: NaN on a column with no row. *)
Definition missing_pct (c : Column) : float :=
  F64.mul (F64.div (F64.of_Z (Z.of_nat (count_true (isna c))))
                   (F64.of_Z (Z.of_nat (col_length c))))
          (F64.of_Z 100).

Definition pct_before (a b : string * float) : Prop :=
  desc_before (snd a) (snd b) = true.

#[global] Instance pct_before_dec a b : Decision (pct_before a b).
Proof. unfold pct_before; apply _. Defined.

(** [summarize_missingness] of preprocessing.py: one row per column, sorted
    by decreasing percentage. *)
Definition summarize_missingness (df : DataFrame) : list (string * float) :=
  stable_sort pct_before (map (fun '(c, col) => (c, missing_pct col)) (columns df)).

(** The text values of a column, sorted and without repetition: the
    categories [astype("category")] gives it. *)
Definition str_le (a b : string) : Prop := String.leb a b = true.

#[global] Instance str_le_dec a b : Decision (str_le a b).
Proof. unfold str_le; apply _. Defined.

Definition categories_of (v : StrSeries) : list string :=
  merge_sort str_le (remove_dups (omap id v)).

Definition as_category (v : StrSeries) : Column := CatCol (categories_of v) v.

(** ** The object store

    Dataframes are mutable objects: a name holds a reference, and
    [df[c] = ...], [df.loc[...] = ...] and [df.drop(..., inplace=True)]
    change the object the reference points to.  A computation takes the
    store, returns a value or raises, and leaves a store behind. *)

Abbreviation loc := positive.
Abbreviation heap := (gmap loc DataFrame).

Definition M (A : Type) : Type := heap -> result A * heap.

#[global] Instance M_ret : MRet M := fun A a h => (Ok a, h).

#[global] Instance M_bind : MBind M := fun A B f m h =>
  match m h with
  | (Ok a, h') => f a h'
  | (Raise e, h') => (Raise e, h')
  end.

Definition raise {A} (e : string) : M A := fun h => (Raise e, h).

Definition read (l : loc) : M DataFrame := fun h =>
  match h !! l with
  | Some d => (Ok d, h)
  | None => (Raise "NameError", h)
  end.

Definition write (l : loc) (d : DataFrame) : M unit := fun h =>
  (Ok tt, <[l := d]> h).

(** [df.copy()]: a new object with the same contents. *)
Definition df_copy (l : loc) : M loc := fun h =>
  match h !! l with
  | Some d => let l' := fresh (dom h) in (Ok l', <[l' := d]> h)
  | None => (Raise "NameError", h)
  end.

(** [c in df.columns]. *)
Definition contains (l : loc) (c : string) : M bool :=
  d ← read l; mret (has_col c d).

(** [df[c]]. *)
Definition get_col (l : loc) (c : string) : M Column :=
  d ← read l;
  match df_get c d with
  | Some col => mret col
  | None => raise "KeyError"
  end.

(** [df[c] = col]. *)
Definition set_col (l : loc) (c : string) (col : Column) : M unit :=
  d ← read l; write l (df_set c col d).

(** [df.drop(columns=cs, errors="ignore", inplace=True)]. *)
Definition drop_inplace (l : loc) (cs : list string) : M unit :=
  d ← read l; write l (df_drop cs d).

(** [for x in xs: body(x)]. *)
Fixpoint for_each {A} (xs : list A) (body : A -> M unit) : M unit :=
  match xs with
  | [] => mret tt
  | x :: xs' => body x;; for_each xs' body
  end.

(** [if b: body]. *)
Definition when (b : bool) (body : M unit) : M unit :=
  if b then body else mret tt.

(** ** Preprocessing pipeline: column helpers *)

Definition TARGET_COL : string := "TARGET".
Definition ID_COLS : list string := ["SK_ID_CURR"].

Definition lift {A} (r : result A) : M A := fun h => (r, h).

(** An operand of numeric arithmetic; unary minus and division raise on a
    text or categorical column. *)
Definition numeric_operand (c : Column) : result Series :=
  match c with
  | NumCol v => Ok v
  | _ => Raise "TypeError"
  end.

(** [-col / 365.25].  The column is held by its float values: on a zero
    cell of an integer column the code negates the integer and gets [0.0],
    where the float negation here gives [-0.0]. *)
Definition years_of_days (v : Series) : Series :=
  map (fun x => F64.div (F64.neg x) (F64.lit 36525 100)) v.

(** [df.loc[df[c] == 365243, c] = np.nan]; nothing compares equal to the
    number in a text or categorical column. *)
Definition mask_sentinel (c : Column) : Column :=
  match c with
  | NumCol v =>
      NumCol (map (fun x => if F64.eqb x (F64.of_Z 365243) then F64.nan else x) v)
  | _ => c
  end.

(** [Series.median()] of the non-missing cells. *)
Definition median (v : Series) : float :=
  let w := sort_values (dropna v) in
  let n := List.length w in
  if (n =? 0)%nat then F64.nan
  else if Nat.odd n then nth (n / 2) w F64.nan
  else F64.div (F64.add (nth (n / 2 - 1) w F64.nan) (nth (n / 2) w F64.nan))
               (F64.of_Z 2).

(** [Series.fillna(x)] on a numeric column. *)
Definition fillna_num (x : float) (v : Series) : Series :=
  map (fun y => if F64.is_nan y then x else y) v.

(** [Series.mode(dropna=True)], first entry: the most frequent text, the
    smallest one among equally frequent ones; [None] if the column holds no
    text. *)
Definition mode (v : StrSeries) : option string :=
  fold_left
    (fun best c =>
       match best with
       | None => Some c
       | Some b =>
           if (count_of (Some b) v <? count_of (Some c) v)%nat
           then Some c else best
       end)
    (categories_of v) None.

(** [col.fillna(x).astype("category")] on a text or categorical column;
    filling a categorical column with a text that is not one of its
    categories raises. *)
Definition fillna_text (x : string) (c : Column) : result Column :=
  let fill := map (fun y => match y with None => Some x | _ => y end) in
  match c with
  | NumCol v => Ok c
  | ObjCol v => Ok (as_category (fill v))
  | CatCol cats v =>
      if name_in x cats then Ok (CatCol cats (fill v))
      else Raise "TypeError: Cannot setitem on a Categorical with a new category"
  end.

(** [_br] of the income bracketing. *)
Definition _br (q1 q3 x : float) : string :=
  if F64.leb x q1 then "Low"
  else if F64.gtb x q3 then "High"
  else "Mid".

(** The column lists of the pipeline. *)
Definition protected (c : string) : bool :=
  name_in c ID_COLS || String.eqb c TARGET_COL.

Definition obj_cols (df : DataFrame) : list string :=
  map fst (List.filter
             (fun '(c, col) =>
                match col with ObjCol _ => negb (protected c) | _ => false end)
             (columns df)).

Definition num_cols (df : DataFrame) : list string :=
  map fst (List.filter
             (fun '(c, col) => is_numeric_dtype col && negb (protected c))
             (columns df)).

Definition cat_cols (df : DataFrame) : list string :=
  map fst (List.filter
             (fun '(c, col) =>
                match col with
                | CatCol _ _ | ObjCol _ => negb (protected c)
                | NumCol _ => false
                end)
             (columns df)).

Definition drop_cols (miss_tbl : list (string * float)) : list string :=
  List.filter (fun c => negb (protected c))
    (map fst (List.filter (fun '(_, pct) => F64.gtb pct (F64.of_Z 60)) miss_tbl)).

Definition winsor_candidates : list string :=
  ["AMT_INCOME_TOTAL"; "AMT_CREDIT"; "AMT_ANNUITY"; "AMT_GOODS_PRICE";
   "DTI"; "LTI"].

Definition winsor_fields (df : DataFrame) : list string :=
  List.filter (fun x => has_col x df) winsor_candidates.

Record Artifacts := {
  dropped_cols : list string;
  winsor_params : list (string * WinsorParams);
  missingness_before : list (string * float);
  missingness_after : list (string * float);
  rare_maps : list (string * gmap string string);
  notes : list string
}.

Definition pipeline_notes : list string :=
  ["IDs excluded from categorical/rare-merge.";
   "Imputed numeric=median; categorical=mode.";
   "Winsorized 1% tails for income/credit/annuity/goods, DTI, LTI.";
   "DAYS_EMPLOYED==365243 treated as missing (unemployed).";
   "Ratios guard against invalid denominators."].

(** ** Preprocessing pipeline *)

Section Pipeline.

(** Python's [str] of a number and [float] of a text, used by
    [astype(str)], [astype("string")] and [astype(float)]. *)
Variable float_repr : float -> string.
Variable float_parse : string -> option float.

(** [col.astype(str)]: every cell becomes its text; a missing cell becomes
    the text ["nan"]. *)
Definition astype_str (c : Column) : Column :=
  match c with
  | NumCol v => ObjCol (map (fun x => Some (float_repr x)) v)
  | ObjCol v | CatCol _ v =>
      ObjCol (map (fun x => Some (default "nan" x)) v)
  end.

(** [col.astype("string")]: missing cells stay missing. *)
Definition astype_string (c : Column) : StrSeries :=
  match c with
  | NumCol v => map (fun x => if F64.is_nan x then None else Some (float_repr x)) v
  | ObjCol v | CatCol _ v => v
  end.

(** [col.astype("category")] on a text column. *)
Definition astype_category (c : Column) : Column :=
  match c with
  | ObjCol v => as_category v
  | _ => c
  end.

(** [col.astype(float)]: raises on a text that is not a number. *)
Definition astype_float (c : Column) : result Series :=
  match c with
  | NumCol v => Ok v
  | ObjCol v | CatCol _ v =>
      fold_right
        (fun x acc =>
           match acc with
           | Raise e => Raise e
           | Ok w =>
               match x with
               | None => Ok (F64.nan :: w)
               | Some t =>
                   match float_parse t with
                   | Some y => Ok (y :: w)
                   | None => Raise "ValueError: could not convert string to float"
                   end
               end
           end)
        (Ok []) v
  end.

(** [df[c] = _guard_ratio(df[a], df[b])] when both columns are there. *)
Definition derive_ratio (df : loc) (c a b : string) : M unit :=
  ha ← contains df a;
  hb ← contains df b;
  when (ha && hb)
    (ca ← get_col df a;
     cb ← get_col df b;
     numer ← lift (numeric_operand ca);
     denom ← lift (numeric_operand cb);
     set_col df c (NumCol (_guard_ratio numer denom))).

(** The rare-label loop: it returns [rare_maps]. *)
Fixpoint merge_rare_loop (df : loc) (cs : list string)
  : M (list (string * gmap string string)) :=
  match cs with
  | [] => mret []
  | c :: cs' =>
      col ← get_col df c;
      let '(merged, mapping) :=
        _merge_rare_levels (astype_string col) (F64.lit 1 100) in
      set_col df c (as_category merged);;
      rest ← merge_rare_loop df cs';
      mret ((c, mapping) :: rest)
  end.

(** The winsorization loop: it returns [winsor_params]. *)
Fixpoint winsorize_loop (df : loc) (cs : list string)
  : M (list (string * WinsorParams)) :=
  match cs with
  | [] => mret []
  | c :: cs' =>
      col ← get_col df c;
      v ← lift (astype_float col);
      let '(clipped, params) := _winsorize v (F64.lit 1 100) (F64.lit 99 100) in
      set_col df c (NumCol clipped);;
      rest ← winsorize_loop df cs';
      mret ((c, params) :: rest)
  end.

(** The stages of [preprocess_application_train], in source order. *)

(** IDs as strings. *)
Definition cast_ids (df : loc) : M unit :=
  for_each ID_COLS (fun c =>
    b ← contains df c;
    when b (col ← get_col df c; set_col df c (astype_str col))).

(** Cast objects, except IDs and TARGET, to category. *)
Definition cast_objects (df : loc) : M unit :=
  d ← read df;
  for_each (obj_cols d) (fun c =>
    col ← get_col df c; set_col df c (astype_category col)).

(** Derived features. *)
Definition derive_features (df : loc) : M unit :=
  b ← contains df "DAYS_BIRTH";
  when b
    (col ← get_col df "DAYS_BIRTH";
     v ← lift (numeric_operand col);
     set_col df "AGE_YEARS" (NumCol (years_of_days v)));;
  b ← contains df "DAYS_EMPLOYED";
  when b
    (col ← get_col df "DAYS_EMPLOYED";
     set_col df "DAYS_EMPLOYED" (mask_sentinel col);;
     col ← get_col df "DAYS_EMPLOYED";
     v ← lift (numeric_operand col);
     set_col df "EMPLOYMENT_YEARS" (NumCol (years_of_days v)));;
  derive_ratio df "DTI" "AMT_ANNUITY" "AMT_INCOME_TOTAL";;
  derive_ratio df "LTI" "AMT_CREDIT" "AMT_INCOME_TOTAL";;
  derive_ratio df "ANNUITY_TO_CREDIT" "AMT_ANNUITY" "AMT_CREDIT".

(** Missingness and drop of the columns missing in more than 60% of the
    rows; it returns [miss_tbl_before] and [drop_cols]. *)
Definition drop_missing (df : loc) : M (list (string * float) * list string) :=
  d ← read df;
  let miss_tbl_before := summarize_missingness d in
  let drop_cols := drop_cols miss_tbl_before in
  drop_inplace df drop_cols;;
  mret (miss_tbl_before, drop_cols).

(** Imputation: numeric median, categorical mode. *)
Definition impute (df : loc) (num_cols cat_cols : list string) : M unit :=
  for_each num_cols (fun c =>
    col ← get_col df c;
    when (existsb id (isna col))
      (match col with
       | NumCol v => set_col df c (NumCol (fillna_num (median v) v))
       | _ => mret tt
       end));;
  for_each cat_cols (fun c =>
    col ← get_col df c;
    when (existsb id (isna col))
      (filled ← lift (fillna_text
                        (default "Unknown" (mode (astype_string col))) col);
       set_col df c filled)).

(** Income brackets. *)
Definition income_brackets (df : loc) : M unit :=
  b ← contains df "AMT_INCOME_TOTAL";
  when b
    (col ← get_col df "AMT_INCOME_TOTAL";
     v ← lift (numeric_operand col);
     let q1 := quantile v (F64.lit 1 4) in
     let q3 := quantile v (F64.lit 3 4) in
     set_col df "INCOME_BRACKET"
       (as_category (map (fun x => Some (_br q1 q3 x)) v))).

(** The statements of [preprocess_application_train] after its first
    line. *)
Definition preprocess_steps (df : loc) : M (loc * Artifacts) :=
  cast_ids df;;
  cast_objects df;;
  derive_features df;;
  '(miss_tbl_before, drop_cols) ← drop_missing df;
  d ← read df;
  let num_cols := num_cols d in
  let cat_cols := cat_cols d in
  impute df num_cols cat_cols;;
  rare_maps ← merge_rare_loop df cat_cols;
  d ← read df;
  winsor_params ← winsorize_loop df (winsor_fields d);
  income_brackets df;;
  d ← read df;
  let miss_tbl_after := summarize_missingness d in
  mret (df, {| dropped_cols := drop_cols;
               winsor_params := winsor_params;
               missingness_before := miss_tbl_before;
               missingness_after := miss_tbl_after;
               rare_maps := rare_maps;
               notes := pipeline_notes |}).

(** [preprocess_application_train] of preprocessing.py.  Its first line,
    [df = df.copy()], rebinds the name [df] to a copy; every later
    statement works on that copy. *)
Definition preprocess_application_train (df : loc) : M (loc * Artifacts) :=
  df ← df_copy df;
  preprocess_steps df.

End Pipeline.

(** ** Assertions on the store *)

(** [I] holds after [m] whenever it held before, whether [m] returns or
    raises. *)
Definition inv {A} (I : heap -> Prop) (m : M A) : Prop :=
  forall h, I h -> I (snd (m h)).

(** Every value [m] returns satisfies [Q]. *)
Definition returns {A} (m : M A) (Q : A -> Prop) : Prop :=
  forall h a, fst (m h) = Ok a -> Q a.

(** [I] survives any change of the object at [l] that leaves the columns
    selected by [keep] as they are. *)
Definition stable (l : loc) (keep : string -> bool) (I : heap -> Prop) : Prop :=
  forall h d d', I h -> h !! l = Some d ->
    (forall c, keep c = true -> df_get c d' = df_get c d) ->
    I (<[l := d']> h).

(** The object at [l0] is [D]. *)
Definition obj_is (l0 : loc) (D : option DataFrame) (h : heap) : Prop :=
  h !! l0 = D.

(** The object at [l] exists and its column [c] is [X]. *)
Definition col_is (l : loc) (c : string) (X : option Column) (h : heap) : Prop :=
  exists d, h !! l = Some d /\ df_get c d = X.

(** ** Filter engine *)

(** The sidebar: what the user answers to each widget, given its label, its
    options or bounds and its default. *)
Record Sidebar := {
  multiselect : string -> list Cell -> list Cell -> list Cell;
  slider : string -> float -> float -> float * float -> float * float;
  checkbox : string -> bool -> bool;
  button : string -> bool
}.

(** Every widget left at its default, no button pressed. *)
Definition default_sidebar : Sidebar :=
  {| multiselect := fun _ _ default => default;
     slider := fun _ _ _ default => default;
     checkbox := fun _ default => default;
     button := fun _ => false |}.

Inductive FilterValue :=
| FSel (sel : list Cell)
| FRange (rng : float * float)
| FFlag (b : bool).

Abbreviation Values := (list (string * FilterValue)).

(** [sorted(col.dropna().unique().tolist())]. *)
Definition unique_values (c : Column) : list Cell :=
  remove_dups (List.filter (fun k => negb (bool_decide (k = CNA))) (row_keys c)).

Definition sorted_unique (c : Column) : list Cell :=
  merge_sort cell_le (unique_values c).

(** [col.isin(sel)]. *)
Definition isin (sel : list Cell) (c : Column) : list bool :=
  map (fun k => bool_decide (k ∈ sel)) (row_keys c).

(** [np.floor] and [np.ceil]. *)
Definition np_floor (x : float) : float :=
  match x with
  | S754_finite _ _ e => if 0 <=? e then x else F64.of_Z (F64.floor x)
  | _ => x
  end.

Definition np_ceil (x : float) : float := F64.neg (np_floor (F64.neg x)).

(** [Series.min()] and [Series.max()]: missing cells are skipped, NaN when
    nothing is left. *)
Definition series_min (v : Series) : float :=
  match dropna v with
  | [] => F64.nan
  | x :: w => fold_left (fun m y => if F64.ltb y m then y else m) w x
  end.

Definition series_max (v : Series) : float :=
  match dropna v with
  | [] => F64.nan
  | x :: w => fold_left (fun m y => if F64.ltb m y then y else m) w x
  end.

(** [col.between(lo, hi)], both ends included. *)
Definition between (lo hi : float) (v : Series) : list bool :=
  map (fun x => F64.geb x lo && F64.leb x hi) v.

Definition all_missing (v : StrSeries) : bool :=
  forallb (fun x => match x with None => true | Some _ => false end) v.

#[global] Instance result_ret : MRet result := fun A a => Ok a.

#[global] Instance result_bind : MBind result := fun A B f r =>
  match r with
  | Ok a => f a
  | Raise e => Raise e
  end.

(** The numbers [min], [max] and the comparisons see in a range column: a
    numeric column as it is; a text column holding nothing but missing cells
    as NaNs; anything else raises a [TypeError] there. *)
Definition numeric_view (c : Column) : result Series :=
  match c with
  | NumCol v => Ok v
  | ObjCol v =>
      if all_missing v then Ok (map (fun _ => F64.nan) v)
      else Raise "TypeError"
  | CatCol _ _ => Raise "TypeError"
  end.

(** The call [st.sidebar.slider(label, lo, hi, (lo, hi), step=1.0)]: the
    widget raises when its minimum is not below its maximum, and when a
    bound is infinite; otherwise it returns what the user answers. *)
Definition range_slider (sb : Sidebar) (label : string) (lo hi : float)
  : result (float * float) :=
  if F64.geb lo hi then Raise "StreamlitInvalidMinMaxError"
  else if F64.is_inf lo || F64.is_inf hi
       then Raise "StreamlitJSNumberBoundsError"
       else Ok (slider sb label lo hi (lo, hi)).

(** One multi-select filter of [get_filtered_df]: the options are the
    observed values, all selected by default; an empty selection filters
    nothing. *)
Definition categorical_filter (sb : Sidebar) (label col : string)
    (st : DataFrame * Values) : DataFrame * Values :=
  let '(f, values) := st in
  match df_get col f with
  | Some c =>
      let options := sorted_unique c in
      let sel := multiselect sb label options options in
      let values := values ++ [(col, FSel sel)] in
      match sel with
      | [] => (f, values)
      | _ => (df_mask (isin sel c) f, values)
      end
  | None => st
  end.

Definition age_filter (sb : Sidebar) (st : DataFrame * Values)
  : result (DataFrame * Values) :=
  let '(f, values) := st in
  match df_get "AGE_YEARS" f with
  | Some c =>
      v ← numeric_view c;
      let a_min := np_floor (series_min v) in
      let a_max := np_ceil (series_max v) in
      rng ← range_slider sb "Age (years)" a_min a_max;
      let values := values ++ [("AGE_YEARS", FRange rng)] in
      Ok (df_mask (between (fst rng) (snd rng) v) f, values)
  | None => Ok st
  end.

Definition income_bracket_filter (sb : Sidebar) (st : DataFrame * Values)
  : DataFrame * Values :=
  let '(f, values) := st in
  match df_get "INCOME_BRACKET" f with
  | Some c =>
      let pref := [CStr "Low"; CStr "Mid"; CStr "High"] in
      let present :=
        List.filter (fun b => bool_decide (b ∈ unique_values c)) pref in
      let sel := multiselect sb "Income Bracket" present present in
      let values := values ++ [("INCOME_BRACKET", FSel sel)] in
      match sel with
      | [] => (f, values)
      | _ => (df_mask (isin sel c) f, values)
      end
  | None => st
  end.

Definition employment_filter (sb : Sidebar) (st : DataFrame * Values)
  : result (DataFrame * Values) :=
  let '(f, values) := st in
  match df_get "EMPLOYMENT_YEARS" f with
  | Some c =>
      let na := isna c in
      v ← match c with
          | CatCol _ w =>
              if all_missing w then Ok (map (fun _ => F64.nan) w)
              else Raise "TypeError"
          | _ => numeric_view c
          end;
      let '(e_min, e_max) :=
        match dropna v with
        | [] => (F64.zero, F64.zero)
        | _ => (np_floor (series_min v), np_ceil (series_max v))
        end in
      let include_unemp :=
        checkbox sb "Include Unemployed (missing tenure)" true in
      rng ← range_slider sb "Employment Tenure (years)" e_min e_max;
      mask_range ← match c with
                   | CatCol _ _ => Raise "TypeError"
                   | _ => Ok (between (fst rng) (snd rng) v)
                   end;
      let mask :=
        if include_unemp
        then map (fun '(r, n) => r || n) (combine mask_range na)
        else map (fun '(r, n) => r && negb n) (combine mask_range na) in
      Ok (df_mask mask f,
          values ++ [("EMPLOYMENT_YEARS", FRange rng);
                     ("INCLUDE_UNEMPLOYED", FFlag include_unemp)])
  | None => Ok st
  end.

(** [get_filtered_df] of utils/utils.py.  Pressing the reset button reruns
    the script: the call does not return. *)
Definition get_filtered_df (sb : Sidebar) (df : DataFrame)
    (section_title : string) (show_reset_button : bool)
  : result (DataFrame * Values) :=
  let st : DataFrame * Values := (df, []) in
  let st := categorical_filter sb "Gender" "CODE_GENDER" st in
  let st := categorical_filter sb "Education" "NAME_EDUCATION_TYPE" st in
  let st := categorical_filter sb "Family Status" "NAME_FAMILY_STATUS" st in
  let st := categorical_filter sb "Housing Type" "NAME_HOUSING_TYPE" st in
  st ← age_filter sb st;
  let st := income_bracket_filter sb st in
  st ← employment_filter sb st;
  if show_reset_button && button sb "Reset Filters"
  then Raise "RerunException"
  else Ok st.

(** ** The order of binary64 as an order on integer triples

    [SFcompare] is the lexicographic order of these keys: the class
    (-infinity, negative, zero, positive, +infinity), then the exponent,
    then the mantissa, the last two negated for negative numbers. *)
Definition fkey (x : float) : Z * Z * Z :=
  match x with
  | S754_nan => (0, 0, 0)
  | S754_infinity true => (-2, 0, 0)
  | S754_infinity false => (2, 0, 0)
  | S754_zero _ => (0, 0, 0)
  | S754_finite true m e => (-1, - e, Z.neg m)
  | S754_finite false m e => (1, e, Z.pos m)
  end.

Definition lex_le (a b : Z * Z * Z) : Prop :=
  let '(a1, a2, a3) := a in
  let '(b1, b2, b3) := b in
  a1 < b1 \/ (a1 = b1 /\ (a2 < b2 \/ (a2 = b2 /\ a3 <= b3))).

(** ** Datasets the default filter keeps whole *)

Definition has_missing (c : Column) : bool := existsb id (isna c).

Definition valid_series (v : Series) : Prop :=
  forall y, In y v -> F64.valid y = true.

Definition finite_series (v : Series) : Prop :=
  forall y, In y v -> F64.is_inf y = false.

Definition categorical_filter_cols : list string :=
  ["CODE_GENDER"; "NAME_EDUCATION_TYPE"; "NAME_FAMILY_STATUS";
   "NAME_HOUSING_TYPE"].

(** A dataset is ready for the filters when every column has one cell per
    row, the four categorical filter columns have no missing cell, the age
    column is numeric without missing cell, the income brackets are among
    Low, Mid and High, the employment tenure is numeric, the cells of the
    two range columns are well-formed doubles and none is infinite, and
    each of the two sliders has room: the floored minimum of the column is
    below its ceiled maximum (for the tenure, over its non-missing cells, of
    which there is one at least). *)
Definition filter_ready (df : DataFrame) : Prop :=
  (forall c col, In (c, col) (columns df) -> col_length col = df_len df) /\
  (forall c col, In c categorical_filter_cols -> df_get c df = Some col ->
                 has_missing col = false) /\
  (forall col, df_get "AGE_YEARS" df = Some col ->
               exists v, col = NumCol v /\ has_missing col = false /\
                         valid_series v /\ finite_series v /\
                         F64.ltb (np_floor (series_min v))
                                 (np_ceil (series_max v)) = true) /\
  (forall col, df_get "INCOME_BRACKET" df = Some col ->
               forall k, In k (row_keys col) ->
                         In k [CStr "Low"; CStr "Mid"; CStr "High"]) /\
  (forall col, df_get "EMPLOYMENT_YEARS" df = Some col ->
               exists v, col = NumCol v /\ valid_series v /\
                         finite_series v /\
                         F64.ltb (np_floor (series_min v))
                                 (np_ceil (series_max v)) = true).

(** ** Descending order *)

(** [x] may come before [y] in a descending sort that puts NaN last. *)
Definition desc_le (x y : float) : Prop := desc_before x y = true.

(** ** Row selections *)

(** The mask that selects, in one step, what [m2] selects among the rows
    that [m1] selects. *)
Fixpoint mask_compose (m1 m2 : list bool) : list bool :=
  match m1 with
  | [] => []
  | false :: m1' => false :: mask_compose m1' m2
  | true :: m1' =>
      match m2 with
      | [] => []
      | b :: m2' => b :: mask_compose m1' m2'
      end
  end.

(** [f] is [df] or a selection of rows of [df]. *)
Definition row_selection (f df : DataFrame) : Prop :=
  f = df \/ exists mask, f = df_mask mask df.

(** The columns [get_filtered_df] looks for. *)
Definition filterable_cols : list string :=
  categorical_filter_cols ++ ["AGE_YEARS"; "INCOME_BRACKET"; "EMPLOYMENT_YEARS"].

(** ** Outcome labels *)

(** [TGT_LABELS] of utils/utils.py, as the lookup [Series.map] makes in it:
    the keys are the integers 0 and 1, which a float cell matches when it is
    equal to one of them. *)
Definition TGT_LABELS (x : float) : option string :=
  if F64.eqb x (F64.of_Z 0) then Some "Repaid"
  else if F64.eqb x (F64.of_Z 1) then Some "Default"
  else None.

(** [col.map(TGT_LABELS)]: a cell that is no key of the dictionary (a missing
    cell, a text) becomes missing. *)
Definition map_labels (c : Column) : StrSeries :=
  match c with
  | NumCol v => map TGT_LABELS v
  | ObjCol v | CatCol _ v => map (fun _ => None) v
  end.

(** [s.value_counts(dropna=False)]: one entry per distinct cell, the missing
    value included, sorted by decreasing count. *)
Definition value_counts (s : StrSeries) : list (option string * nat) :=
  fold_right insert_by_count [] (map (fun k => (k, count_of k s)) (unique s)).

Definition count_ge (a b : nat) : Prop := (b <= a)%nat.

(** [counts_repaid_default] of utils/utils.py. *)
Definition counts_repaid_default (df : DataFrame) : Table :=
  match df_get TARGET df with
  | Some c =>
      let t := value_counts (map_labels c) in
      [("Status", TKey (map (fun e => str_key (fst e)) t));
       ("Count", TInt (map snd t))]
  | None => empty_table ["Status"; "Count"]
  end.

(** The number of rows of a column that [TGT_LABELS] labels [k]. *)
Definition labelled (k : Cell) (c : Column) : nat :=
  List.length
    (List.filter (fun x => bool_decide (str_key x = k)) (map_labels c)).

(** The number of cells of a series that pass a test. *)
Definition count_cells (p : float -> bool) (v : Series) : nat :=
  List.length (List.filter p v).

(** ** Top rows *)

(** [t.head(n)]: the first [n] rows; for a negative [n], all rows but the
    last [-n]. *)
Definition df_head {A} (n : Z) (l : list A) : list A :=
  if 0 <=? n then take (Z.to_nat n) l
  else take (List.length l - Z.to_nat (- n)) l.

(** [abs] on a cell. *)
Definition fabs (x : float) : float :=
  match x with
  | S754_zero _ => S754_zero false
  | S754_infinity _ => S754_infinity false
  | S754_nan => S754_nan
  | S754_finite _ m e => S754_finite false m e
  end.

Definition abs_before (a b : string * float) : Prop :=
  desc_before (fabs (snd a)) (fabs (snd b)) = true.

#[global] Instance abs_before_dec a b : Decision (abs_before a b).
Proof. unfold abs_before; apply _. Defined.

(** [bar_corr_to_target] of utils/utils.py; [tgt_corr] is [None] or a series
    of coefficients indexed by feature name. *)
Definition bar_corr_to_target (tgt_corr : option (list (string * float)))
    (top_n : Z) : Table :=
  match tgt_corr with
  | None | Some [] => empty_table ["feature"; "corr"; "abs_corr"]
  | Some s =>
      let t := List.filter (fun r => negb (F64.is_nan (snd r))) s in
      let t := df_head top_n (stable_sort abs_before t) in
      [("feature", TKey (map (fun r => CStr (fst r)) t));
       ("corr", TFloat (map snd t));
       ("abs_corr", TFloat (map (fun r => fabs (snd r)) t))]
  end.

(** [missingness_topk] of utils/utils.py; [artifacts] is [None] (or an empty
    dictionary) or the artifacts of the preprocessing.  The table is given by
    its rows (column, missing_pct). *)
Definition missingness_topk (artifacts : option Artifacts) (df : DataFrame)
    (k : Z) : list (string * float) :=
  let fallback :=
    df_head k
      (stable_sort pct_before
         (map (fun '(c, col) => (c, missing_pct col)) (columns df))) in
  match artifacts with
  | Some art =>
      match missingness_before art with
      | [] => fallback
      | miss_df => df_head k (stable_sort pct_before miss_df)
      end
  | None => fallback
  end.

(** ** Status column *)

(** The column [col.map(TGT_LABELS)] gives.  From a numeric or a text column
    it is of [object] dtype.  On a categorical column the categories are
    mapped: none of them is a key, so the result is a float column of NaNs,
    or, when there is no category at all, a categorical column without
    categories. *)
Definition status_column (c : Column) : Column :=
  match c with
  | CatCol [] v => CatCol [] (map (fun _ => None) v)
  | CatCol _ v => NumCol (map (fun _ => F64.nan) v)
  | _ => ObjCol (map_labels c)
  end.

(** [add_status_col] of utils/utils.py. *)
Definition add_status_col (df : loc) (status_col : string) : M loc :=
  b ← contains df TARGET;
  if negb b then df_copy df
  else
    out ← df_copy df;
    col ← get_col out TARGET;
    set_col out status_col (status_column col);;
    mret out.

(** ** Assertions on a run *)

(** Started in a store that satisfies [P], [m] leaves, when it returns, a
    value and a store that satisfy [Q]. *)
Definition triple {A} (P : heap -> Prop) (m : M A) (Q : A -> heap -> Prop)
  : Prop :=
  forall h a h', P h -> m h = (Ok a, h') -> Q a h'.

(** A column has [k] cells, when a number [k] is asked for. *)
Definition col_ok (n : option nat) (c : Column) : Prop :=
  forall k, n = Some k -> col_length c = k.

(** The object at [l] has the row index [ix], and every column of it
    satisfies [col_ok n]. *)
Definition shape (l : loc) (ix : list nat) (n : option nat) (h : heap) : Prop :=
  exists d, h !! l = Some d /\ index d = ix /\
            forall c col, In (c, col) (columns d) -> col_ok n col.

(** Every column of a dataframe has one cell per row. *)
Definition regular (d : DataFrame) : Prop :=
  forall c col, In (c, col) (columns d) -> col_length col = df_len d.

(** The bracket column of [d] is computed from the income column of [d],
    with the quartiles of that column. *)
Definition bracketed (d : DataFrame) : Prop :=
  forall col, df_get "AMT_INCOME_TOTAL" d = Some col ->
    exists v, col = NumCol v /\
      df_get "INCOME_BRACKET" d =
        Some (as_category
                (map (fun x => Some (_br (quantile v (F64.lit 1 4))
                                         (quantile v (F64.lit 3 4)) x)) v)).

(** The state of the filters respects the selection made for [col]: when the
    dataframe has the column, a selection is recorded for it, and unless
    that selection is empty every cell of the column belongs to it. *)
Definition selected (col : string) (st : DataFrame * Values) : Prop :=
  forall c, df_get col (fst st) = Some c ->
    exists sel, In (col, FSel sel) (snd st) /\
                (sel = [] \/ forall k, In k (row_keys c) -> k ∈ sel).

(** One filter step: rows are selected, and the record of selections is
    extended. *)
Definition filter_step (st st' : DataFrame * Values) : Prop :=
  row_selection (fst st') (fst st) /\ exists ext, snd st' = snd st ++ ext.

(** ** Tiles *)

(** What a tile is given to show: a Python [int], a [float], a text or
    [None]. *)
Inductive KpiValue :=
| KInt (z : Z)
| KFloat (x : float)
| KText (s : string)
| KNone.

(** The call [st.metric(label, value, help=help_text)]. *)
Record Metric := {
  metric_label : string;
  metric_value : string;
  metric_help : option string
}.

Section Tiles.

(** Python's [fmt.format(value)] on a number. *)
Variable py_format : string -> KpiValue -> string.

(** [kpi] of utils/utils.py, as the call of [st.metric] it makes. *)
Definition kpi (label : string) (value : KpiValue) (fmt : string)
    (help_text : option string) : Metric :=
  let shown :=
    match value with
    | KInt _ => py_format fmt value
    | KFloat x =>
        if F64.is_nan x || F64.is_inf x then "N/A" else py_format fmt value
    | KText s => s
    | KNone => "N/A"
    end in
  {| metric_label := label; metric_value := shown; metric_help := help_text |}.

End Tiles.

(** [default_rate] of utils/utils.py. *)
Definition default_rate (target_series : Series) : float :=
  F64.mul (mean target_series) (F64.of_Z 100).

(** ** Sampling *)

(** The rows at the given positions. *)
Definition col_take (order : list nat) (c : Column) : Column :=
  match c with
  | NumCol v => NumCol (map (fun i => nth i v F64.nan) order)
  | ObjCol v => ObjCol (map (fun i => nth i v None) order)
  | CatCol cats v => CatCol cats (map (fun i => nth i v None) order)
  end.

Definition df_take (order : list nat) (df : DataFrame) : DataFrame :=
  {| index := map (fun i => nth i (index df) 0%nat) order;
     columns := map (fun '(c, col) => (c, col_take order col)) (columns df) |}.

Section Sampling.

(** The positions [df.sample(n, random_state=seed)] draws among the rows of
    a dataframe of the given length. *)
Variable draw : nat -> nat -> Z -> list nat.

(** [sample_df] of utils/utils.py.  A small dataframe is returned as it is,
    the same object; [df.sample] makes a new one, and raises on a negative
    [n]. *)
Definition sample_df (df : loc) (n : Z) (seed : Z) : M loc :=
  d ← read df;
  if Z.of_nat (df_len d) <=? n then mret df
  else if n <? 0 then raise "ValueError"
  else fun h =>
    let out := fresh (dom h) in
    (Ok out, <[out := df_take (draw (df_len d) (Z.to_nat n) seed) d]> h).

End Sampling.

(** ** Columns without missing category *)

(** A column is tidy when it is numeric, or categorical without a missing
    cell. *)
Definition tidy (col : Column) : Prop :=
  match col with
  | NumCol _ => True
  | ObjCol _ => False
  | CatCol _ w => forall x, In x w -> x <> None
  end.

(** Every column of the object at [l], the identifier and the outcome apart,
    is tidy, but for the columns named in [cs]. *)
Definition tidy_but (l : loc) (cs : list string) (h : heap) : Prop :=
  exists d, h !! l = Some d /\
    forall c col, df_get c d = Some col -> protected c = false ->
                  tidy col \/ In c cs.

(** ** Columns the pipeline may create *)

Definition derived_cols : list string :=
  ["AGE_YEARS"; "EMPLOYMENT_YEARS"; "DTI"; "LTI"; "ANNUITY_TO_CREDIT";
   "INCOME_BRACKET"].

(** Every column name of the object at [l] satisfies [ok]. *)
Definition names_ok (l : loc) (ok : string -> Prop) (h : heap) : Prop :=
  exists d, h !! l = Some d /\ forall c, has_col c d = true -> ok c.

(** * Properties *)

(** ** Guarded ratio *)

Lemma nth_error_series_div (a b : Series) (i : nat) (x y : float) :
  nth_error a i = Some x -> nth_error b i = Some y ->
  nth_error (series_div a b) i = Some (F64.div x y).
Proof.
  revert b i; induction a as [|x' a IH]; intros [|y' b] [|i]; simpl;
    try discriminate; try congruence.
  apply IH.
Qed.

Lemma nth_error_replace (vals : list float) (s : Series) (i : nat) :
  nth_error (replace vals s) i = option_map (replace_cell vals) (nth_error s i).
Proof. unfold replace; apply nth_error_map. Qed.

Lemma guard_ratio_nth (numer denom : Series) (i : nat) (n d : float) :
  nth_error numer i = Some n -> nth_error denom i = Some d ->
  nth_error (_guard_ratio numer denom) i = Some (guard_cell n d).
Proof.
  intros Hn Hd. unfold _guard_ratio.
  rewrite nth_error_replace.
  rewrite (nth_error_series_div _ _ i (replace_cell [F64.inf; F64.neg_inf] n)
             (replace_cell [F64.zero; F64.inf; F64.neg_inf] d)).
  - reflexivity.
  - rewrite nth_error_replace, Hn; reflexivity.
  - rewrite nth_error_replace, Hd; reflexivity.
Qed.

Lemma replace_cell_inf_not_inf (x : float) :
  F64.is_inf (replace_cell [F64.inf; F64.neg_inf] x) = false.
Proof. destruct x as [s|[|]| |s m e]; try destruct s; reflexivity. Qed.

Lemma guard_ratio_never_inf (numer denom : Series) (r : float) :
  In r (_guard_ratio numer denom) -> F64.is_inf r = false.
Proof.
  unfold _guard_ratio, replace at 1. rewrite in_map_iff.
  intros (x & <- & _). apply replace_cell_inf_not_inf.
Qed.

Lemma guard_cell_invalid (n d : float) :
  F64.is_zero d || F64.is_inf d || F64.is_inf n = true ->
  guard_cell n d = F64.nan.
Proof.
  destruct d as [sd|sd| |sd md ed]; destruct n as [sn|sn| |sn mn en];
    try destruct sd; try destruct sn; simpl; try discriminate; reflexivity.
Qed.

Lemma guard_cell_finite (n d : float) :
  F64.is_finite n = true -> F64.is_finite d = true -> F64.is_zero d = false ->
  guard_cell n d =
    if F64.is_inf (F64.div n d) then F64.nan else F64.div n d.
Proof.
  destruct d as [sd|sd| |sd md ed]; try discriminate;
    destruct n as [sn|sn| |sn mn en]; try discriminate; intros _ _ _.
  - destruct sn, sd; reflexivity.
  - unfold guard_cell.
    replace (replace_cell [F64.inf; F64.neg_inf] (S754_finite sn mn en))
      with (S754_finite sn mn en) by (destruct sn; reflexivity).
    replace (replace_cell [F64.zero; F64.inf; F64.neg_inf] (S754_finite sd md ed))
      with (S754_finite sd md ed) by (destruct sd; reflexivity).
    destruct (F64.div (S754_finite sn mn en) (S754_finite sd md ed))
      as [s|[|]| |s m e]; try destruct s; reflexivity.
Qed.

(** C1 (amended).  At a position that both series have, the guarded ratio is
    missing (NaN) when the denominator is 0, +infinity or -infinity or the
    numerator is +infinity or -infinity; when the numerator is finite and the
    denominator is finite and non-zero, it is the binary64 quotient
    numerator/denominator, unless that quotient overflows to an infinity, in
    which case it is missing; no cell of the result is infinite. *)
Theorem guard_ratio_spec (numer denom : Series) (i : nat) (n d : float)
    (Hn : nth_error numer i = Some n) (Hd : nth_error denom i = Some d) :
  (F64.is_zero d || F64.is_inf d || F64.is_inf n = true ->
     nth_error (_guard_ratio numer denom) i = Some F64.nan) /\
  (F64.is_finite n = true -> F64.is_finite d = true -> F64.is_zero d = false ->
     nth_error (_guard_ratio numer denom) i =
       Some (if F64.is_inf (F64.div n d) then F64.nan else F64.div n d)) /\
  (forall r, In r (_guard_ratio numer denom) -> F64.is_inf r = false).
Proof.
  rewrite (guard_ratio_nth numer denom i n d Hn Hd).
  split; [|split].
  - intros H; now rewrite guard_cell_invalid.
  - intros H1 H2 H3; now rewrite guard_cell_finite.
  - apply guard_ratio_never_inf.
Qed.

Lemma guard_ratio_spec_witness :
  let numer := [F64.of_Z 1; F64.inf] in
  let denom := [F64.of_Z 3; F64.of_Z 2] in
  nth_error numer 0 = Some (F64.of_Z 1) /\
  nth_error denom 0 = Some (F64.of_Z 3) /\
  nth_error (_guard_ratio numer denom) 0 = Some (F64.lit 1 3).
Proof.
  intros numer denom.
  split; [reflexivity|split; [reflexivity|]].
  exact (proj1 (proj2 (guard_ratio_spec numer denom 0 (F64.of_Z 1) (F64.of_Z 3)
                         eq_refl eq_refl)) eq_refl eq_refl eq_refl).
Defined.

(** C1 as stated fails where the quotient of two finite doubles overflows:
    the largest double divided by the smallest positive one is +infinity in
    binary64, and the last [replace] of [_guard_ratio] turns it into NaN. *)
Lemma guard_ratio_overflow_counterexample :
  let n := F64.max_float in
  let d := F64.min_subnormal in
  F64.valid n = true /\ F64.valid d = true /\
  F64.is_finite n = true /\ F64.is_finite d = true /\ F64.is_zero d = false /\
  F64.div n d = F64.inf /\
  nth_error (_guard_ratio [n] [d]) 0 = Some F64.nan /\
  nth_error (_guard_ratio [n] [d]) 0 <> Some (F64.div n d).
Proof. vm_compute. repeat split; discriminate. Qed.

(** ** Order on binary64 *)

Lemma SFcompare_refl (x : float) :
  F64.is_nan x = false -> SFcompare x x = Some Eq.
Proof.
  destruct x as [s|[|]| |[|] m e]; simpl; try discriminate; intros _;
    try reflexivity.
  - now rewrite Z.compare_refl, Pos.compare_cont_refl.
  - now rewrite Z.compare_refl, Pos.compare_cont_refl.
Qed.

Lemma SFcompare_antisym (x y : float) :
  SFcompare y x = option_map CompOpp (SFcompare x y).
Proof.
  destruct x as [sx|[|]| |[|] mx ex], y as [sy|[|]| |[|] my ey]; simpl;
    try reflexivity; try (destruct sx; reflexivity);
    try (destruct sy; reflexivity);
    rewrite (Z.compare_antisym ex ey);
    destruct (ex ?= ey); simpl; try reflexivity;
    rewrite (Pos.compare_cont_antisym mx my Eq); simpl;
    try reflexivity; now rewrite CompOpp_involutive.
Qed.

Lemma leb_refl (x : float) : F64.is_nan x = false -> F64.leb x x = true.
Proof.
  intros H. unfold F64.leb, SFleb. now rewrite SFcompare_refl.
Qed.

Lemma geb_refl (x : float) : F64.is_nan x = false -> F64.geb x x = true.
Proof. apply leb_refl. Qed.

Lemma leb_not_nan (x y : float) :
  F64.leb x y = true -> F64.is_nan x = false /\ F64.is_nan y = false.
Proof.
  destruct x as [sx|[|]| |[|] mx ex], y as [sy|[|]| |[|] my ey];
    try discriminate; auto.
Qed.

Lemma ltb_leb (x y : float) : F64.ltb x y = true -> F64.leb x y = true.
Proof.
  unfold F64.ltb, F64.leb, SFltb, SFleb.
  destruct (SFcompare x y) as [[| |]|]; congruence.
Qed.

Lemma leb_ltb_false (x y : float) : F64.leb x y = true -> F64.ltb y x = false.
Proof.
  unfold F64.ltb, F64.leb, SFltb, SFleb. rewrite (SFcompare_antisym x y).
  destruct (SFcompare x y) as [[| |]|]; simpl; congruence.
Qed.

(** Two thresholds that are numbers are in order after Python's
    [min]/[max] swap. *)
Lemma py_min_max_ordered (l u : float) :
  F64.is_nan l = false -> F64.is_nan u = false ->
  F64.leb (py_min l u) (py_max l u) = true.
Proof.
  intros Hl Hu.
  unfold py_min, py_max, F64.gtb, F64.ltb, F64.leb, SFltb, SFleb.
  rewrite (SFcompare_antisym l u).
  destruct (SFcompare l u) as [[| |]|] eqn:E; simpl.
  - now rewrite SFcompare_refl.
  - now rewrite E.
  - now rewrite (SFcompare_antisym l u), E.
  - destruct l as [sx|[|]| |[|] mx ex], u as [sy|[|]| |[|] my ey];
      simpl in *; discriminate.
Qed.

Lemma py_min_not_nan (l u : float) :
  F64.is_nan l = false -> F64.is_nan u = false ->
  F64.is_nan (py_min l u) = false.
Proof. intros; unfold py_min; now destruct (F64.ltb u l). Qed.

Lemma py_max_not_nan (l u : float) :
  F64.is_nan l = false -> F64.is_nan u = false ->
  F64.is_nan (py_max l u) = false.
Proof. intros; unfold py_max; now destruct (F64.gtb u l). Qed.

(** ** Winsorizer *)

Lemma clip_cell_idem (lo hi : option float) (x : float) :
  thresholds_ok lo hi ->
  clip_cell lo hi (clip_cell lo hi x) = clip_cell lo hi x.
Proof.
  intros (Hl & Hu & Hlu). unfold clip_cell.
  destruct lo as [l|], hi as [u|].
  - pose proof (Hl l eq_refl) as Nl. pose proof (Hu u eq_refl) as Nu.
    pose proof (Hlu l u eq_refl eq_refl) as Hle.
    destruct (F64.is_nan x) eqn:Nx; simpl; [now rewrite Nx|].
    destruct (F64.leb x u) eqn:Exu; destruct (F64.geb x l) eqn:Exl;
      rewrite ?Nx, ?Nl, ?Nu, ?Exu, ?Exl, ?Hle, ?leb_refl, ?geb_refl; simpl;
      rewrite ?Nx, ?Nl, ?Nu, ?Exu, ?Exl, ?Hle, ?leb_refl, ?geb_refl; simpl;
      try reflexivity; try assumption.
    all: unfold F64.geb; fold F64.leb; rewrite ?Hle, ?leb_refl; auto.
  - pose proof (Hl l eq_refl) as Nl.
    destruct (F64.is_nan x) eqn:Nx; simpl; [now rewrite Nx|].
    destruct (F64.geb x l) eqn:Exl; rewrite ?Nx, ?Exl, ?Nl, ?geb_refl; auto.
  - pose proof (Hu u eq_refl) as Nu.
    destruct (F64.is_nan x) eqn:Nx; simpl; [now rewrite Nx|].
    destruct (F64.leb x u) eqn:Exu; rewrite ?Nx, ?Exu, ?Nu, ?leb_refl; auto.
  - reflexivity.
Qed.

Lemma clip_thresholds_ok (lower upper : float) :
  thresholds_ok (fst (clip_thresholds lower upper))
                (snd (clip_thresholds lower upper)).
Proof.
  unfold clip_thresholds, thresholds_ok.
  destruct (F64.is_nan lower) eqn:Nl, (F64.is_nan upper) eqn:Nu; simpl;
    repeat split; intros; simplify_eq; auto using py_min_not_nan,
      py_max_not_nan, py_min_max_ordered.
Qed.

Lemma clip_clip (lower upper : float) (s : Series) :
  clip lower upper (clip lower upper s) = clip lower upper s.
Proof.
  unfold clip. pose proof (clip_thresholds_ok lower upper) as Hok.
  destruct (clip_thresholds lower upper) as [lo hi]; simpl in Hok.
  rewrite map_map. apply map_ext. intros x. now apply clip_cell_idem.
Qed.

(** C5.  Clipping a column to a pair of bounds and clipping the result again
    with the same bounds gives the column clipped once; in particular,
    clipping the output of [_winsorize] with the bounds it recorded changes
    nothing. *)
Theorem winsorize_idempotent (lower upper : float) (s : Series) :
  clip lower upper (clip lower upper s) = clip lower upper s /\
  clip (low (snd (_winsorize s lower upper)))
       (high (snd (_winsorize s lower upper)))
       (fst (_winsorize s lower upper)) = fst (_winsorize s lower upper).
Proof. split; [|unfold _winsorize; simpl]; apply clip_clip. Qed.

Lemma SFcompare_Eq_r (a b x : float) :
  SFcompare a b = Some Eq -> SFcompare x a = SFcompare x b.
Proof.
  destruct a as [sa|[|]| |[|] ma ea], b as [sb|[|]| |[|] mb eb]; simpl;
    try discriminate; try reflexivity;
    try (destruct sa; discriminate); try (destruct sb; discriminate);
    try (intros _; destruct x as [?|[|]| |[|] ? ?]; reflexivity).
  all: destruct (ea ?= eb) eqn:Ee; try discriminate;
    apply Z.compare_eq in Ee; subst eb;
    destruct (Pos.compare_cont Eq ma mb) eqn:Em; try discriminate;
    apply Pos.compare_eq in Em; subst mb; reflexivity.
Qed.

Lemma clip_cell_in_bounds (lo hi x : float) :
  F64.leb lo hi = true -> F64.is_nan x = false ->
  let r := clip_cell (Some (py_min lo hi)) (Some (py_max lo hi)) x in
  F64.leb lo r = true /\ F64.leb r hi = true.
Proof.
  intros Hle Nx. destruct (leb_not_nan _ _ Hle) as [Nl Nh].
  unfold py_min, py_max, F64.gtb. rewrite (leb_ltb_false _ _ Hle).
  unfold clip_cell. rewrite Nx; simpl.
  change (SFltb lo hi) with (F64.ltb lo hi).
  destruct (F64.ltb lo hi) eqn:Elt.
  - destruct (F64.leb x hi) eqn:E1, (F64.geb x lo) eqn:E2; simpl;
      auto using leb_refl.
  - assert (SFcompare lo hi = Some Eq) as Eq'.
    { revert Hle Elt. unfold F64.ltb, F64.leb, SFltb, SFleb.
      destruct (SFcompare lo hi) as [[| |]|]; congruence. }
    destruct (F64.leb x lo) eqn:E1, (F64.geb x lo) eqn:E2; simpl;
      auto using leb_refl.
    split; [exact E2|]. revert E1. unfold F64.leb, SFleb.
    now rewrite (SFcompare_Eq_r lo hi x Eq').
Qed.

(** C2 (amended).  Whenever the two bounds recorded by [_winsorize] are
    numbers with [low <= high], every non-missing value of the output column
    lies in the closed interval [[low, high]]. *)
Theorem winsorize_within_bounds (s : Series) (lower upper x : float)
    (Hb : F64.leb (low (snd (_winsorize s lower upper)))
                  (high (snd (_winsorize s lower upper))) = true)
    (Hx : In x (fst (_winsorize s lower upper)))
    (Nx : F64.is_nan x = false) :
  F64.leb (low (snd (_winsorize s lower upper))) x = true /\
  F64.leb x (high (snd (_winsorize s lower upper))) = true.
Proof.
  unfold _winsorize in *; simpl in *.
  set (lo := quantile s lower) in *. set (hi := quantile s upper) in *.
  destruct (leb_not_nan _ _ Hb) as [Nl Nh].
  unfold clip, clip_thresholds in Hx. rewrite Nl, Nh in Hx.
  apply in_map_iff in Hx. destruct Hx as (x0 & <- & _).
  assert (F64.is_nan x0 = false) as Nx0.
  { destruct (F64.is_nan x0) eqn:E; [|reflexivity].
    destruct x0; discriminate. }
  now apply clip_cell_in_bounds.
Qed.

Lemma winsorize_within_bounds_witness :
  let s := map F64.of_Z [1; 2; 3; 4; 100] in
  let p := snd (winsorize_1_99 s) in
  let x := F64.lit 9616 100 in
  low p = F64.lit 104 100 /\ high p = x /\
  F64.leb (low p) (high p) = true /\
  In x (fst (winsorize_1_99 s)) /\
  F64.leb (low p) x = true /\ F64.leb x (high p) = true.
Proof.
  intros s p x.
  assert (F64.leb (low p) (high p) = true) as Hb by (vm_compute; reflexivity).
  assert (In x (fst (winsorize_1_99 s))) as Hx
    by (vm_compute; do 4 right; left; reflexivity).
  split; [vm_compute; reflexivity|].
  split; [vm_compute; reflexivity|].
  split; [exact Hb|]. split; [exact Hx|].
  exact (winsorize_within_bounds s (F64.lit 1 100) (F64.lit 99 100) x Hb Hx
           eq_refl).
Defined.

(** C2 as stated fails on a column holding both infinities: its 1st and 99th
    percentiles are NaN (the interpolation computes [inf - inf]), [clip]
    ignores NaN bounds, and the two non-missing cells stay outside the
    recorded interval. *)
Lemma winsorize_infinite_counterexample :
  let s := [F64.neg_inf; F64.inf] in
  let out := fst (winsorize_1_99 s) in
  let p := snd (winsorize_1_99 s) in
  out = s /\ low p = F64.nan /\ high p = F64.nan /\
  (exists x, In x out /\ F64.is_nan x = false /\
             ~ (F64.leb (low p) x = true /\ F64.leb x (high p) = true)).
Proof.
  vm_compute. repeat split.
  exists (S754_infinity true). split; [now left|]. split; [reflexivity|].
  intros [H _]; discriminate.
Qed.

(** ** Rare-category merger *)

Lemma unique_In (s : StrSeries) (x : option string) :
  In x (unique s) <-> In x s.
Proof.
  induction s as [|y s IH]; simpl; [tauto|].
  rewrite filter_In, IH.
  destruct (decide (x = y)) as [->|Hne].
  - tauto.
  - rewrite bool_decide_eq_false_2 by assumption. simpl.
    split; [intros [?|[? _]]; auto; congruence | intros [?|?]; auto; congruence].
Qed.

Lemma insert_by_count_In (e e0 : option string * nat) l :
  In e (insert_by_count e0 l) <-> e = e0 \/ In e l.
Proof.
  induction l as [|e' l IH]; simpl.
  - split; [intros [?|[]]; auto | intros [?|[]]; auto].
  - destruct (snd e' <=? snd e0)%nat; simpl; [intuition congruence|].
    rewrite IH. intuition congruence.
Qed.

Lemma sort_by_count_In (e : option string * nat) l :
  In e (fold_right insert_by_count [] l) <-> In e l.
Proof.
  induction l as [|e' l IH]; simpl; [tauto|].
  rewrite insert_by_count_In, IH. intuition congruence.
Qed.

Lemma value_counts_In (s : StrSeries) (k : option string) (x : float) :
  In (k, x) (value_counts_normalized s) <-> In k s /\ x = share k s.
Proof.
  unfold value_counts_normalized. rewrite in_map_iff. split.
  - intros ([k' n] & Heq & Hin). simpl in Heq.
    apply sort_by_count_In, in_map_iff in Hin.
    destruct Hin as (k'' & Heq' & Hin).
    apply (proj1 (unique_In _ _)) in Hin.
    inversion Heq'; subst. inversion Heq; subst. now split.
  - intros [Hin ->]. exists (k, count_of k s). split; [reflexivity|].
    apply sort_by_count_In, in_map_iff. exists k. split; [reflexivity|].
    now apply unique_In.
Qed.

Lemma value_counts_keys (s : StrSeries) (k : option string) :
  In k (map fst (value_counts_normalized s)) <-> In k s.
Proof.
  rewrite in_map_iff. split.
  - intros ([k' x] & <- & Hin).
    now apply (proj1 (value_counts_In _ _ _)) in Hin.
  - intros Hin. exists (k, share k s). split; [reflexivity|].
    now apply value_counts_In.
Qed.

Lemma rare_In (s : StrSeries) (min_share : float) (k : option string) :
  k ∈ rare_index s min_share <-> In k s /\ is_rare k s min_share = true.
Proof.
  unfold rare_index. rewrite list_elem_of_In, in_map_iff. split.
  - intros ([k' x] & <- & Hin).
    apply (proj1 (filter_In _ _ _)) in Hin. destruct Hin as [Hin Hlt].
    apply (proj1 (value_counts_In _ _ _)) in Hin.
    destruct Hin as [Hin ->]. now split.
  - intros [Hin Hr]. exists (k, share k s). split; [reflexivity|].
    apply filter_In. split; [now apply value_counts_In | exact Hr].
Qed.

(** A dict built by successive assignments [m[g k] = f k]: the entry of a key
    is the one some [k] of the list wrote, or the original one. *)
Lemma fold_insert_lookup {A} (g f : A -> string) (keys : list A)
    (m : gmap string string) (key : string) :
  match fold_left (fun m k => <[g k := f k]> m) keys m !! key with
  | Some v => (exists k, In k keys /\ g k = key /\ v = f k) \/ m !! key = Some v
  | None => m !! key = None /\ forall k, In k keys -> g k <> key
  end.
Proof.
  revert m; induction keys as [|k keys IH]; intros m; simpl.
  - destruct (m !! key); auto.
  - specialize (IH (<[g k := f k]> m)).
    destruct (fold_left _ keys _ !! key) as [v|].
    + destruct IH as [(k' & Hin & Hg & Hv)|Hm]; [left; eauto|].
      destruct (decide (g k = key)) as [E|E].
      * rewrite <- E, lookup_insert_eq in Hm. left; exists k. naive_solver.
      * rewrite lookup_insert_ne in Hm by assumption. now right.
    + destruct IH as [Hm Hk].
      destruct (decide (g k = key)) as [E|E].
      * rewrite <- E, lookup_insert_eq in Hm. discriminate.
      * rewrite lookup_insert_ne in Hm by assumption.
        split; [assumption|]. intros k' [<-|Hin]; auto.
Qed.

Lemma label_map_lookup (s : StrSeries) (min_share : float) (v : option string) :
  In v s ->
  exists k, In k s /\ py_str k = py_str v /\
    label_map s min_share !! py_str v =
      Some (if is_rare k s min_share then "Other" else py_str k).
Proof.
  intros Hv. unfold label_map.
  pose proof (fold_insert_lookup py_str
    (fun k => if bool_decide (k ∈ rare_index s min_share)
              then "Other" else py_str k)
    (map fst (value_counts_normalized s)) ∅ (py_str v)) as H.
  simpl in H. destruct (fold_left _ _ _ !! py_str v) as [x|].
  - destruct H as [(k & Hin & Hg & ->)|H]; [|now rewrite lookup_empty in H].
    apply (proj1 (value_counts_keys _ _)) in Hin.
    exists k. repeat split; auto.
    destruct (is_rare k s min_share) eqn:E.
    + rewrite bool_decide_eq_true_2; [reflexivity|]. now apply rare_In.
    + rewrite bool_decide_eq_false_2; [reflexivity|].
      rewrite rare_In. intros [_ ?]; congruence.
  - destruct H as [_ H]. exfalso. apply (H v); [|reflexivity].
    now apply value_counts_keys.
Qed.

(** X26.  For every observed cell [v] of the column: the returned table
    has an entry under the text of [v]; the remapped column holds, at each
    position, the table's label for the cell there; the text ["XNA"] is
    always mapped to itself; and, whenever all observed cells that share
    the text of [v] fall on the same side of the threshold as [v] (only a
    missing cell and the literal text ["<NA>"] can share a text), the label
    of [v] is ["Other"] if its share is strictly below the threshold and its
    own text otherwise. *)
Theorem merge_rare_levels_spec (s : StrSeries) (min_share : float)
    (v : option string) (Hv : In v s) :
  let s2 := fst (_merge_rare_levels s min_share) in
  let mapping := snd (_merge_rare_levels s min_share) in
  is_Some (mapping !! py_str v) /\
  (forall i x, nth_error s i = Some x ->
     exists l, mapping !! py_str x = Some l /\ nth_error s2 i = Some (Some l)) /\
  (py_str v = "XNA" -> mapping !! py_str v = Some "XNA") /\
  ((forall w, In w s -> py_str w = py_str v ->
      is_rare w s min_share = is_rare v s min_share) ->
   mapping !! py_str v = Some (final_label v s min_share)).
Proof.
  assert (forall w, In w s ->
    is_Some (snd (_merge_rare_levels s min_share) !! py_str w)) as Hsome.
  { intros w Hw. unfold _merge_rare_levels; simpl.
    destruct (label_map_lookup s min_share w Hw) as (k & _ & _ & Hk).
    case_bool_decide; [|rewrite Hk; eauto].
    destruct (decide (py_str w = "XNA")) as [->|Hne].
    - rewrite lookup_insert_eq; eauto.
    - rewrite lookup_insert_ne by congruence. rewrite Hk; eauto. }
  simpl. split; [now apply Hsome|]. split; [|split].
  - intros i x Hi. destruct (Hsome x) as [l Hl]; [eapply nth_error_In; eauto|].
    exists l. split; [exact Hl|].
    unfold _merge_rare_levels in *; simpl in *.
    rewrite nth_error_map, Hi; simpl. now rewrite Hl.
  - intros Hx. unfold _merge_rare_levels; simpl.
    destruct (label_map_lookup s min_share v Hv) as (k & _ & _ & Hk).
    rewrite Hx in *. rewrite bool_decide_eq_true_2 by eauto.
    now rewrite lookup_insert_eq.
  - intros Hsame. unfold _merge_rare_levels, final_label; simpl.
    destruct (label_map_lookup s min_share v Hv) as (k & Hk & Hg & Hl).
    rewrite (Hsame k Hk Hg), Hg in Hl.
    destruct (decide (py_str v = "XNA")) as [Hx|Hx].
    + rewrite (bool_decide_eq_true_2 _ Hx). rewrite Hx in *.
      rewrite bool_decide_eq_true_2 by eauto.
      now rewrite lookup_insert_eq.
    + rewrite (bool_decide_eq_false_2 _ Hx).
      case_bool_decide; [rewrite lookup_insert_ne by congruence|]; exact Hl.
Qed.

Lemma merge_rare_levels_spec_witness :
  let s := [Some "M"; Some "M"; Some "M"; Some "M"; Some "F"] in
  let min_share := F64.lit 1 4 in
  In (Some "F") s /\
  is_rare (Some "F") s min_share = true /\
  snd (_merge_rare_levels s min_share) !! "F" = Some "Other".
Proof.
  intros s min_share.
  assert (In (Some "F") s) as Hv by (do 4 right; left; reflexivity).
  split; [exact Hv|]. split; [vm_compute; reflexivity|].
  refine (proj2 (proj2 (proj2
            (merge_rare_levels_spec s min_share (Some "F") Hv))) _).
  intros w Hw Hs.
  destruct Hw as [<-|[<-|[<-|[<-|[<-|[]]]]]]; try discriminate Hs; reflexivity.
Defined.


(** ** Rate by category *)

Lemma str_key_inj (x y : option string) : str_key x = str_key y -> x = y.
Proof. destruct x, y; simpl; congruence. Qed.



Lemma sum_list_map_add {A} (f h : A -> nat) (l : list A) :
  sum_list (map (fun x => f x + h x)%nat l) =
  (sum_list (map f l) + sum_list (map h l))%nat.
Proof. induction l as [|x l IH]; simpl; [reflexivity|]. rewrite IH. lia. Qed.

Lemma indicator_sum (k : Cell) (groups : list Cell) :
  NoDup groups ->
  sum_list (map (fun g => if bool_decide (k = g) then 1 else 0)%nat groups) =
  if bool_decide (k ∈ groups) then 1%nat else 0%nat.
Proof.
  induction 1 as [|g groups Hg Hnd IH]; simpl; [reflexivity|].
  rewrite IH. destruct (decide (k = g)) as [->|Hne].
  - rewrite (bool_decide_eq_true_2 (g = g)) by reflexivity.
    rewrite (bool_decide_eq_false_2 (g ∈ groups)) by assumption.
    rewrite (bool_decide_eq_true_2 (g ∈ g :: groups)) by left.
    reflexivity.
  - rewrite (bool_decide_eq_false_2 (k = g)) by assumption. simpl.
    destruct (decide (k ∈ groups)) as [Hk|Hk].
    + rewrite (bool_decide_eq_true_2 _ Hk).
      rewrite (bool_decide_eq_true_2 (k ∈ g :: groups)) by now right.
      reflexivity.
    + rewrite (bool_decide_eq_false_2 _ Hk).
      rewrite (bool_decide_eq_false_2 (k ∈ g :: groups)); [reflexivity|].
      intros H'. apply elem_of_cons in H'. tauto.
Qed.

(** The group sizes add up to the number of rows. *)
Lemma group_sizes_sum (groups keys : list Cell) :
  NoDup groups -> (forall k, In k keys -> In k groups) ->
  sum_list (map (fun g => group_size g keys) groups) = List.length keys.
Proof.
  intros Hnd. induction keys as [|k keys IH]; intros Hin.
  - unfold group_size; simpl. clear Hnd Hin.
    induction groups as [|g groups IHg]; simpl; auto.
  - transitivity
      (sum_list (map (fun g => (if bool_decide (k = g) then 1 else 0)
                               + group_size g keys)%nat groups)).
    + f_equal. apply map_ext. intros g. unfold group_size; simpl.
      destruct (decide (k = g)) as [->|Hne].
      * now rewrite !bool_decide_eq_true_2.
      * now rewrite !bool_decide_eq_false_2.
    + rewrite sum_list_map_add, indicator_sum, IH by auto using in_cons.
      rewrite bool_decide_eq_true_2; [reflexivity|].
      apply list_elem_of_In, Hin. now left.
Qed.



Lemma table_get_map (f : TCol -> TCol) (h : string) (t : Table) :
  table_get h (map (fun '(c, col) => (c, f col)) t) =
  option_map f (table_get h t).
Proof.
  induction t as [|[c col] t IH]; simpl; [reflexivity|].
  destruct (String.eqb h c); [reflexivity|exact IH].
Qed.

Lemma row_keys_length (c : Column) : List.length (row_keys c) = col_length c.
Proof. destruct c; simpl; apply length_map. Qed.

(** What [sort_values_desc] does to a table whose columns all have the
    length of the sorting column: every column keeps its length and is
    permuted. *)
Lemma stable_insert_Permutation {A} (R : relation A)
    `{forall x y, Decision (R x y)} (x : A) (l : list A) :
  stable_insert R x l ≡ₚ x :: l.
Proof.
  induction l as [|y l IH]; simpl; [reflexivity|].
  destruct (decide (R x y)); [reflexivity|].
  rewrite IH. apply Permutation_swap.
Qed.

Lemma stable_sort_Permutation {A} (R : relation A)
    `{forall x y, Decision (R x y)} (l : list A) :
  stable_sort R l ≡ₚ l.
Proof.
  unfold stable_sort. induction l as [|x l IH]; simpl; [reflexivity|].
  now rewrite stable_insert_Permutation, IH.
Qed.

Lemma StronglySorted_stable_sort {A} (R : relation A)
    `{forall x y, Decision (R x y)} `{!Transitive R, !Total R} (l : list A) :
  StronglySorted R (stable_sort R l).
Proof.
  unfold stable_sort. induction l as [|x l IH]; simpl; [constructor|].
  induction IH as [|y l' Hs IH' Hall]; simpl; [repeat constructor|].
  destruct (decide (R x y)) as [Hxy|Hxy].
  - constructor; [now constructor|]. constructor; [exact Hxy|].
    eapply Forall_impl; [exact Hall|]. intros z Hz. now transitivity y.
  - constructor; [exact IH'|].
    rewrite stable_insert_Permutation. constructor; [|exact Hall].
    destruct (total R x y); [contradiction|assumption].
Qed.



Lemma table_set_count (col : string) (g r sz : TCol) :
  table_set "count" sz [(col, g); ("Default_%", r)] =
  if String.eqb "count" col then [(col, sz); ("Default_%", r)]
  else [(col, g); ("Default_%", r); ("count", sz)].
Proof.
  change (table_set "count" sz [(col, g); ("Default_%", r)])
    with (if String.eqb "count" col then [(col, sz); ("Default_%", r)]
          else (col, g) :: table_set "count" sz [("Default_%", r)]).
  reflexivity.
Qed.





(** C9.  When the outcome column or the requested grouping column is absent,
    [by_category_rate] raises nothing and returns a table with the headers
    [col], ["Default_%"], ["count"] and no row. *)
Theorem by_category_rate_missing (df : DataFrame) (col : string)
    (H : has_col TARGET df = false \/ has_col col df = false) :
  exists t, by_category_rate df col = Ok t /\
            map fst t = [col; "Default_%"; "count"] /\
            forall h v, In (h, v) t -> tcol_length v = 0%nat.
Proof.
  exists (empty_table [col; "Default_%"; "count"]). split; [|split].
  - unfold by_category_rate, has_col in *.
    destruct (df_get TARGET df), (df_get col df); try reflexivity;
      destruct H; discriminate.
  - reflexivity.
  - intros h v [Hin|[Hin|[Hin|[]]]]; injection Hin as _ <-; reflexivity.
Qed.

Lemma by_category_rate_missing_witness :
  let df := {| index := seq 0 2;
               columns := [("CODE_GENDER", ObjCol [Some "M"; Some "F"])] |} in
  has_col TARGET df = false /\
  exists t, by_category_rate df "CODE_GENDER" = Ok t /\
            map fst t = ["CODE_GENDER"; "Default_%"; "count"] /\
            forall h v, In (h, v) t -> tcol_length v = 0%nat.
Proof.
  intros df. split; [reflexivity|].
  exact (by_category_rate_missing df "CODE_GENDER" (or_introl eq_refl)).
Defined.

(** ** Correlation *)

Lemma numeric_columns_In (df : DataFrame) (c : string) (v : Series) :
  In (c, v) (numeric_columns df) <-> In (c, NumCol v) (columns df).
Proof.
  unfold numeric_columns. rewrite <- !list_elem_of_In, list_elem_of_omap.
  split.
  - intros ([c' col] & Hin & Heq). destruct col; simplify_eq. exact Hin.
  - intros Hin. exists (c, NumCol v). split; [exact Hin|reflexivity].
Qed.

Lemma compute_corr_labels pairwise_corr (df : DataFrame) (method : string) :
  labels (fst (compute_corr pairwise_corr df method)) =
  map fst (List.filter (fun '(c, v) => has_variance v) (numeric_columns df)).
Proof.
  unfold compute_corr.
  destruct (List.filter _ (numeric_columns df)); reflexivity.
Qed.

(** Every column of the matrix is a numeric column with more than two
    non-missing cells and a computed standard deviation above 0. *)
Lemma compute_corr_kept pairwise_corr (df : DataFrame) (method c : string) :
  In c (labels (fst (compute_corr pairwise_corr df method))) ->
  exists v, In (c, NumCol v) (columns df) /\
            (2 < List.length (dropna v))%nat /\
            F64.ltb F64.zero (std (dropna v)) = true.
Proof.
  rewrite compute_corr_labels, in_map_iff.
  intros ([c' v] & <- & Hin). apply (proj1 (filter_In _ _ _)) in Hin.
  destruct Hin as [Hin Hv]. exists v. split; [now apply numeric_columns_In|].
  unfold has_variance in Hv. apply andb_prop in Hv. destruct Hv as [Hn Hs].
  split; [now apply Nat.ltb_lt|exact Hs].
Qed.

(** When no column qualifies, the matrix and the outcome's correlations are
    both empty. *)
Lemma compute_corr_empty pairwise_corr (df : DataFrame) (method : string) :
  (forall c v, In (c, NumCol v) (columns df) -> has_variance v = false) ->
  compute_corr pairwise_corr df method =
    ({| labels := []; entries := [] |}, []).
Proof.
  intros H. unfold compute_corr.
  assert (List.filter (fun '(c, v) => has_variance v) (numeric_columns df) = [])
    as ->; [|reflexivity].
  destruct (List.filter _ _) as [|[c v] l] eqn:E; [reflexivity|].
  assert (In (c, v) (List.filter (fun '(c, v) => has_variance v)
                       (numeric_columns df))) as Hin by (rewrite E; now left).
  apply (proj1 (filter_In _ _ _)) in Hin. destruct Hin as [Hin Hv].
  apply (proj1 (numeric_columns_In _ _ _)) in Hin.
  rewrite (H c v Hin) in Hv. discriminate.
Qed.

(** *** Constant columns whose mean is computed exactly *)

Lemma dropna_repeat (x : float) (n : nat) :
  F64.is_nan x = false -> dropna (repeat x n) = repeat x n.
Proof.
  intros Hx. unfold dropna. induction n as [|n IH]; simpl; [reflexivity|].
  rewrite Hx. simpl. now rewrite IH.
Qed.

Lemma sub_self (x : float) :
  F64.is_zero (F64.sub x x) || F64.is_nan (F64.sub x x) = true.
Proof.
  destruct x as [[|]|[|]| |s m e]; try reflexivity.
  unfold F64.sub, SFsub. rewrite Z.sub_diag. reflexivity.
Qed.

Lemma mul_zero_or_nan (a : float) :
  F64.is_zero a || F64.is_nan a = true ->
  F64.mul a a = F64.zero \/ F64.mul a a = F64.nan.
Proof. destruct a as [[|]|[|]| |s m e]; try discriminate; auto. Qed.

Lemma sum_repeat_zero_or_nan (sq : float) (n : nat) :
  sq = F64.zero \/ sq = F64.nan ->
  sum (repeat sq n) = F64.zero \/ sum (repeat sq n) = F64.nan.
Proof.
  unfold sum. intros [->| ->].
  - left. induction n as [|n IH]; simpl; auto.
  - destruct n as [|n]; [now left|]. right. simpl.
    induction n as [|n IH]; simpl; auto.
Qed.

Lemma std_of_zero_or_nan (a b : float) :
  a = F64.zero \/ a = F64.nan ->
  F64.gtb (F64.sqrt (F64.div a b)) F64.zero = false.
Proof.
  intros [->| ->]; destruct b as [[|]|[|]| |[|] m e]; reflexivity.
Qed.

(** A constant column is left out of the matrix whenever its computed mean
    is the constant itself. *)
Lemma has_variance_exact_constant (x : float) (n : nat) :
  F64.div (sum (repeat x n)) (F64.of_Z (Z.of_nat n)) = x ->
  has_variance (repeat x n) = false.
Proof.
  intros Hmean. unfold has_variance.
  destruct (F64.is_nan x) eqn:Nx.
  - assert (dropna (repeat x n) = []) as ->; [|reflexivity].
    clear Hmean. unfold dropna.
    induction n as [|n IH]; simpl; [reflexivity|].
    rewrite Nx. exact IH.
  - rewrite dropna_repeat by assumption. rewrite repeat_length.
    apply andb_false_intro2. unfold std, var.
    rewrite dropna_repeat, repeat_length by assumption.
    destruct (Z.of_nat n <=? 1); [reflexivity|].
    rewrite Hmean. rewrite map_repeat.
    apply std_of_zero_or_nan, sum_repeat_zero_or_nan, mul_zero_or_nan, sub_self.
Qed.

Example constant_5_dropped :
  has_variance (repeat (F64.of_Z 5) 3) = false.
Proof. apply has_variance_exact_constant. vm_compute. reflexivity. Qed.

(** C6 fails on the code: a constant column of three cells 0.1 has zero
    variance, yet its computed mean is not 0.1 (the sum 0.1 + 0.1 + 0.1 is
    rounded), its computed standard deviation is about 1.7e-17 > 0, and
    [compute_corr] keeps it in the matrix. *)
Theorem compute_corr_keeps_constant_column
    (pairwise_corr : string -> Series -> Series -> float) (method : string) :
  let x := F64.lit 1 10 in
  let df := {| index := seq 0 3;
               columns := [("TARGET", NumCol (map F64.of_Z [0; 1; 0]));
                           ("RATE", NumCol [x; x; x])] |} in
  F64.valid x = true /\
  std [x; x; x] = S754_finite false 5515760546423086 (-108) /\
  labels (fst (compute_corr pairwise_corr df method)) = ["TARGET"; "RATE"].
Proof.
  intros x df. split; [vm_compute; reflexivity|].
  split; [vm_compute; reflexivity|].
  rewrite compute_corr_labels. vm_compute. reflexivity.
Qed.

(** ** Reasoning about the store *)

Lemma bind_run {A B} (m : M A) (f : A -> M B) (h : heap) :
  (m ≫= f) h = match m h with
               | (Ok a, h') => f a h'
               | (Raise e, h') => (Raise e, h')
               end.
Proof. reflexivity. Qed.

Lemma inv_bind {A B} (I : heap -> Prop) (m : M A) (f : A -> M B) :
  inv I m -> (forall a, inv I (f a)) -> inv I (m ≫= f).
Proof.
  intros Hm Hf h Hh. rewrite bind_run. specialize (Hm h Hh).
  destruct (m h) as [[a|e] h']; simpl in *; [now apply Hf|exact Hm].
Qed.

Lemma inv_pure {A} (I : heap -> Prop) (m : M A) :
  (forall h, snd (m h) = h) -> inv I m.
Proof. intros H h Hh. now rewrite H. Qed.

Lemma inv_ret {A} (I : heap -> Prop) (a : A) : inv I (mret a).
Proof. now apply inv_pure. Qed.

Lemma inv_raise {A} (I : heap -> Prop) (e : string) : inv I (@raise A e).
Proof. now apply inv_pure. Qed.

Lemma inv_lift {A} (I : heap -> Prop) (r : result A) : inv I (lift r).
Proof. now apply inv_pure. Qed.

Lemma inv_read (I : heap -> Prop) (l : loc) : inv I (read l).
Proof. apply inv_pure. intros h. unfold read. now destruct (h !! l). Qed.

Lemma inv_contains (I : heap -> Prop) (l : loc) (c : string) :
  inv I (contains l c).
Proof. apply inv_bind; [apply inv_read|intros; apply inv_ret]. Qed.

Lemma inv_get_col (I : heap -> Prop) (l : loc) (c : string) :
  inv I (get_col l c).
Proof.
  apply inv_bind; [apply inv_read|]. intros d.
  destruct (df_get c d); [apply inv_ret|apply inv_raise].
Qed.

Lemma inv_when (I : heap -> Prop) (b : bool) (m : M unit) :
  inv I m -> inv I (when b m).
Proof. intros H. destruct b; [exact H|apply inv_ret]. Qed.

Lemma inv_for_each {A} (I : heap -> Prop) (xs : list A) (body : A -> M unit) :
  (forall x, In x xs -> inv I (body x)) -> inv I (for_each xs body).
Proof.
  induction xs as [|x xs IH]; intros H; simpl; [apply inv_ret|].
  apply inv_bind; [apply H; now left|].
  intros _. apply IH. intros y Hy. apply H. now right.
Qed.

Lemma assoc_get_set_ne (c c' : string) (col : Column) l :
  c' <> c -> assoc_get c' (assoc_set c col l) = assoc_get c' l.
Proof.
  intros Hne. induction l as [|[k v] l IH]; cbn [assoc_set assoc_get].
  - now rewrite (proj2 (String.eqb_neq c' c)).
  - destruct (String.eqb c k) eqn:E; cbn [assoc_get].
    + apply String.eqb_eq in E. subst k.
      now rewrite (proj2 (String.eqb_neq c' c)).
    + destruct (String.eqb c' k); [reflexivity|exact IH].
Qed.

Lemma assoc_get_set_eq (c : string) (col : Column) l :
  assoc_get c (assoc_set c col l) = Some col.
Proof.
  induction l as [|[k v] l IH]; cbn [assoc_set assoc_get].
  - now rewrite String.eqb_refl.
  - destruct (String.eqb c k) eqn:E; cbn [assoc_get]; rewrite E;
      [reflexivity|exact IH].
Qed.

Lemma df_get_set_ne (c c' : string) (col : Column) (d : DataFrame) :
  c' <> c -> df_get c' (df_set c col d) = df_get c' d.
Proof. apply assoc_get_set_ne. Qed.

Lemma df_get_drop (c : string) (cs : list string) (d : DataFrame) :
  name_in c cs = false -> df_get c (df_drop cs d) = df_get c d.
Proof.
  intros Hc. unfold df_get, df_drop; simpl.
  induction (columns d) as [|[k v] l IH]; simpl; [reflexivity|].
  destruct (String.eqb c k) eqn:E.
  - apply String.eqb_eq in E. subst k. rewrite Hc. simpl.
    now rewrite String.eqb_refl.
  - destruct (name_in k cs); simpl; [exact IH|]. now rewrite E.
Qed.

Section Frame.

Context (l : loc) (keep : string -> bool) (I : heap -> Prop).
Hypothesis Hstable : stable l keep I.

Lemma inv_write_keeping (f : DataFrame -> DataFrame) :
  (forall d c, keep c = true -> df_get c (f d) = df_get c d) ->
  inv I (d ← read l; write l (f d)).
Proof.
  intros Hf h Hh. rewrite bind_run. unfold read, write.
  destruct (h !! l) as [d|] eqn:E; simpl; [|exact Hh].
  apply (Hstable h d (f d) Hh E). intros c Hc. now apply Hf.
Qed.

Lemma inv_set_col (c : string) (col : Column) :
  keep c = false -> inv I (set_col l c col).
Proof.
  intros Hc. apply inv_write_keeping. intros d c' Hc'.
  apply df_get_set_ne. congruence.
Qed.

Lemma inv_drop_inplace (cs : list string) :
  (forall c, keep c = true -> name_in c cs = false) ->
  inv I (drop_inplace l cs).
Proof.
  intros Hcs. apply inv_write_keeping. intros d c Hc.
  apply df_get_drop. now apply Hcs.
Qed.

End Frame.

(** ** The column lists never name the identifier or the outcome *)

Lemma filter_fst_unprotected (P : string * Column -> bool)
    (l : list (string * Column)) (c : string) :
  (forall k v, P (k, v) = true -> protected k = false) ->
  In c (map fst (List.filter P l)) -> protected c = false.
Proof.
  intros HP Hin. apply in_map_iff in Hin. destruct Hin as ([k v] & <- & Hin).
  apply (proj1 (filter_In _ _ _)) in Hin. destruct Hin as [_ Hin].
  now apply (HP k v).
Qed.

Lemma obj_cols_unprotected (d : DataFrame) (c : string) :
  In c (obj_cols d) -> protected c = false.
Proof.
  apply filter_fst_unprotected. intros k [v|v|cats v] H; try discriminate.
  now apply negb_true_iff.
Qed.

Lemma num_cols_unprotected (d : DataFrame) (c : string) :
  In c (num_cols d) -> protected c = false.
Proof.
  apply filter_fst_unprotected. intros k v H.
  apply andb_prop in H. now apply negb_true_iff.
Qed.

Lemma cat_cols_unprotected (d : DataFrame) (c : string) :
  In c (cat_cols d) -> protected c = false.
Proof.
  apply filter_fst_unprotected. intros k [v|v|cats v] H; try discriminate;
    now apply negb_true_iff.
Qed.

Lemma drop_cols_unprotected (t : list (string * float)) (c : string) :
  In c (drop_cols t) -> protected c = false.
Proof.
  unfold drop_cols. intros Hin. apply (proj1 (filter_In _ _ _)) in Hin.
  now apply negb_true_iff.
Qed.

Lemma winsor_fields_unprotected (d : DataFrame) (c : string) :
  In c (winsor_fields d) -> protected c = false.
Proof.
  unfold winsor_fields. intros Hin. apply (proj1 (filter_In _ _ _)) in Hin.
  destruct Hin as [Hin _].
  repeat (destruct Hin as [<-|Hin]; [reflexivity|]). destruct Hin.
Qed.

Lemma name_in_false (c : string) (cs : list string) :
  (forall k, In k cs -> k <> c) -> name_in c cs = false.
Proof.
  intros H. unfold name_in. apply not_true_is_false. intros Hex.
  apply existsb_exists in Hex. destruct Hex as (k & Hk & E).
  apply String.eqb_eq in E. now apply (H k).
Qed.

(** ** What the stages of the pipeline leave alone *)

Section Stages.

Context (float_repr : float -> string) (float_parse : string -> option float).
Context (l : loc) (keep : string -> bool) (I : heap -> Prop).
Hypothesis Hstable : stable l keep I.
Hypothesis Hkeep : forall c, keep c = true -> protected c = true.

Lemma keep_false (c : string) : protected c = false -> keep c = false.
Proof.
  intros Hc. destruct (keep c) eqn:E; [|reflexivity].
  apply Hkeep in E. congruence.
Qed.

Lemma inv_set_unprotected (c : string) (col : Column) :
  protected c = false -> inv I (set_col l c col).
Proof. intros Hc. apply (inv_set_col l keep I Hstable). now apply keep_false. Qed.

Lemma inv_cast_objects : inv I (cast_objects l).
Proof.
  apply inv_bind; [apply inv_read|]. intros d.
  apply inv_for_each. intros c Hc.
  apply inv_bind; [apply inv_get_col|]. intros col.
  apply inv_set_unprotected. now apply (obj_cols_unprotected d).
Qed.

Lemma inv_derive_ratio (c a b : string) :
  protected c = false -> inv I (derive_ratio l c a b).
Proof.
  intros Hc. unfold derive_ratio.
  apply inv_bind; [apply inv_contains|]. intros ha.
  apply inv_bind; [apply inv_contains|]. intros hb.
  apply inv_when.
  apply inv_bind; [apply inv_get_col|]. intros ca.
  apply inv_bind; [apply inv_get_col|]. intros cb.
  apply inv_bind; [apply inv_lift|]. intros numer.
  apply inv_bind; [apply inv_lift|]. intros denom.
  now apply inv_set_unprotected.
Qed.

Lemma inv_derive_features : inv I (derive_features l).
Proof.
  unfold derive_features.
  apply inv_bind; [apply inv_contains|]. intros b.
  apply inv_bind.
  { apply inv_when.
    apply inv_bind; [apply inv_get_col|]. intros col.
    apply inv_bind; [apply inv_lift|]. intros v.
    now apply inv_set_unprotected. }
  intros _. apply inv_bind; [apply inv_contains|]. intros b'.
  apply inv_bind.
  { apply inv_when.
    apply inv_bind; [apply inv_get_col|]. intros col.
    apply inv_bind; [now apply inv_set_unprotected|]. intros _.
    apply inv_bind; [apply inv_get_col|]. intros col'.
    apply inv_bind; [apply inv_lift|]. intros v.
    now apply inv_set_unprotected. }
  intros _. apply inv_bind; [now apply inv_derive_ratio|].
  intros _. apply inv_bind; [now apply inv_derive_ratio|].
  intros _. now apply inv_derive_ratio.
Qed.

Lemma inv_drop_missing : inv I (drop_missing l).
Proof.
  unfold drop_missing.
  apply inv_bind; [apply inv_read|]. intros d.
  apply inv_bind; [|intros; apply inv_ret].
  apply (inv_drop_inplace l keep I Hstable). intros c Hc.
  apply name_in_false. intros k Hk ->.
  apply drop_cols_unprotected in Hk. apply Hkeep in Hc. congruence.
Qed.

Lemma inv_impute (ncs ccs : list string) :
  (forall c, In c ncs -> protected c = false) ->
  (forall c, In c ccs -> protected c = false) ->
  inv I (impute float_repr l ncs ccs).
Proof.
  intros Hn Hc. unfold impute. apply inv_bind.
  - apply inv_for_each. intros c Hin.
    apply inv_bind; [apply inv_get_col|]. intros col. apply inv_when.
    destruct col; try apply inv_ret. apply inv_set_unprotected. now apply Hn.
  - intros _. apply inv_for_each. intros c Hin.
    apply inv_bind; [apply inv_get_col|]. intros col. apply inv_when.
    apply inv_bind; [apply inv_lift|]. intros filled.
    apply inv_set_unprotected. now apply Hc.
Qed.

Lemma inv_merge_rare_loop (cs : list string) :
  (forall c, In c cs -> protected c = false) ->
  inv I (merge_rare_loop float_repr l cs).
Proof.
  induction cs as [|c cs IH]; intros Hcs; cbn [merge_rare_loop];
    [apply inv_ret|].
  apply inv_bind; [apply inv_get_col|]. intros col.
  destruct (_merge_rare_levels (astype_string float_repr col) (F64.lit 1 100))
    as [merged mapping].
  apply inv_bind; [apply inv_set_unprotected, Hcs; now left|]. intros _.
  apply inv_bind; [apply IH; intros; apply Hcs; now right|].
  intros rest. apply inv_ret.
Qed.

Lemma inv_winsorize_loop (cs : list string) :
  (forall c, In c cs -> protected c = false) ->
  inv I (winsorize_loop float_parse l cs).
Proof.
  induction cs as [|c cs IH]; intros Hcs; cbn [winsorize_loop];
    [apply inv_ret|].
  apply inv_bind; [apply inv_get_col|]. intros col.
  apply inv_bind; [apply inv_lift|]. intros v.
  destruct (_winsorize v (F64.lit 1 100) (F64.lit 99 100))
    as [clipped params].
  apply inv_bind; [apply inv_set_unprotected, Hcs; now left|]. intros _.
  apply inv_bind; [apply IH; intros; apply Hcs; now right|].
  intros rest. apply inv_ret.
Qed.

Lemma inv_income_brackets : inv I (income_brackets l).
Proof.
  unfold income_brackets.
  apply inv_bind; [apply inv_contains|]. intros b. apply inv_when.
  apply inv_bind; [apply inv_get_col|]. intros col.
  apply inv_bind; [apply inv_lift|]. intros v.
  now apply inv_set_unprotected.
Qed.

(** Everything after the identifier cast. *)
Lemma inv_after_ids :
  inv I (cast_objects l;;
         derive_features l;;
         '(miss_tbl_before, drop_cols) ← drop_missing l;
         d ← read l;
         impute float_repr l (num_cols d) (cat_cols d);;
         rare_maps ← merge_rare_loop float_repr l (cat_cols d);
         d' ← read l;
         winsor_params ← winsorize_loop float_parse l (winsor_fields d');
         income_brackets l;;
         d'' ← read l;
         mret (l, {| dropped_cols := drop_cols;
                     winsor_params := winsor_params;
                     missingness_before := miss_tbl_before;
                     missingness_after := summarize_missingness d'';
                     rare_maps := rare_maps;
                     notes := pipeline_notes |})).
Proof.
  apply inv_bind; [apply inv_cast_objects|]. intros _.
  apply inv_bind; [apply inv_derive_features|]. intros _.
  apply inv_bind; [apply inv_drop_missing|]. intros [miss drop].
  apply inv_bind; [apply inv_read|]. intros d.
  apply inv_bind;
    [apply inv_impute; intros c;
       [apply num_cols_unprotected|apply cat_cols_unprotected]|].
  intros _.
  apply inv_bind; [apply inv_merge_rare_loop, cat_cols_unprotected|].
  intros rare.
  apply inv_bind; [apply inv_read|]. intros d'.
  apply inv_bind; [apply inv_winsorize_loop, winsor_fields_unprotected|].
  intros wp.
  apply inv_bind; [apply inv_income_brackets|]. intros _.
  apply inv_bind; [apply inv_read|]. intros d''. apply inv_ret.
Qed.

End Stages.

Lemma stable_obj_is (l l0 : loc) (keep : string -> bool) (D : option DataFrame) :
  l0 <> l -> stable l keep (obj_is l0 D).
Proof.
  intros Hne h d d' Hh _ _. unfold obj_is in *.
  rewrite lookup_insert_ne by congruence. exact Hh.
Qed.

Lemma stable_col_is (l : loc) (keep : string -> bool) (c : string)
    (X : option Column) :
  keep c = true -> stable l keep (col_is l c X).
Proof.
  intros Hc h d d' (d0 & Hd0 & HX) Hd Hkeep. exists d'.
  rewrite lookup_insert_eq. split; [reflexivity|].
  rewrite (Hkeep c Hc). congruence.
Qed.

Lemma inv_cast_ids float_repr (l : loc) (keep : string -> bool)
    (I : heap -> Prop) :
  stable l keep I -> (forall c, In c ID_COLS -> keep c = false) ->
  inv I (cast_ids float_repr l).
Proof.
  intros Hst Hk. unfold cast_ids. apply inv_for_each. intros c Hc.
  apply inv_bind; [apply inv_contains|]. intros b. apply inv_when.
  apply inv_bind; [apply inv_get_col|]. intros col.
  apply (inv_set_col l keep I Hst). now apply Hk.
Qed.

(** The identifier cast turns the identifier column into text and nothing
    else. *)
Lemma cast_ids_id_col float_repr (l : loc) (X : option Column) (h : heap) :
  col_is l "SK_ID_CURR" X h ->
  col_is l "SK_ID_CURR" (option_map (astype_str float_repr) X)
         (snd (cast_ids float_repr l h)).
Proof.
  intros (d & Hd & HX). unfold cast_ids, ID_COLS. cbn [for_each].
  rewrite !bind_run. unfold contains. rewrite bind_run. unfold read at 1.
  rewrite Hd. cbn [mret M_ret]. unfold has_col. rewrite HX.
  destruct X as [col|]; cbn [when option_map].
  - rewrite bind_run. unfold get_col. rewrite bind_run. unfold read at 1.
    rewrite Hd, HX. cbn [mret M_ret]. unfold set_col. rewrite bind_run.
    unfold read at 1. rewrite Hd. unfold write. cbn [snd].
    exists (df_set "SK_ID_CURR" (astype_str float_repr col) d).
    unfold mret, M_ret. cbn [snd].
    rewrite lookup_insert_eq. split; [reflexivity|].
    apply assoc_get_set_eq.
  - cbn [mret M_ret snd]. exists d. now split.
Qed.

Lemma returns_bind {A B} (m : M A) (f : A -> M B) (Q : B -> Prop) :
  (forall a, returns (f a) Q) -> returns (m ≫= f) Q.
Proof.
  intros Hf h b. rewrite bind_run.
  destruct (m h) as [[a|e] h'] eqn:E; [apply Hf|discriminate].
Qed.

Lemma returns_ret {A} (a : A) (Q : A -> Prop) : Q a -> returns (mret a) Q.
Proof. intros HQ h b Hb. injection Hb as <-. exact HQ. Qed.

Lemma preprocess_steps_returns float_repr float_parse (l : loc) :
  returns (preprocess_steps float_repr float_parse l) (fun r => fst r = l).
Proof.
  unfold preprocess_steps.
  do 3 (apply returns_bind; intros _).
  apply returns_bind; intros [miss drop].
  apply returns_bind; intros d.
  apply returns_bind; intros _.
  apply returns_bind; intros rare.
  apply returns_bind; intros d'.
  apply returns_bind; intros wp.
  apply returns_bind; intros _.
  apply returns_bind; intros d''.
  now apply returns_ret.
Qed.

Lemma returns_bind_with {A B} (m : M A) (f : A -> M B) (P : A -> Prop)
    (Q : B -> Prop) :
  returns m P -> (forall a, P a -> returns (f a) Q) -> returns (m ≫= f) Q.
Proof.
  intros Hm Hf h b. rewrite bind_run.
  destruct (m h) as [[a|e] h'] eqn:E; [|discriminate].
  apply Hf. apply (Hm h). now rewrite E.
Qed.

Lemma merge_rare_loop_keys float_repr (l : loc) (cs : list string) :
  returns (merge_rare_loop float_repr l cs) (fun r => map fst r = cs).
Proof.
  induction cs as [|c cs IH]; cbn [merge_rare_loop]; [now apply returns_ret|].
  apply returns_bind; intros col.
  destruct (_merge_rare_levels (astype_string float_repr col) (F64.lit 1 100))
    as [merged mapping].
  apply returns_bind; intros _.
  apply (returns_bind_with _ _ _ _ IH). intros rest Hrest.
  apply returns_ret. simpl. now rewrite Hrest.
Qed.

Lemma winsorize_loop_keys float_parse (l : loc) (cs : list string) :
  returns (winsorize_loop float_parse l cs) (fun r => map fst r = cs).
Proof.
  induction cs as [|c cs IH]; cbn [winsorize_loop]; [now apply returns_ret|].
  apply returns_bind; intros col.
  apply returns_bind; intros v.
  destruct (_winsorize v (F64.lit 1 100) (F64.lit 99 100)) as [clipped params].
  apply returns_bind; intros _.
  apply (returns_bind_with _ _ _ _ IH). intros rest Hrest.
  apply returns_ret. simpl. now rewrite Hrest.
Qed.

Lemma drop_missing_returns (l : loc) :
  returns (drop_missing l) (fun r => snd r = drop_cols (fst r)).
Proof.
  unfold drop_missing. apply returns_bind; intros d.
  apply returns_bind; intros _. now apply returns_ret.
Qed.

(** The columns the artifacts record as dropped, rare-merged or winsorized
    never include the identifier or the outcome. *)
Lemma preprocess_steps_artifacts float_repr float_parse (l : loc) :
  returns (preprocess_steps float_repr float_parse l)
    (fun r => forall c,
       In c (dropped_cols (snd r)) \/ In c (map fst (rare_maps (snd r))) \/
       In c (map fst (winsor_params (snd r))) ->
       protected c = false).
Proof.
  unfold preprocess_steps.
  do 3 (apply returns_bind; intros _).
  apply (returns_bind_with _ _ _ _ (drop_missing_returns l)).
  intros [miss drop] Hdrop. simpl in Hdrop.
  apply returns_bind; intros d.
  apply returns_bind; intros _.
  apply (returns_bind_with _ _ _ _ (merge_rare_loop_keys float_repr l _)).
  intros rare Hrare.
  apply returns_bind; intros d'.
  apply (returns_bind_with _ _ _ _ (winsorize_loop_keys float_parse l _)).
  intros wp Hwp.
  apply returns_bind; intros _.
  apply returns_bind; intros d''.
  apply returns_ret. simpl. intros c [Hc|[Hc|Hc]].
  - subst drop. now apply (drop_cols_unprotected miss).
  - rewrite Hrare in Hc. now apply (cat_cols_unprotected d).
  - rewrite Hwp in Hc. now apply (winsor_fields_unprotected d').
Qed.

Lemma inv_preprocess_steps float_repr float_parse (l : loc)
    (keep : string -> bool) (I : heap -> Prop) :
  stable l keep I ->
  (forall c, keep c = true -> protected c = true) ->
  (forall c, In c ID_COLS -> keep c = false) ->
  inv I (preprocess_steps float_repr float_parse l).
Proof.
  intros Hst Hk Hid. unfold preprocess_steps.
  apply inv_bind; [now apply (inv_cast_ids float_repr l keep)|].
  intros _. now apply (inv_after_ids float_repr float_parse l keep I).
Qed.

Lemma fresh_loc_ne (h : heap) (l0 : loc) (D : DataFrame) :
  h !! l0 = Some D -> l0 <> fresh (dom h).
Proof.
  intros H E. apply (is_fresh (dom h)). rewrite <- E.
  apply elem_of_dom. eauto.
Qed.

(** C10.  Running the pipeline leaves every dataframe that was in the store
    as it was, the caller's raw input in particular, whether the pipeline
    returns or raises: all its writes go to the copy made by its first
    line. *)
Theorem preprocess_leaves_raw_unchanged
    (float_repr : float -> string) (float_parse : string -> option float)
    (h : heap) (df l0 : loc) (D : DataFrame) (H : h !! l0 = Some D) :
  snd (preprocess_application_train float_repr float_parse df h) !! l0 = Some D.
Proof.
  unfold preprocess_application_train. rewrite bind_run. unfold df_copy.
  destruct (h !! df) as [raw|] eqn:Hraw; [|exact H].
  apply (inv_preprocess_steps float_repr float_parse (fresh (dom h))
           (fun _ => false) (obj_is l0 (Some D))).
  - apply stable_obj_is. now apply (fresh_loc_ne h l0 D).
  - discriminate.
  - reflexivity.
  - unfold obj_is. rewrite lookup_insert_ne; [exact H|].
    intros E. now apply (fresh_loc_ne h l0 D).
Qed.

Lemma preprocess_leaves_raw_unchanged_witness :
  let raw := {| index := seq 0 2;
                columns := [("TARGET", NumCol (map F64.of_Z [1; 0]));
                            ("CODE_GENDER", ObjCol [Some "M"; None])] |} in
  let h : heap := {[ 1%positive := raw ]} in
  h !! 1%positive = Some raw /\
  snd (preprocess_application_train (fun _ => "") (fun _ => None)
         1%positive h) !! 1%positive = Some raw.
Proof.
  intros raw h. split; [reflexivity|].
  exact (preprocess_leaves_raw_unchanged (fun _ => "") (fun _ => None) h
           1%positive 1%positive raw eq_refl).
Defined.

(** C8.  When the pipeline returns, the Cleaned Dataset has the outcome
    column exactly as the input had it (absent if it was absent, the same
    cells otherwise) and the identifier column as the input had it, cast to
    text; the lists of columns cast to categorical, imputed, rare-merged or
    winsorized never name the identifier or the outcome, and neither do the
    dropped, rare-merged and winsorized columns recorded in the
    artifacts. *)
Theorem preprocess_keeps_id_and_target
    (float_repr : float -> string) (float_parse : string -> option float)
    (h h' : heap) (df out : loc) (raw : DataFrame) (art : Artifacts)
    (Hraw : h !! df = Some raw)
    (Hrun : preprocess_application_train float_repr float_parse df h
            = (Ok (out, art), h')) :
  (exists clean, h' !! out = Some clean /\
     df_get TARGET_COL clean = df_get TARGET_COL raw /\
     df_get "SK_ID_CURR" clean =
       option_map (astype_str float_repr) (df_get "SK_ID_CURR" raw)) /\
  (forall d c, In c (obj_cols d) \/ In c (num_cols d) \/ In c (cat_cols d) \/
               In c (winsor_fields d) ->
               c <> TARGET_COL /\ c <> "SK_ID_CURR") /\
  (forall c, In c (dropped_cols art) \/ In c (map fst (rare_maps art)) \/
             In c (map fst (winsor_params art)) ->
             c <> TARGET_COL /\ c <> "SK_ID_CURR").
Proof.
  assert (forall c, protected c = false -> c <> TARGET_COL /\ c <> "SK_ID_CURR")
    as Hprot.
  { intros c Hc. split; intros ->; discriminate. }
  unfold preprocess_application_train in Hrun. rewrite bind_run in Hrun.
  unfold df_copy in Hrun. rewrite Hraw in Hrun.
  set (l := fresh (dom h)) in *. set (h1 := <[l := raw]> h) in *.
  assert (out = l) as ->.
  { apply (preprocess_steps_returns float_repr float_parse l h1 (out, art)).
    now rewrite Hrun. }
  split; [|split].
  - assert (col_is l TARGET_COL (df_get TARGET_COL raw) h') as HT.
    { replace h' with (snd (preprocess_steps float_repr float_parse l h1))
        by now rewrite Hrun.
      apply (inv_preprocess_steps float_repr float_parse l
               (fun c => String.eqb c TARGET_COL)).
      - now apply stable_col_is.
      - intros c Hc. unfold protected. rewrite Hc. apply orb_true_r.
      - intros c [<-|[]]. reflexivity.
      - exists raw. split; [apply lookup_insert_eq|reflexivity]. }
    assert (col_is l "SK_ID_CURR"
              (option_map (astype_str float_repr) (df_get "SK_ID_CURR" raw)) h')
      as HI.
    { unfold preprocess_steps in Hrun. rewrite bind_run in Hrun.
      pose proof (cast_ids_id_col float_repr l (df_get "SK_ID_CURR" raw) h1)
        as Hids.
      destruct (cast_ids float_repr l h1) as [[u|e] h2]; [|discriminate].
      simpl in Hids.
      match type of Hrun with
      | ?m h2 = _ => replace h' with (snd (m h2)) by now rewrite Hrun
      end.
      apply (inv_after_ids float_repr float_parse l protected).
      - now apply stable_col_is.
      - auto.
      - apply Hids. exists raw. split; [apply lookup_insert_eq|reflexivity]. }
    destruct HT as (clean & Hc & HT). destruct HI as (clean' & Hc' & HI).
    exists clean. split; [exact Hc|]. split; [exact HT|]. congruence.
  - intros d c [Hc|[Hc|[Hc|Hc]]]; apply Hprot;
      eauto using obj_cols_unprotected, num_cols_unprotected,
        cat_cols_unprotected, winsor_fields_unprotected.
  - intros c Hc. apply Hprot.
    apply (preprocess_steps_artifacts float_repr float_parse l h1 (l, art));
      [now rewrite Hrun|exact Hc].
Qed.

Lemma preprocess_keeps_id_and_target_witness :
  let raw := {| index := seq 0 3;
                columns := [("SK_ID_CURR", NumCol (map F64.of_Z [7; 8; 9]));
                            ("TARGET", NumCol (map F64.of_Z [1; 0; 0]));
                            ("CODE_GENDER", ObjCol [Some "M"; None; Some "F"])] |} in
  let h : heap := {[ 1%positive := raw ]} in
  h !! 1%positive = Some raw /\
  match preprocess_application_train (fun _ => "id") (fun _ => None)
          1%positive h with
  | (Ok (out, art), h') =>
      exists clean, h' !! out = Some clean /\
        df_get TARGET_COL clean = Some (NumCol (map F64.of_Z [1; 0; 0])) /\
        df_get "SK_ID_CURR" clean =
          Some (ObjCol [Some "id"; Some "id"; Some "id"])
  | (Raise _, _) => False
  end.
Proof.
  intros raw h. split; [reflexivity|].
  destruct (preprocess_application_train (fun _ => "id") (fun _ => None)
              1%positive h) as [[[out art]|e] h'] eqn:Hrun.
  - exact (proj1 (preprocess_keeps_id_and_target (fun _ => "id")
                    (fun _ => None) h h' 1%positive out raw art eq_refl Hrun)).
  - vm_compute in Hrun. discriminate Hrun.
Defined.

(** ** More on the order of binary64 *)

Lemma leb_lex (x y : float) :
  F64.leb x y = true <->
  F64.is_nan x = false /\ F64.is_nan y = false /\ lex_le (fkey x) (fkey y).
Proof.
  unfold F64.leb, SFleb.
  destruct x as [sx|[|]| |[|] mx ex], y as [sy|[|]| |[|] my ey]; simpl;
    try (split; [intros; repeat split; (discriminate || lia)
                | intros (? & ? & ?); (reflexivity || discriminate || lia)]).
  - (* negative, negative *)
    destruct (Z.compare_spec ex ey) as [->|Hlt|Hgt].
    + rewrite Pos.compare_cont_spec; simpl.
      destruct (Pos.compare_spec mx my) as [->|H|H]; simpl;
        (split; [intros; repeat split; (discriminate || lia)
                | intros (? & ? & ?); (reflexivity || discriminate || lia)]).
    + split; [discriminate|intros (? & ? & ?); lia].
    + split; [intros; repeat split; (discriminate || lia)|reflexivity].
  - (* positive, positive *)
    destruct (Z.compare_spec ex ey) as [->|Hlt|Hgt].
    + rewrite Pos.compare_cont_spec; simpl.
      destruct (Pos.compare_spec mx my) as [->|H|H]; simpl;
        (split; [intros; repeat split; (discriminate || lia)
                | intros (? & ? & ?); (reflexivity || discriminate || lia)]).
    + split; [intros; repeat split; (discriminate || lia)|reflexivity].
    + split; [discriminate|intros (? & ? & ?); lia].
Qed.

Lemma lex_le_trans (a b c : Z * Z * Z) :
  lex_le a b -> lex_le b c -> lex_le a c.
Proof.
  destruct a as [[a1 a2] a3], b as [[b1 b2] b3], c as [[c1 c2] c3].
  unfold lex_le. lia.
Qed.

Lemma lex_le_total (a b : Z * Z * Z) : lex_le a b \/ lex_le b a.
Proof.
  destruct a as [[a1 a2] a3], b as [[b1 b2] b3]. unfold lex_le. lia.
Qed.

Lemma leb_trans (x y z : float) :
  F64.leb x y = true -> F64.leb y z = true -> F64.leb x z = true.
Proof.
  rewrite !leb_lex. intros (Hx & Hy & H1) (_ & Hz & H2).
  repeat split; auto. now apply (lex_le_trans _ (fkey y)).
Qed.

Lemma leb_total (x y : float) :
  F64.is_nan x = false -> F64.is_nan y = false ->
  F64.leb x y = true \/ F64.leb y x = true.
Proof.
  intros Hx Hy. rewrite !leb_lex.
  destruct (lex_le_total (fkey x) (fkey y)); [left|right]; auto.
Qed.

Lemma ltb_false_leb (x y : float) :
  F64.is_nan x = false -> F64.is_nan y = false ->
  F64.ltb y x = false -> F64.leb x y = true.
Proof.
  intros Hx Hy H. destruct (leb_total x y Hx Hy) as [?|H']; [assumption|].
  revert H H'. unfold F64.ltb, F64.leb, SFltb, SFleb.
  rewrite (SFcompare_antisym y x).
  destruct (SFcompare y x) as [[| |]|]; simpl; congruence.
Qed.

Lemma dropna_In (v : Series) (x : float) :
  In x (dropna v) <-> In x v /\ F64.is_nan x = false.
Proof.
  unfold dropna. rewrite filter_In. now rewrite negb_true_iff.
Qed.

Lemma fold_min_spec (w : list float) (x0 : float) :
  F64.is_nan x0 = false -> (forall y, In y w -> F64.is_nan y = false) ->
  let m := fold_left (fun m y => if F64.ltb y m then y else m) w x0 in
  F64.is_nan m = false /\ In m (x0 :: w) /\
  F64.leb m x0 = true /\ forall y, In y w -> F64.leb m y = true.
Proof.
  revert x0; induction w as [|y w IH]; intros x0 Hx0 Hw; simpl.
  - repeat split; auto using leb_refl; try (intros y []).
  - assert (F64.is_nan y = false) as Hy by (apply Hw; now left).
    set (x1 := if F64.ltb y x0 then y else x0).
    assert (F64.is_nan x1 = false) as Hx1 by (unfold x1; now destruct (F64.ltb y x0)).
    assert (F64.leb x1 x0 = true /\ F64.leb x1 y = true) as [H10 H1y].
    { unfold x1. destruct (F64.ltb y x0) eqn:E.
      - split; [now apply ltb_leb|now apply leb_refl].
      - split; [now apply leb_refl|now apply ltb_false_leb]. }
    destruct (IH x1 Hx1 (fun z Hz => Hw z (or_intror Hz))) as (Hm & Hin & Hle & Hall).
    repeat split; auto.
    + destruct Hin as [<-|Hin]; [|now do 2 right].
      unfold x1. destruct (F64.ltb y x0); [right; now left|now left].
    + now apply (leb_trans _ x1).
    + intros z [<-|Hz]; [now apply (leb_trans _ x1)|now apply Hall].
Qed.

Lemma fold_max_spec (w : list float) (x0 : float) :
  F64.is_nan x0 = false -> (forall y, In y w -> F64.is_nan y = false) ->
  let m := fold_left (fun m y => if F64.ltb m y then y else m) w x0 in
  F64.is_nan m = false /\ In m (x0 :: w) /\
  F64.leb x0 m = true /\ forall y, In y w -> F64.leb y m = true.
Proof.
  revert x0; induction w as [|y w IH]; intros x0 Hx0 Hw; simpl.
  - repeat split; auto using leb_refl; try (intros y []).
  - assert (F64.is_nan y = false) as Hy by (apply Hw; now left).
    set (x1 := if F64.ltb x0 y then y else x0).
    assert (F64.is_nan x1 = false) as Hx1 by (unfold x1; now destruct (F64.ltb x0 y)).
    assert (F64.leb x0 x1 = true /\ F64.leb y x1 = true) as [H10 H1y].
    { unfold x1. destruct (F64.ltb x0 y) eqn:E.
      - split; [now apply ltb_leb|now apply leb_refl].
      - split; [now apply leb_refl|now apply ltb_false_leb]. }
    destruct (IH x1 Hx1 (fun z Hz => Hw z (or_intror Hz))) as (Hm & Hin & Hle & Hall).
    repeat split; auto.
    + destruct Hin as [<-|Hin]; [|now do 2 right].
      unfold x1. destruct (F64.ltb x0 y); [right; now left|now left].
    + now apply (leb_trans _ x1).
    + intros z [<-|Hz]; [now apply (leb_trans _ x1)|now apply Hall].
Qed.

(** The minimum and the maximum of a column bound its non-missing cells and
    are cells of it. *)
Lemma series_min_spec (v : Series) (x : float) :
  In x v -> F64.is_nan x = false ->
  In (series_min v) v /\ F64.is_nan (series_min v) = false /\
  F64.leb (series_min v) x = true.
Proof.
  intros Hx Nx. assert (In x (dropna v)) as Hd by now apply dropna_In.
  unfold series_min. destruct (dropna v) as [|x0 w] eqn:E; [destruct Hd|].
  assert (forall y, In y (x0 :: w) -> In y v /\ F64.is_nan y = false) as Hall.
  { intros y Hy. apply dropna_In. now rewrite E. }
  destruct (fold_min_spec w x0) as (Hm & Hin & Hle & Hw).
  { apply Hall. now left. }
  { intros y Hy. apply Hall. now right. }
  split; [now apply Hall|]. split; [exact Hm|].
  destruct Hd as [<-|Hd]; [exact Hle|now apply Hw].
Qed.

Lemma series_max_spec (v : Series) (x : float) :
  In x v -> F64.is_nan x = false ->
  In (series_max v) v /\ F64.is_nan (series_max v) = false /\
  F64.leb x (series_max v) = true.
Proof.
  intros Hx Nx. assert (In x (dropna v)) as Hd by now apply dropna_In.
  unfold series_max. destruct (dropna v) as [|x0 w] eqn:E; [destruct Hd|].
  assert (forall y, In y (x0 :: w) -> In y v /\ F64.is_nan y = false) as Hall.
  { intros y Hy. apply dropna_In. now rewrite E. }
  destruct (fold_max_spec w x0) as (Hm & Hin & Hle & Hw).
  { apply Hall. now left. }
  { intros y Hy. apply Hall. now right. }
  split; [now apply Hall|]. split; [exact Hm|].
  destruct Hd as [<-|Hd]; [exact Hle|now apply Hw].
Qed.

(** ** Canonical representations *)

Lemma digits_bounds (p : positive) :
  2 ^ (Z.pos (digits2_pos p) - 1) <= Z.pos p < 2 ^ Z.pos (digits2_pos p).
Proof.
  induction p as [p IH|p IH|]; cbn [digits2_pos].
  - rewrite Pos2Z.inj_succ, Z.pow_succ_r by lia.
    replace (Z.succ (Z.pos (digits2_pos p)) - 1)
      with (Z.succ (Z.pos (digits2_pos p) - 1)) by lia.
    rewrite Z.pow_succ_r by lia. lia.
  - rewrite Pos2Z.inj_succ, Z.pow_succ_r by lia.
    replace (Z.succ (Z.pos (digits2_pos p)) - 1)
      with (Z.succ (Z.pos (digits2_pos p) - 1)) by lia.
    rewrite Z.pow_succ_r by lia. lia.
  - simpl. lia.
Qed.

Lemma digits_le_53 (p : positive) :
  Z.pos p < 2 ^ 53 -> Z.pos (digits2_pos p) <= 53.
Proof.
  intros H. destruct (digits_bounds p) as [Hlo _].
  destruct (Z_le_gt_dec (Z.pos (digits2_pos p)) 53) as [?|Hgt]; [assumption|].
  assert (2 ^ 53 <= 2 ^ (Z.pos (digits2_pos p) - 1))
    by (apply Z.pow_le_mono_r; lia).
  lia.
Qed.

Lemma pos_iter_xO (q n : positive) :
  Z.pos (Pos.iter xO q n) = Z.pos q * 2 ^ Z.pos n /\
  digits2_pos (Pos.iter xO q n) = (digits2_pos q + n)%positive.
Proof.
  induction n as [|n IH] using Pos.peano_ind.
  - simpl. split; [lia|]. now rewrite Pos.add_1_r.
  - rewrite Pos.iter_succ. destruct IH as [IH1 IH2]. split.
    + rewrite Pos2Z.inj_xO, IH1, Pos2Z.inj_succ, Z.pow_succ_r by lia. lia.
    + cbn [digits2_pos]. rewrite IH2. lia.
Qed.

(** A canonical mantissa has at most 53 digits, and exactly 53 above the
    smallest exponent. *)
Lemma canonical_digits (m : positive) (e : Z) :
  canonical_mantissa F64.prec F64.emax m e = true ->
  Z.pos (digits2_pos m) <= 53 /\ -1074 <= e /\
  (-1074 < e -> Z.pos (digits2_pos m) = 53).
Proof.
  unfold canonical_mantissa, fexp, emin, F64.prec, F64.emax.
  intros H. apply Z.eqb_eq in H. lia.
Qed.

Lemma binary_round_aux_canonical (s : bool) (m : positive) (e : Z) :
  canonical_mantissa F64.prec F64.emax m e = true -> e <= 971 ->
  binary_round_aux F64.prec F64.emax s (Z.pos m) e loc_Exact = S754_finite s m e.
Proof.
  intros Hc He. unfold canonical_mantissa in Hc. apply Z.eqb_eq in Hc.
  unfold binary_round_aux, shr_fexp. cbn [Zdigits2 shr_record_of_loc].
  rewrite Hc, Z.sub_diag. cbn [shr shr_m loc_of_shr_record round_nearest_even].
  cbn [Zdigits2 shr_record_of_loc]. rewrite Hc, Z.sub_diag. cbn [shr shr_m].
  unfold F64.emax, F64.prec.
  replace (e <=? 1024 - 53) with true by (symmetry; apply Z.leb_le; lia).
  reflexivity.
Qed.

(** A non-zero integer of at most 53 digits converts exactly. *)
Lemma binary_round_int (s : bool) (q : positive) :
  Z.pos (digits2_pos q) <= 53 ->
  exists m', binary_round F64.prec F64.emax s q 0
             = S754_finite s m' (Z.pos (digits2_pos q) - 53) /\
             Z.pos m' = Z.pos q * 2 ^ (53 - Z.pos (digits2_pos q)) /\
             canonical_mantissa F64.prec F64.emax m'
               (Z.pos (digits2_pos q) - 53) = true.
Proof.
  intros Hd. set (d := Z.pos (digits2_pos q)) in *.
  assert (1 <= d) as Hd1 by (unfold d; lia).
  unfold binary_round. fold d.
  assert (fexp F64.prec F64.emax (d + 0) = d - 53) as Hf.
  { unfold fexp, emin, F64.prec, F64.emax. lia. }
  rewrite Hf. unfold shl_align.
  destruct (d - 53 - 0) as [|p|p] eqn:E; try lia.
  - (* d = 53 *)
    assert (d = 53) as Hd53 by lia.
    assert (canonical_mantissa F64.prec F64.emax q (d - 53) = true) as Hc.
    { unfold canonical_mantissa. fold d. apply Z.eqb_eq.
      unfold fexp, emin, F64.prec, F64.emax. lia. }
    exists q. rewrite Hd53 in *. simpl (53 - 53) in *.
    rewrite binary_round_aux_canonical by (auto; lia).
    split; [reflexivity|]. split; [simpl; lia|exact Hc].
  - (* d < 53 *)
    destruct (pos_iter_xO q p) as [Hv Hdg].
    assert (Z.pos p = 53 - d) as Hp by lia.
    assert (canonical_mantissa F64.prec F64.emax (Pos.iter xO q p) (d - 53)
            = true) as Hc.
    { unfold canonical_mantissa. rewrite Hdg, Pos2Z.inj_add. fold d.
      apply Z.eqb_eq. unfold fexp, emin, F64.prec, F64.emax. lia. }
    exists (Pos.iter xO q p).
    rewrite binary_round_aux_canonical by (auto; lia).
    split; [reflexivity|]. split; [now rewrite Hv, Hp|exact Hc].
Qed.

(** For canonical numbers of one sign, the order of the values decides the
    order of the (exponent, mantissa) pairs. *)
Lemma canonical_value_le (m1 m2 : positive) (e1 e2 : Z) :
  canonical_mantissa F64.prec F64.emax m1 e1 = true ->
  canonical_mantissa F64.prec F64.emax m2 e2 = true ->
  Z.pos m1 * 2 ^ (e1 - Z.min e1 e2) <= Z.pos m2 * 2 ^ (e2 - Z.min e1 e2) ->
  e1 < e2 \/ (e1 = e2 /\ Z.pos m1 <= Z.pos m2).
Proof.
  intros H1 H2 Hv.
  destruct (Z.lt_trichotomy e1 e2) as [Hlt|[->|Hgt]]; [now left| |].
  - right. split; [reflexivity|].
    rewrite Z.min_id, Z.sub_diag in Hv. simpl in Hv. lia.
  - exfalso.
    destruct (canonical_digits m1 e1 H1) as (_ & _ & Hn1).
    destruct (canonical_digits m2 e2 H2) as (Hd2 & He2 & _).
    pose proof (digits_bounds m1) as [Hlo1 _].
    pose proof (digits_bounds m2) as [_ Hhi2].
    rewrite Hn1 in Hlo1 by lia. simpl (53 - 1) in Hlo1.
    assert (Z.pos m2 < 2 ^ 53).
    { eapply Z.lt_le_trans; [exact Hhi2|]. apply Z.pow_le_mono_r; lia. }
    rewrite Z.min_r in Hv by lia. rewrite Z.sub_diag in Hv.
    assert (2 ^ 1 <= 2 ^ (e1 - e2)) by (apply Z.pow_le_mono_r; lia).
    change (2 ^ 0) with 1 in Hv. change (2 ^ 1) with 2 in *.
    change (2 ^ 52) with 4503599627370496 in Hlo1.
    change (2 ^ 53) with 9007199254740992 in *.
    nia.
Qed.

(** ** Floor and ceiling *)

Lemma of_Z_pos (q : positive) :
  F64.of_Z (Z.pos q) = binary_round F64.prec F64.emax false q 0.
Proof. reflexivity. Qed.

Lemma of_Z_neg (q : positive) :
  F64.of_Z (Z.neg q) = binary_round F64.prec F64.emax true q 0.
Proof. reflexivity. Qed.

Lemma scaled_le (q m' m d e : Z) :
  1 <= d <= 53 -> e < 0 ->
  m' = q * 2 ^ (53 - d) -> q * 2 ^ (- e) <= m ->
  m' * 2 ^ (d - 53 - Z.min (d - 53) e) <= m * 2 ^ (e - Z.min (d - 53) e).
Proof.
  intros Hd He -> Hq. set (E := Z.min (d - 53) e).
  assert (E <= d - 53 /\ E <= e) as [HE1 HE2] by (unfold E; lia).
  rewrite <- Z.mul_assoc, <- Z.pow_add_r by lia.
  replace (53 - d + (d - 53 - E)) with (- e + (e - E)) by lia.
  rewrite Z.pow_add_r by lia. rewrite Z.mul_assoc.
  apply Z.mul_le_mono_nonneg_r; [apply Z.pow_nonneg; lia|exact Hq].
Qed.

Lemma scaled_ge (q m' m d e : Z) :
  1 <= d <= 53 -> e < 0 ->
  m' = q * 2 ^ (53 - d) -> m <= q * 2 ^ (- e) ->
  m * 2 ^ (e - Z.min e (d - 53)) <= m' * 2 ^ (d - 53 - Z.min e (d - 53)).
Proof.
  intros Hd He -> Hq. set (E := Z.min e (d - 53)).
  assert (E <= d - 53 /\ E <= e) as [HE1 HE2] by (unfold E; lia).
  rewrite <- (Z.mul_assoc q), <- Z.pow_add_r by lia.
  replace (53 - d + (d - 53 - E)) with (- e + (e - E)) by lia.
  rewrite Z.pow_add_r by lia. rewrite Z.mul_assoc.
  apply Z.mul_le_mono_nonneg_r; [apply Z.pow_nonneg; lia|exact Hq].
Qed.

(** The floor of a number is at most the number. *)
Lemma np_floor_le (x : float) :
  F64.valid x = true -> F64.is_nan x = false ->
  F64.leb (np_floor x) x = true.
Proof.
  intros Hv Hn. destruct x as [s|s| |s m e]; try discriminate;
    try (now apply leb_refl).
  unfold np_floor. destruct (0 <=? e) eqn:He; [now apply leb_refl|].
  apply Z.leb_gt in He.
  unfold F64.valid, valid_binary, bounded in Hv.
  apply andb_prop in Hv. destruct Hv as [Hc _].
  destruct (canonical_digits m e Hc) as (Hd & _ & _).
  pose proof (digits_bounds m) as [_ Hm].
  assert (Z.pos m < 2 ^ 53) as Hm53.
  { eapply Z.lt_le_trans; [exact Hm|]. apply Z.pow_le_mono_r; lia. }
  assert (0 < 2 ^ (- e)) as Hp by (apply Z.pow_pos_nonneg; lia).
  unfold F64.floor. replace (0 <=? e) with false by (symmetry; apply Z.leb_gt; lia).
  destruct s.
  - (* negative *)
    pose proof (Z.mul_div_le (Z.neg m) (2 ^ (- e)) Hp) as Hq.
    assert (Z.neg m / 2 ^ (- e) < 0) as Hneg
      by (apply Z.div_lt_upper_bound; lia).
    assert (Z.neg m <= Z.neg m / 2 ^ (- e)) as Hge.
    { apply Z.div_le_lower_bound; [lia|]. nia. }
    destruct (Z.neg m / 2 ^ (- e)) as [|q|q] eqn:Eq; try lia.
    rewrite of_Z_neg.
    assert (Z.pos (digits2_pos q) <= 53) as Hdq by (apply digits_le_53; lia).
    destruct (binary_round_int true q Hdq) as (m' & -> & Hm' & Hc').
    apply leb_lex. split; [reflexivity|]. split; [reflexivity|].
    assert (e < Z.pos (digits2_pos q) - 53 \/
            (e = Z.pos (digits2_pos q) - 53 /\ Z.pos m <= Z.pos m')) as Hlex.
    { apply canonical_value_le; auto.
      apply (scaled_ge (Z.pos q)); auto; lia. }
    simpl. lia.
  - (* positive *)
    pose proof (Z.mul_div_le (Z.pos m) (2 ^ (- e)) Hp) as Hq.
    assert (0 <= Z.pos m / 2 ^ (- e)) as Hnn by (apply Z.div_pos; lia).
    assert (Z.pos m / 2 ^ (- e) <= Z.pos m) as Hle.
    { apply Z.div_le_upper_bound; [lia|]. nia. }
    destruct (Z.pos m / 2 ^ (- e)) as [|q|q] eqn:Eq; try lia.
    + reflexivity.
    + rewrite of_Z_pos.
      assert (Z.pos (digits2_pos q) <= 53) as Hdq by (apply digits_le_53; lia).
      destruct (binary_round_int false q Hdq) as (m' & -> & Hm' & Hc').
      apply leb_lex. split; [reflexivity|]. split; [reflexivity|].
      assert (Z.pos (digits2_pos q) - 53 < e \/
              (Z.pos (digits2_pos q) - 53 = e /\ Z.pos m' <= Z.pos m)) as Hlex.
      { apply canonical_value_le; auto.
        apply (scaled_le (Z.pos q)); auto; lia. }
      simpl. lia.
Qed.

Lemma leb_neg (a b : float) :
  F64.leb a b = true -> F64.leb (F64.neg b) (F64.neg a) = true.
Proof.
  rewrite !leb_lex. intros (Ha & Hb & H).
  destruct a as [sa|[|]| |[|] ma ea], b as [sb|[|]| |[|] mb eb];
    try discriminate; simpl in *; repeat split; lia.
Qed.

Lemma neg_involutive (x : float) : F64.neg (F64.neg x) = x.
Proof. destruct x as [s|s| |s m e]; simpl; now rewrite ?negb_involutive. Qed.

Lemma np_ceil_ge (x : float) :
  F64.valid x = true -> F64.is_nan x = false ->
  F64.leb x (np_ceil x) = true.
Proof.
  intros Hv Hn. unfold np_ceil.
  rewrite <- (neg_involutive x) at 1. apply leb_neg. apply np_floor_le.
  - destruct x; simpl in *; auto.
  - destruct x; simpl in *; auto.
Qed.

(** With the slider at its default, every non-missing cell of a column of
    valid doubles lies between the floored minimum and the ceiled maximum. *)
Lemma default_range_covers (v : Series) (x : float) :
  (forall y, In y v -> F64.valid y = true) ->
  In x v -> F64.is_nan x = false ->
  F64.geb x (np_floor (series_min v)) && F64.leb x (np_ceil (series_max v))
  = true.
Proof.
  intros Hv Hx Nx.
  destruct (series_min_spec v x Hx Nx) as (Hmin & Nmin & Lmin).
  destruct (series_max_spec v x Hx Nx) as (Hmax & Nmax & Lmax).
  apply andb_true_intro. split.
  - unfold F64.geb. fold (F64.leb (np_floor (series_min v)) x).
    apply (leb_trans _ (series_min v)); [|exact Lmin].
    apply np_floor_le; auto.
  - apply (leb_trans _ (series_max v)); [exact Lmax|].
    apply np_ceil_ge; auto.
Qed.

(** ** Filter engine *)

Lemma mask_filter_all_true {A} (mask : list bool) (l : list A) :
  (forall b, In b mask -> b = true) -> List.length mask = List.length l ->
  mask_filter mask l = l.
Proof.
  revert l; induction mask as [|b mask IH]; intros [|x l] Hall Hlen;
    simpl in *; try discriminate; [reflexivity|].
  rewrite (Hall b) by now left. f_equal. apply IH; [|lia].
  intros b' Hb'. apply Hall. now right.
Qed.

Lemma df_mask_all_true (mask : list bool) (df : DataFrame) :
  (forall c col, In (c, col) (columns df) -> col_length col = df_len df) ->
  (forall b, In b mask -> b = true) -> List.length mask = df_len df ->
  df_mask mask df = df.
Proof.
  intros Hwf Hall Hlen. destruct df as [idx cols]. unfold df_mask; simpl in *.
  f_equal; [now apply mask_filter_all_true|].
  unfold df_len in *; simpl in *.
  induction cols as [|[c col] cols IH]; simpl; [reflexivity|].
  f_equal.
  - f_equal. assert (col_length col = List.length idx) as Hc
      by (apply (Hwf c); now left).
    destruct col; simpl in *; f_equal; apply mask_filter_all_true; auto; lia.
  - apply IH. intros c' col' Hin. apply (Hwf c'). now right.
Qed.

Lemma df_get_In (c : string) (col : Column) (df : DataFrame) :
  df_get c df = Some col -> In (c, col) (columns df).
Proof.
  unfold df_get. induction (columns df) as [|[k v] l IH]; simpl; [discriminate|].
  destruct (String.eqb c k) eqn:E.
  - apply String.eqb_eq in E. subst k. intros H. injection H as ->. now left.
  - intros H. right. now apply IH.
Qed.

Lemma has_missing_row_keys (c : Column) (k : Cell) :
  has_missing c = false -> In k (row_keys c) -> k <> CNA.
Proof.
  unfold has_missing. intros H Hk ->.
  assert (existsb id (isna c) = true); [|congruence].
  apply existsb_exists. exists true. split; [|reflexivity].
  destruct c as [v|v|cats v]; simpl in *; apply in_map_iff in Hk;
    destruct Hk as (x & Hx & Hin); apply in_map_iff; exists x;
    (split; [|exact Hin]).
  - unfold num_key in Hx. destruct (F64.is_nan x); [reflexivity|discriminate].
  - destruct x; [discriminate|reflexivity].
  - destruct x; [discriminate|reflexivity].
Qed.

Lemma unique_values_In (c : Column) (k : Cell) :
  In k (unique_values c) <-> In k (row_keys c) /\ k <> CNA.
Proof.
  unfold unique_values.
  rewrite <- list_elem_of_In, elem_of_remove_dups, list_elem_of_In, filter_In.
  rewrite negb_true_iff, bool_decide_eq_false. reflexivity.
Qed.

Lemma sorted_unique_In (c : Column) (k : Cell) :
  k ∈ sorted_unique c <-> In k (row_keys c) /\ k <> CNA.
Proof.
  unfold sorted_unique. rewrite merge_sort_Permutation, list_elem_of_In.
  apply unique_values_In.
Qed.

Lemma isin_length (sel : list Cell) (c : Column) :
  List.length (isin sel c) = col_length c.
Proof. unfold isin. now rewrite length_map, row_keys_length. Qed.

Lemma isin_all_true (sel : list Cell) (c : Column) :
  (forall k, In k (row_keys c) -> k ∈ sel) ->
  forall b, In b (isin sel c) -> b = true.
Proof.
  intros H b Hb. unfold isin in Hb. apply in_map_iff in Hb.
  destruct Hb as (k & <- & Hk). apply bool_decide_eq_true_2. now apply H.
Qed.

Lemma categorical_filter_default (label col : string) (df : DataFrame)
    (vals : Values) :
  (forall c col, In (c, col) (columns df) -> col_length col = df_len df) ->
  (forall c, df_get col df = Some c -> has_missing c = false) ->
  exists vals', categorical_filter default_sidebar label col (df, vals)
                = (df, vals').
Proof.
  intros Hwf Hm. unfold categorical_filter.
  destruct (df_get col df) as [c|] eqn:E; [|eauto].
  cbn [multiselect default_sidebar].
  destruct (sorted_unique c) as [|k0 sel] eqn:Es; [eauto|].
  rewrite <- Es. eexists. f_equal. apply df_mask_all_true; auto.
  - apply isin_all_true. intros k Hk. apply sorted_unique_In.
    split; [exact Hk|]. apply (has_missing_row_keys c); auto.
  - rewrite isin_length. apply (Hwf col). now apply df_get_In.
Qed.

Lemma income_bracket_filter_default (df : DataFrame) (vals : Values) :
  (forall c col, In (c, col) (columns df) -> col_length col = df_len df) ->
  (forall c, df_get "INCOME_BRACKET" df = Some c ->
             forall k, In k (row_keys c) ->
                       In k [CStr "Low"; CStr "Mid"; CStr "High"]) ->
  exists vals', income_bracket_filter default_sidebar (df, vals) = (df, vals').
Proof.
  intros Hwf Hb. unfold income_bracket_filter.
  destruct (df_get "INCOME_BRACKET" df) as [c|] eqn:E; [|eauto].
  cbn [multiselect default_sidebar].
  set (present := List.filter _ _).
  destruct present as [|k0 sel] eqn:Es; [eauto|].
  rewrite <- Es. eexists. f_equal. apply df_mask_all_true; auto.
  - apply isin_all_true. intros k Hk. apply list_elem_of_In.
    unfold present. apply filter_In. split; [now apply (Hb c)|].
    apply bool_decide_eq_true_2, list_elem_of_In, unique_values_In.
    split; [exact Hk|]. intros ->.
    destruct (Hb c eq_refl CNA Hk) as [?|[?|[?|[]]]]; discriminate.
  - rewrite isin_length. apply (Hwf "INCOME_BRACKET"). now apply df_get_In.
Qed.

Lemma range_slider_default (label : string) (lo hi : float) :
  F64.ltb lo hi = true -> F64.is_inf lo = false -> F64.is_inf hi = false ->
  range_slider default_sidebar label lo hi = Ok (lo, hi).
Proof.
  intros H Hlo Hhi. unfold range_slider. rewrite Hlo, Hhi.
  destruct (F64.geb lo hi) eqn:E; [|reflexivity].
  apply leb_ltb_false in E. congruence.
Qed.

Lemma np_floor_not_inf (x : float) :
  F64.valid x = true -> F64.is_inf x = false ->
  F64.is_inf (np_floor x) = false.
Proof.
  intros Hv Hi. destruct x as [s|s| |s m e]; try discriminate;
    try reflexivity.
  unfold np_floor. destruct (0 <=? e) eqn:He; [reflexivity|].
  apply Z.leb_gt in He.
  unfold F64.valid, valid_binary, bounded in Hv.
  apply andb_prop in Hv. destruct Hv as [Hc _].
  destruct (canonical_digits m e Hc) as (Hd & _ & _).
  pose proof (digits_bounds m) as [_ Hm].
  assert (Z.pos m < 2 ^ 53) as Hm53.
  { eapply Z.lt_le_trans; [exact Hm|]. apply Z.pow_le_mono_r; lia. }
  assert (0 < 2 ^ (- e)) as Hp by (apply Z.pow_pos_nonneg; lia).
  unfold F64.floor.
  replace (0 <=? e) with false by (symmetry; apply Z.leb_gt; lia).
  destruct s.
  - assert (Z.neg m <= Z.neg m / 2 ^ (- e)) as Hge.
    { apply Z.div_le_lower_bound; [lia|]. nia. }
    assert (Z.neg m / 2 ^ (- e) < 0) as Hneg
      by (apply Z.div_lt_upper_bound; lia).
    destruct (Z.neg m / 2 ^ (- e)) as [|q|q] eqn:Eq; try lia.
    rewrite of_Z_neg.
    assert (Z.pos (digits2_pos q) <= 53) as Hdq by (apply digits_le_53; lia).
    now destruct (binary_round_int true q Hdq) as (m' & -> & _).
  - assert (0 <= Z.pos m / 2 ^ (- e)) as Hnn by (apply Z.div_pos; lia).
    assert (Z.pos m / 2 ^ (- e) <= Z.pos m) as Hle.
    { apply Z.div_le_upper_bound; [lia|]. nia. }
    destruct (Z.pos m / 2 ^ (- e)) as [|q|q] eqn:Eq; try lia.
    + reflexivity.
    + rewrite of_Z_pos.
      assert (Z.pos (digits2_pos q) <= 53) as Hdq by (apply digits_le_53; lia).
      now destruct (binary_round_int false q Hdq) as (m' & -> & _).
Qed.

Lemma np_ceil_not_inf (x : float) :
  F64.valid x = true -> F64.is_inf x = false ->
  F64.is_inf (np_ceil x) = false.
Proof.
  intros Hv Hi. unfold np_ceil.
  assert (F64.is_inf (np_floor (F64.neg x)) = false) as H.
  { apply np_floor_not_inf; destruct x; simpl in *; auto. }
  now destruct (np_floor (F64.neg x)).
Qed.

Lemma range_bounds_not_inf (v : Series) :
  valid_series v -> finite_series v ->
  F64.ltb (np_floor (series_min v)) (np_ceil (series_max v)) = true ->
  F64.is_inf (np_floor (series_min v)) = false /\
  F64.is_inf (np_ceil (series_max v)) = false.
Proof.
  intros Hv Hf Hlt.
  destruct (dropna v) as [|x w] eqn:Ed.
  { unfold series_min in Hlt. rewrite Ed in Hlt. discriminate Hlt. }
  assert (In x v /\ F64.is_nan x = false) as [Hx Nx]
    by (apply dropna_In; rewrite Ed; now left).
  destruct (series_min_spec v x Hx Nx) as (Hmin & _ & _).
  destruct (series_max_spec v x Hx Nx) as (Hmax & _ & _).
  split; [apply np_floor_not_inf|apply np_ceil_not_inf]; auto.
Qed.

Lemma age_filter_default (df : DataFrame) (vals : Values) :
  (forall c col, In (c, col) (columns df) -> col_length col = df_len df) ->
  (forall col, df_get "AGE_YEARS" df = Some col ->
               exists v, col = NumCol v /\ has_missing col = false /\
                         valid_series v /\ finite_series v /\
                         F64.ltb (np_floor (series_min v))
                                 (np_ceil (series_max v)) = true) ->
  exists vals', age_filter default_sidebar (df, vals) = Ok (df, vals').
Proof.
  intros Hwf Ha. unfold age_filter.
  destruct (df_get "AGE_YEARS" df) as [c|] eqn:E; [|eauto].
  destruct (Ha c eq_refl) as (v & -> & Hm & Hv & Hf & Hlt).
  cbn [numeric_view mbind result_bind].
  destruct (range_bounds_not_inf v Hv Hf Hlt) as [Hlo Hhi].
  rewrite (range_slider_default _ _ _ Hlt Hlo Hhi).
  cbn [mbind result_bind fst snd].
  eexists. do 2 f_equal. apply df_mask_all_true; auto.
  - intros b Hb. unfold between in Hb. apply in_map_iff in Hb.
    destruct Hb as (x & <- & Hx). apply default_range_covers; auto.
    destruct (F64.is_nan x) eqn:Nx; [|reflexivity].
    unfold has_missing in Hm. simpl in Hm.
    assert (existsb id (map F64.is_nan v) = true); [|congruence].
    apply existsb_exists. exists true. split; [|reflexivity].
    apply in_map_iff. eauto.
  - unfold between. rewrite length_map.
    apply (Hwf "AGE_YEARS" (NumCol v)). now apply df_get_In.
Qed.

Lemma combine_map_same {A B C} (f : A -> B) (g : A -> C) (l : list A) :
  combine (map f l) (map g l) = map (fun x => (f x, g x)) l.
Proof. induction l as [|x l IH]; simpl; [reflexivity|now rewrite IH]. Qed.

Lemma employment_filter_default (df : DataFrame) (vals : Values) :
  (forall c col, In (c, col) (columns df) -> col_length col = df_len df) ->
  (forall col, df_get "EMPLOYMENT_YEARS" df = Some col ->
               exists v, col = NumCol v /\ valid_series v /\
                         finite_series v /\
                         F64.ltb (np_floor (series_min v))
                                 (np_ceil (series_max v)) = true) ->
  exists vals', employment_filter default_sidebar (df, vals) = Ok (df, vals').
Proof.
  intros Hwf He. unfold employment_filter.
  destruct (df_get "EMPLOYMENT_YEARS" df) as [c|] eqn:E; [|eauto].
  destruct (He c eq_refl) as (v & -> & Hv & Hf & Hlt).
  destruct (range_bounds_not_inf v Hv Hf Hlt) as [Hlo Hhi].
  cbn [numeric_view mbind result_bind isna].
  assert (match dropna v with
          | [] => (F64.zero, F64.zero)
          | _ => (np_floor (series_min v), np_ceil (series_max v))
          end = (np_floor (series_min v), np_ceil (series_max v))) as ->.
  { destruct (dropna v) eqn:Ed; [|reflexivity]. exfalso.
    unfold series_min in Hlt. rewrite Ed in Hlt. discriminate Hlt. }
  rewrite (range_slider_default _ _ _ Hlt Hlo Hhi).
  cbn [checkbox default_sidebar fst snd mbind result_bind].
  eexists. do 2 f_equal. apply df_mask_all_true; auto.
  - unfold between. rewrite combine_map_same, map_map. intros b Hb.
    apply in_map_iff in Hb. destruct Hb as (x & <- & Hx). simpl.
    destruct (F64.is_nan x) eqn:Nx; [apply orb_true_r|].
    rewrite orb_false_r. now apply default_range_covers.
  - unfold between. rewrite combine_map_same, !length_map.
    apply (Hwf "EMPLOYMENT_YEARS" (NumCol v)). now apply df_get_In.
Qed.

(** C4 (amended).  On a dataset that is ready for the filters (no missing
    cell in the four categorical filter columns, a numeric age without
    missing cell, income brackets among Low, Mid and High, a numeric
    employment tenure, and for each of the two range columns a floored
    minimum below the ceiled maximum, so that the slider has room; see
    [filter_ready]), the filter engine with every widget left at its default
    returns the input dataframe itself: the same rows and the same
    content. *)
Theorem get_filtered_df_default_identity (df : DataFrame)
    (section_title : string) (show_reset_button : bool)
    (Hready : filter_ready df) :
  exists values,
    get_filtered_df default_sidebar df section_title show_reset_button
    = Ok (df, values).
Proof.
  destruct Hready as (Hwf & Hcat & Hage & Hinc & Hemp).
  assert (forall label col vals, In col categorical_filter_cols ->
            exists vals', categorical_filter default_sidebar label col (df, vals)
                          = (df, vals')) as Hstep.
  { intros label col vals Hin. apply categorical_filter_default; auto.
    intros c. now apply Hcat. }
  unfold get_filtered_df. cbv zeta.
  destruct (Hstep "Gender" "CODE_GENDER" []) as (v1 & ->);
    [now left|].
  destruct (Hstep "Education" "NAME_EDUCATION_TYPE" v1) as (v2 & ->);
    [right; now left|].
  destruct (Hstep "Family Status" "NAME_FAMILY_STATUS" v2) as (v3 & ->);
    [do 2 right; now left|].
  destruct (Hstep "Housing Type" "NAME_HOUSING_TYPE" v3) as (v4 & ->);
    [do 3 right; now left|].
  destruct (age_filter_default df v4 Hwf Hage) as (v5 & ->).
  cbn [mbind result_bind].
  destruct (income_bracket_filter_default df v5 Hwf Hinc) as (v6 & ->).
  destruct (employment_filter_default df v6 Hwf Hemp) as (v7 & ->).
  cbn [mbind result_bind button default_sidebar].
  rewrite andb_false_r. eauto.
Qed.

Lemma get_filtered_df_default_identity_witness :
  let df := {| index := seq 0 2;
               columns :=
                 [("CODE_GENDER", CatCol ["F"; "M"] [Some "M"; Some "F"]);
                  ("AGE_YEARS", NumCol [F64.lit 51 2; F64.lit 161 4]);
                  ("INCOME_BRACKET",
                   CatCol ["High"; "Low"] [Some "Low"; Some "High"]);
                  ("EMPLOYMENT_YEARS", NumCol [F64.nan; F64.lit 7 2])] |} in
  filter_ready df /\
  exists values, get_filtered_df default_sidebar df "Global Filters" true
                 = Ok (df, values).
Proof.
  intros df.
  assert (filter_ready df) as Hready.
  { split; [|split; [|split; [|split]]].
    - intros c col [H|[H|[H|[H|[]]]]]; injection H as <- <-; reflexivity.
    - intros c col Hin Hget.
      destruct Hin as [<-|[<-|[<-|[<-|[]]]]]; vm_compute in Hget;
        try discriminate Hget; injection Hget as <-; reflexivity.
    - intros col Hget. vm_compute in Hget. injection Hget as <-.
      eexists. split; [reflexivity|]. split; [reflexivity|].
      split; [|split; [|vm_compute; reflexivity]];
        intros y [<-|[<-|[]]]; reflexivity.
    - intros col Hget. vm_compute in Hget. injection Hget as <-.
      intros k [<-|[<-|[]]]; simpl; auto.
    - intros col Hget. vm_compute in Hget. injection Hget as <-.
      eexists. split; [reflexivity|].
      split; [|split; [|vm_compute; reflexivity]];
        intros y [<-|[<-|[]]]; reflexivity. }
  split; [exact Hready|].
  exact (get_filtered_df_default_identity df "Global Filters" true Hready).
Defined.

(** Without room for a slider the call does not return: on a dataframe
    whose ages are all 30 the age slider is given 30 as its minimum and as
    its maximum, and the widget raises. *)
Lemma get_filtered_df_default_single_age :
  let df := {| index := seq 0 2;
               columns := [("AGE_YEARS", NumCol (map F64.of_Z [30; 30]))] |} in
  get_filtered_df default_sidebar df "Global Filters" true
  = Raise "StreamlitInvalidMinMaxError".
Proof. vm_compute. reflexivity. Qed.

(** C4 as stated fails on the Cleaned Dataset of a raw dataset that brings
    its own income-bracket column and no income: the pipeline keeps the
    column, the filter offers only the brackets Low, Mid and High, and the
    default selection drops the row of any other bracket. *)
Lemma get_filtered_df_default_counterexample :
  let float_repr : float -> string := fun _ => "" in
  let float_parse : string -> option float := fun _ => None in
  let raw := {| index := seq 0 2;
                columns := [("INCOME_BRACKET", ObjCol [Some "Low"; Some "Ultra"])] |} in
  let h : heap := {[ 1%positive := raw ]} in
  exists out art h' clean filtered values,
    preprocess_application_train float_repr float_parse 1%positive h
      = (Ok (out, art), h') /\
    h' !! out = Some clean /\
    get_filtered_df default_sidebar clean "Global Filters" true
      = Ok (filtered, values) /\
    df_len clean = 2%nat /\ df_len filtered = 1%nat /\ filtered <> clean.
Proof.
  intros float_repr float_parse raw h.
  do 6 eexists. split; [vm_compute; reflexivity|].
  split; [vm_compute; reflexivity|].
  split; [vm_compute; reflexivity|].
  split; [reflexivity|]. split; [reflexivity|]. discriminate.
Qed.

(** * Further properties *)

(** ** Guarded ratio: missing operands *)

Lemma series_div_length (a b : Series) :
  List.length (series_div a b) = Nat.max (List.length a) (List.length b).
Proof.
  revert b; induction a as [|x a IH]; intros [|y b]; simpl;
    rewrite ?length_map; auto.
Qed.

Lemma nth_error_series_div_gen (a b : Series) (i : nat) :
  nth_error (series_div a b) i =
  match nth_error a i, nth_error b i with
  | Some x, Some y => Some (F64.div x y)
  | None, None => None
  | _, _ => Some F64.nan
  end.
Proof.
  revert b i; induction a as [|x a IH]; intros [|y b] [|i]; simpl;
    try reflexivity.
  - rewrite nth_error_map. now destruct (nth_error b i).
  - rewrite nth_error_map. now destruct (nth_error a i).
  - apply IH.
Qed.

(** X1.  The guarded ratio has one cell per position of the longer operand,
    and it is missing at every position where the numerator or the
    denominator is missing (NaN) or where only one of the two series has a
    cell. *)
Theorem guard_ratio_missing_operand (numer denom : Series) :
  List.length (_guard_ratio numer denom)
    = Nat.max (List.length numer) (List.length denom) /\
  forall i,
    (i < Nat.max (List.length numer) (List.length denom))%nat ->
    nth_error numer i = None \/ nth_error numer i = Some F64.nan \/
    nth_error denom i = None \/ nth_error denom i = Some F64.nan ->
    nth_error (_guard_ratio numer denom) i = Some F64.nan.
Proof.
  split.
  - unfold _guard_ratio, replace. now rewrite length_map, series_div_length,
      !length_map.
  - intros i Hi Hm. unfold _guard_ratio.
    rewrite nth_error_replace, nth_error_series_div_gen, !nth_error_replace.
    assert (nth_error numer i <> None \/ nth_error denom i <> None) as Hsome.
    { destruct (Nat.max_spec (List.length numer) (List.length denom))
        as [[_ E]|[_ E]]; rewrite E in Hi;
        [right|left]; now apply nth_error_Some. }
    destruct (nth_error numer i) as [n|] eqn:En,
             (nth_error denom i) as [d|] eqn:Ed; simpl;
      try reflexivity; [|destruct Hsome; congruence].
    destruct Hm as [Hm|[Hm|[Hm|Hm]]]; try discriminate;
      injection Hm as ->.
    + reflexivity.
    + destruct (replace_cell [F64.inf; F64.neg_inf] n)
        as [?|?| |? ? ?]; reflexivity.
Qed.

(** ** Winsorizer: what is left alone *)

Lemma clip_cell_inside (lo hi x : float) :
  F64.leb lo x = true -> F64.leb x hi = true ->
  clip_cell (Some (py_min lo hi)) (Some (py_max lo hi)) x = x.
Proof.
  intros H1 H2. pose proof (leb_trans _ _ _ H1 H2) as Hle.
  destruct (leb_not_nan _ _ H1) as [_ Nx].
  unfold py_min, py_max, F64.gtb. rewrite (leb_ltb_false _ _ Hle).
  change (SFltb lo hi) with (F64.ltb lo hi).
  unfold clip_cell. rewrite Nx. simpl.
  unfold F64.geb. fold (F64.leb lo x). rewrite H1.
  destruct (F64.ltb lo hi) eqn:Elt; [now rewrite H2|].
  assert (SFcompare lo hi = Some Eq) as Eq'.
  { revert Hle Elt. unfold F64.ltb, F64.leb, SFltb, SFleb.
    destruct (SFcompare lo hi) as [[| |]|]; congruence. }
  assert (F64.leb x lo = true) as ->; [|reflexivity].
  revert H2. unfold F64.leb, SFleb. now rewrite (SFcompare_Eq_r lo hi x Eq').
Qed.

(** X2.  Winsorization keeps the column's length, leaves every missing cell
    missing, and leaves every cell that lies between the two recorded bounds
    exactly as it was: only cells outside the bounds are changed. *)
Theorem winsorize_leaves_inside_cells (s : Series) (lower upper : float) :
  let out := fst (_winsorize s lower upper) in
  let p := snd (_winsorize s lower upper) in
  List.length out = List.length s /\
  forall i x, nth_error s i = Some x ->
    (F64.is_nan x = true -> nth_error out i = Some x) /\
    (F64.leb (low p) x = true -> F64.leb x (high p) = true ->
     nth_error out i = Some x).
Proof.
  unfold _winsorize; simpl.
  set (lo := quantile s lower). set (hi := quantile s upper).
  unfold clip. destruct (clip_thresholds lo hi) as [l u] eqn:Et.
  split; [apply length_map|].
  intros i x Hi. rewrite nth_error_map, Hi. simpl. split.
  - intros Nx. f_equal. unfold clip_cell. rewrite Nx.
    destruct l, u; reflexivity.
  - intros H1 H2. f_equal.
    destruct (leb_not_nan _ _ H1) as [Nl _].
    destruct (leb_not_nan _ _ H2) as [_ Nh].
    unfold clip_thresholds in Et. rewrite Nl, Nh in Et.
    injection Et as <- <-. now apply clip_cell_inside.
Qed.

(** ** Rare-category merger: the labels it can give *)

Lemma label_map_entry (s : StrSeries) (min_share : float) (key l : string) :
  label_map s min_share !! key = Some l ->
  exists v, In v s /\ py_str v = key /\ (l = "Other" \/ l = key).
Proof.
  unfold label_map. intros H.
  pose proof (fold_insert_lookup py_str
    (fun k => if bool_decide (k ∈ rare_index s min_share)
              then "Other" else py_str k)
    (map fst (value_counts_normalized s)) ∅ key) as Hf.
  simpl in Hf. rewrite H in Hf.
  destruct Hf as [(k & Hin & Hg & ->)|Hf]; [|now rewrite lookup_empty in Hf].
  exists k. split; [now apply (proj1 (value_counts_keys _ _))|].
  split; [exact Hg|]. case_bool_decide; auto.
Qed.

Lemma merge_mapping_entry (s : StrSeries) (min_share : float) (key l : string) :
  snd (_merge_rare_levels s min_share) !! key = Some l ->
  exists v, In v s /\ py_str v = key /\ (l = "Other" \/ l = key).
Proof.
  unfold _merge_rare_levels; simpl. case_bool_decide as Hx.
  - destruct (decide (key = "XNA")) as [->|Hne].
    + rewrite lookup_insert_eq. intros E. injection E as <-.
      destruct Hx as [l' Hl'].
      destruct (label_map_entry _ _ _ _ Hl') as (v & Hv & Hs & _).
      exists v. auto.
    + rewrite lookup_insert_ne by congruence. apply label_map_entry.
  - apply label_map_entry.
Qed.

(** X3.  The merger returns a column of the same length without any missing
    cell: each cell becomes either ["Other"] or its own text (the text
    ["<NA>"] for a missing cell).  The mapping table has no entry beyond the
    texts of the observed cells, and each entry maps a text to itself or to
    ["Other"]. *)
Theorem merge_rare_levels_labels (s : StrSeries) (min_share : float) :
  let s2 := fst (_merge_rare_levels s min_share) in
  let mapping := snd (_merge_rare_levels s min_share) in
  List.length s2 = List.length s /\
  (forall i x, nth_error s i = Some x ->
     nth_error s2 i = Some (Some "Other") \/
     nth_error s2 i = Some (Some (py_str x))) /\
  (forall key l, mapping !! key = Some l ->
     (exists v, In v s /\ py_str v = key) /\ (l = "Other" \/ l = key)).
Proof.
  split; [|split].
  - unfold _merge_rare_levels; simpl. apply length_map.
  - intros i x Hi.
    assert (nth_error (fst (_merge_rare_levels s min_share)) i =
            Some (Some (default (py_str x)
                          (snd (_merge_rare_levels s min_share) !! py_str x))))
      as -> by (unfold _merge_rare_levels; simpl;
                now rewrite nth_error_map, Hi).
    destruct (snd (_merge_rare_levels s min_share) !! py_str x) as [l|] eqn:E;
      [|now right].
    destruct (merge_mapping_entry _ _ _ _ E) as (_ & _ & _ & [->| ->]); auto.
  - intros key l H.
    destruct (merge_mapping_entry _ _ _ _ H) as (v & Hv & Hs & Hl). eauto.
Qed.

(** ** Descending sorts *)

Lemma desc_before_total (x y : float) :
  desc_before x y = true \/ desc_before y x = true.
Proof.
  unfold desc_before.
  destruct (F64.is_nan y) eqn:Ny; [now left|].
  destruct (F64.is_nan x) eqn:Nx; [now right|].
  unfold F64.geb. fold (F64.leb y x) (F64.leb x y).
  destruct (leb_total x y Nx Ny); auto.
Qed.

Lemma desc_before_trans (x y z : float) :
  desc_before x y = true -> desc_before y z = true -> desc_before x z = true.
Proof.
  unfold desc_before.
  destruct (F64.is_nan z) eqn:Nz; [reflexivity|].
  destruct (F64.is_nan y) eqn:Ny; [discriminate|].
  destruct (F64.is_nan x) eqn:Nx; [discriminate|].
  unfold F64.geb. fold (F64.leb y x) (F64.leb z y) (F64.leb z x).
  intros H1 H2. now apply (leb_trans z y x).
Qed.

#[local] Instance row_before_total v : Total (row_before v).
Proof. intros i j. apply desc_before_total. Qed.

#[local] Instance row_before_trans v : Transitive (row_before v).
Proof. intros i j k. apply desc_before_trans. Qed.

#[local] Instance pct_before_total : Total pct_before.
Proof. intros a b. apply desc_before_total. Qed.

#[local] Instance pct_before_trans : Transitive pct_before.
Proof. intros a b c. apply desc_before_trans. Qed.

(** X4.  Whenever [by_category_rate] returns a table for a dataframe that
    has both columns, its ["Default_%"] column is in descending order, with
    the groups whose rate is not computable (NaN) last. *)
Theorem by_category_rate_sorted (df : DataFrame) (col : string)
    (tcol c : Column) (t : Table)
    (HT : df_get TARGET df = Some tcol) (Hc : df_get col df = Some c)
    (Ht : by_category_rate df col = Ok t) :
  exists rate, table_get "Default_%" t = Some (TFloat rate) /\
               StronglySorted desc_le rate.
Proof.
  unfold by_category_rate in Ht. rewrite HT, Hc in Ht.
  destruct tcol as [tv| |]; try discriminate.
  destruct (String.eqb col "Default_%") eqn:Ecol; [discriminate|].
  set (rate := map (fun k => F64.mul _ _) (group_keys c)) in Ht.
  set (t0 := table_set _ _ _) in Ht.
  assert (table_get "Default_%" t0 = Some (TFloat rate)) as Hget.
  { unfold t0. rewrite table_set_count.
    destruct (String.eqb "count" col) eqn:E.
    - apply String.eqb_eq in E. subst col. reflexivity.
    - change (table_get "Default_%"
                [(col, TKey (group_keys c)); ("Default_%", TFloat rate);
                 ("count", TInt (map (fun k => group_size k (row_keys c))
                                   (group_keys c)))])
        with (if String.eqb "Default_%" col then Some (TKey (group_keys c))
              else Some (TFloat rate)).
      now rewrite String.eqb_sym, Ecol. }
  assert (t = sort_values_desc "Default_%" t0) as -> by congruence.
  unfold sort_values_desc. rewrite Hget. rewrite table_get_map, Hget. simpl.
  eexists. split; [reflexivity|].
  apply (StronglySorted_fmap _ (row_before rate)).
  - intros i j H. exact H.
  - apply StronglySorted_stable_sort; apply _.
Qed.

Lemma by_category_rate_sorted_witness :
  let df := {| index := seq 0 5;
               columns := [("TARGET", NumCol (map F64.of_Z [1; 0; 0; 1; 0]));
                           ("CODE_GENDER",
                            ObjCol [Some "M"; Some "F"; None; Some "F"; Some "M"])] |} in
  match by_category_rate df "CODE_GENDER" with
  | Ok t => exists rate, table_get "Default_%" t = Some (TFloat rate) /\
                         StronglySorted desc_le rate
  | Raise _ => False
  end.
Proof.
  intros df.
  destruct (by_category_rate df "CODE_GENDER") as [t|e] eqn:Ht.
  - exact (by_category_rate_sorted df "CODE_GENDER" _ _ t eq_refl eq_refl Ht).
  - vm_compute in Ht. discriminate Ht.
Defined.

(** ** Missingness report and the drop rule *)

(** X5.  The missingness report has exactly one row per column of the
    dataframe, carrying that column's missing percentage, and its rows are
    in descending order of percentage (NaN, for a dataframe without rows,
    last). *)
Theorem summarize_missingness_report (df : DataFrame) :
  summarize_missingness df
    ≡ₚ map (fun '(c, col) => (c, missing_pct col)) (columns df) /\
  StronglySorted pct_before (summarize_missingness df).
Proof.
  split.
  - apply stable_sort_Permutation.
  - apply StronglySorted_stable_sort; apply _.
Qed.

Lemma summarize_missingness_In (df : DataFrame) (c : string) (pct : float) :
  In (c, pct) (summarize_missingness df) <->
  exists col, In (c, col) (columns df) /\ pct = missing_pct col.
Proof.
  unfold summarize_missingness.
  rewrite <- list_elem_of_In, stable_sort_Permutation, list_elem_of_In.
  rewrite in_map_iff. split.
  - intros ([c' col] & E & Hin). injection E as <- <-. eauto.
  - intros (col & Hin & ->). exists (c, col). auto.
Qed.

Lemma name_in_In (c : string) (cs : list string) :
  name_in c cs = true <-> In c cs.
Proof.
  unfold name_in. rewrite existsb_exists. split.
  - intros (k & Hk & E). apply String.eqb_eq in E. now subst.
  - intros H. exists c. split; [exact H|apply String.eqb_refl].
Qed.

Lemma drop_cols_In (t : list (string * float)) (c : string) :
  In c (drop_cols t) <->
  protected c = false /\
  exists pct, In (c, pct) t /\ F64.gtb pct (F64.of_Z 60) = true.
Proof.
  unfold drop_cols. rewrite filter_In, in_map_iff, negb_true_iff. split.
  - intros [([c' pct] & <- & Hin) Hp]. split; [exact Hp|].
    apply (proj1 (filter_In _ _ _)) in Hin. destruct Hin as [Hin Hg].
    simpl. exists pct. split; [exact Hin|exact Hg].
  - intros [Hp (pct & Hin & Hg)]. split; [|exact Hp].
    exists (c, pct). split; [reflexivity|]. apply filter_In. auto.
Qed.

(** X6.  The drop stage removes exactly the columns that are neither the
    identifier nor the outcome and whose name belongs to a column missing in
    more than 60% of the rows; it keeps every other column, with its cells,
    and the row index, and it returns the missingness report taken before
    the drop together with the list of dropped names. *)
Theorem drop_missing_rule (l : loc) (h : heap) (d : DataFrame)
    (H : h !! l = Some d) :
  exists d',
    drop_missing l h
      = (Ok (summarize_missingness d, drop_cols (summarize_missingness d)),
         <[l := d']> h) /\
    index d' = index d /\
    forall c col,
      In (c, col) (columns d') <->
      In (c, col) (columns d) /\
      (protected c = true \/
       forall col', In (c, col') (columns d) ->
                    F64.gtb (missing_pct col') (F64.of_Z 60) = false).
Proof.
  exists (df_drop (drop_cols (summarize_missingness d)) d).
  split; [|split].
  - unfold drop_missing. rewrite bind_run. unfold read at 1. rewrite H.
    rewrite bind_run. unfold drop_inplace. rewrite bind_run.
    unfold read at 1. rewrite H. reflexivity.
  - reflexivity.
  - intros c col. unfold df_drop; cbn [columns].
    rewrite filter_In, negb_true_iff.
    split; intros [Hin Hk]; (split; [exact Hin|]).
    + destruct (protected c) eqn:Hp; [now left|right].
      intros col' Hin'.
      destruct (F64.gtb (missing_pct col') (F64.of_Z 60)) eqn:Hg;
        [|reflexivity].
      assert (name_in c (drop_cols (summarize_missingness d)) = true);
        [|congruence].
      apply name_in_In, drop_cols_In. split; [exact Hp|].
      exists (missing_pct col'). split; [|exact Hg].
      apply summarize_missingness_In. eauto.
    + apply not_true_is_false. intros Hn.
      apply name_in_In, drop_cols_In in Hn.
      destruct Hn as (Hp & pct & Hpct & Hg).
      apply summarize_missingness_In in Hpct.
      destruct Hpct as (col' & Hin' & ->).
      destruct Hk as [Hk|Hk]; [congruence|].
      rewrite (Hk col' Hin') in Hg. discriminate.
Qed.

Lemma drop_missing_rule_witness :
  let d := {| index := seq 0 3;
              columns := [("TARGET", NumCol [F64.nan; F64.nan; F64.nan]);
                          ("EXT_SOURCE_1", NumCol [F64.nan; F64.nan; F64.of_Z 1]);
                          ("AMT_CREDIT", NumCol (map F64.of_Z [5; 6; 7]))] |} in
  let h : heap := {[ 1%positive := d ]} in
  h !! 1%positive = Some d /\
  exists d', snd (drop_missing 1%positive h) !! 1%positive = Some d' /\
             df_columns d' = ["TARGET"; "AMT_CREDIT"].
Proof.
  intros d h. split; [reflexivity|].
  destruct (drop_missing_rule 1%positive h d eq_refl) as (d' & Hrun & _ & _).
  exists (df_drop (drop_cols (summarize_missingness d)) d).
  split; [|vm_compute; reflexivity]. vm_compute. reflexivity.
Defined.

(** ** Filter engine: what every answer of the sidebar gives *)

Lemma mask_filter_compose {A} (m1 m2 : list bool) (l : list A) :
  mask_filter m2 (mask_filter m1 l) = mask_filter (mask_compose m1 m2) l.
Proof.
  revert m2 l; induction m1 as [|b m1 IH]; intros m2 l; simpl.
  - now destruct m2.
  - destruct l as [|x l]; [destruct b, m2; reflexivity|].
    destruct b; [|apply IH].
    destruct m2 as [|b2 m2]; simpl; [reflexivity|].
    destruct b2; now rewrite IH.
Qed.

Lemma df_mask_compose (m1 m2 : list bool) (df : DataFrame) :
  df_mask m2 (df_mask m1 df) = df_mask (mask_compose m1 m2) df.
Proof.
  unfold df_mask; simpl. f_equal; [apply mask_filter_compose|].
  rewrite map_map. apply map_ext. intros [c col]. f_equal.
  destruct col; simpl; f_equal; apply mask_filter_compose.
Qed.

Lemma row_selection_refl (df : DataFrame) : row_selection df df.
Proof. now left. Qed.

Lemma row_selection_mask (mask : list bool) (f df : DataFrame) :
  row_selection f df -> row_selection (df_mask mask f) df.
Proof.
  intros [->|[m ->]]; right; [eauto|].
  exists (mask_compose m mask). apply df_mask_compose.
Qed.

Lemma mask_filter_sublist {A} (mask : list bool) (l : list A) :
  mask_filter mask l `sublist_of` l.
Proof.
  revert l; induction mask as [|b mask IH]; intros [|x l]; simpl;
    try apply sublist_nil_l.
  destruct b; [apply sublist_skip|apply sublist_cons]; apply IH.
Qed.

Lemma row_selection_index (f df : DataFrame) :
  row_selection f df ->
  index f `sublist_of` index df /\ df_columns f = df_columns df.
Proof.
  intros [->|[m ->]]; [split; reflexivity|]. split.
  - apply mask_filter_sublist.
  - unfold df_columns, df_mask; simpl. rewrite map_map.
    apply map_ext. now intros [c col].
Qed.

Lemma categorical_filter_selection (sb : Sidebar) (label col : string)
    (f df : DataFrame) (vals : Values) :
  row_selection f df ->
  row_selection (fst (categorical_filter sb label col (f, vals))) df.
Proof.
  intros H. unfold categorical_filter.
  destruct (df_get col f) as [c|]; [|exact H].
  destruct (multiselect sb label (sorted_unique c) (sorted_unique c));
    simpl; [exact H|now apply row_selection_mask].
Qed.

Lemma income_bracket_filter_selection (sb : Sidebar) (f df : DataFrame)
    (vals : Values) :
  row_selection f df ->
  row_selection (fst (income_bracket_filter sb (f, vals))) df.
Proof.
  intros H. unfold income_bracket_filter.
  destruct (df_get "INCOME_BRACKET" f) as [c|]; [|exact H].
  destruct (multiselect sb "Income Bracket" _ _);
    simpl; [exact H|now apply row_selection_mask].
Qed.

Lemma age_filter_selection (sb : Sidebar) (f f' df : DataFrame)
    (vals vals' : Values) :
  row_selection f df -> age_filter sb (f, vals) = Ok (f', vals') ->
  row_selection f' df.
Proof.
  intros H. unfold age_filter.
  destruct (df_get "AGE_YEARS" f) as [c|]; [|intros E; now injection E as <- <-].
  destruct (numeric_view c) as [v|e]; [|discriminate].
  cbn [mbind result_bind].
  destruct (range_slider sb "Age (years)" _ _) as [rng|e]; [|discriminate].
  cbn [mbind result_bind]. intros E. injection E as <- <-.
  now apply row_selection_mask.
Qed.

Lemma employment_filter_selection (sb : Sidebar) (f f' df : DataFrame)
    (vals vals' : Values) :
  row_selection f df -> employment_filter sb (f, vals) = Ok (f', vals') ->
  row_selection f' df.
Proof.
  intros H. unfold employment_filter.
  destruct (df_get "EMPLOYMENT_YEARS" f) as [c|];
    [|intros E; now injection E as <- <-].
  destruct (match c with
            | CatCol _ w => if all_missing w then Ok (map (fun _ => F64.nan) w)
                            else Raise "TypeError"
            | _ => numeric_view c
            end) as [v|e]; [|discriminate].
  cbn [mbind result_bind].
  destruct (match dropna v with
            | [] => (F64.zero, F64.zero)
            | _ => (np_floor (series_min v), np_ceil (series_max v))
            end) as [e_min e_max].
  destruct (range_slider sb "Employment Tenure (years)" _ _) as [rng|e];
    [|discriminate].
  cbn [mbind result_bind].
  destruct (match c with
            | CatCol _ _ => Raise "TypeError"
            | _ => Ok _
            end) as [mask_range|e']; [|discriminate].
  cbn [mbind result_bind]. intros E. injection E as <- <-.
  now apply row_selection_mask.
Qed.

(** X7.  Whatever the user answers in the sidebar, a dataframe returned by
    [get_filtered_df] is the input or a selection of rows of the input: its
    row index is a sub-sequence of the input's, in the same order, and it
    has the columns of the input under the same names. *)
Theorem get_filtered_df_selects_rows (sb : Sidebar) (df f : DataFrame)
    (section_title : string) (show_reset_button : bool) (values : Values)
    (H : get_filtered_df sb df section_title show_reset_button
         = Ok (f, values)) :
  row_selection f df /\
  index f `sublist_of` index df /\ df_columns f = df_columns df.
Proof.
  assert (row_selection f df) as Hsel; [|split; [exact Hsel|
    now apply row_selection_index]].
  unfold get_filtered_df in H. cbv zeta in H.
  pose proof (categorical_filter_selection sb "Gender" "CODE_GENDER"
                df df [] (row_selection_refl df)) as H1.
  destruct (categorical_filter sb "Gender" "CODE_GENDER" (df, []))
    as [f1 v1]. simpl in H1.
  pose proof (categorical_filter_selection sb "Education"
                "NAME_EDUCATION_TYPE" f1 df v1 H1) as H2.
  destruct (categorical_filter sb "Education" "NAME_EDUCATION_TYPE" (f1, v1))
    as [f2 v2]. simpl in H2.
  pose proof (categorical_filter_selection sb "Family Status"
                "NAME_FAMILY_STATUS" f2 df v2 H2) as H3.
  destruct (categorical_filter sb "Family Status" "NAME_FAMILY_STATUS" (f2, v2))
    as [f3 v3]. simpl in H3.
  pose proof (categorical_filter_selection sb "Housing Type"
                "NAME_HOUSING_TYPE" f3 df v3 H3) as H4.
  destruct (categorical_filter sb "Housing Type" "NAME_HOUSING_TYPE" (f3, v3))
    as [f4 v4]. simpl in H4.
  destruct (age_filter sb (f4, v4)) as [[f5 v5]|e] eqn:E5; [|discriminate].
  cbn [mbind result_bind] in H.
  pose proof (age_filter_selection sb f4 f5 df v4 v5 H4 E5) as H5.
  pose proof (income_bracket_filter_selection sb f5 df v5 H5) as H6.
  destruct (income_bracket_filter sb (f5, v5)) as [f6 v6]. simpl in H6.
  destruct (employment_filter sb (f6, v6)) as [[f7 v7]|e] eqn:E7;
    [|discriminate].
  cbn [mbind result_bind] in H.
  pose proof (employment_filter_selection sb f6 f7 df v6 v7 H6 E7) as H7.
  destruct (show_reset_button && button sb "Reset Filters"); [discriminate|].
  now injection H as <- <-.
Qed.

Lemma get_filtered_df_selects_rows_witness :
  let sb := {| multiselect := fun _ _ _ => [CStr "M"];
               slider := fun _ _ _ d => d;
               checkbox := fun _ _ => false;
               button := fun _ => false |} in
  let df := {| index := seq 0 3;
               columns := [("CODE_GENDER", ObjCol [Some "M"; Some "F"; Some "M"]);
                           ("EMPLOYMENT_YEARS",
                            NumCol [F64.lit 5 2; F64.of_Z 3; F64.nan])] |} in
  match get_filtered_df sb df "Global Filters" true with
  | Ok (f, _) => index f = [0%nat] /\ index f `sublist_of` index df
  | Raise _ => False
  end.
Proof.
  intros sb df.
  destruct (get_filtered_df sb df "Global Filters" true) as [[f v]|e] eqn:E.
  - split; [vm_compute in E; now injection E as <- _|].
    exact (proj1 (proj2 (get_filtered_df_selects_rows sb df f _ _ v E))).
  - vm_compute in E. discriminate E.
Defined.

Lemma has_col_false (c : string) (df : DataFrame) :
  has_col c df = false -> df_get c df = None.
Proof. unfold has_col. now destruct (df_get c df). Qed.

(** X8.  On a dataframe that has none of the seven filterable columns no
    control is rendered: unless the reset button is pressed, the call
    returns the input dataframe and an empty record of selections; pressing
    the button reruns the script instead of returning. *)
Theorem get_filtered_df_no_filter_columns (sb : Sidebar) (df : DataFrame)
    (section_title : string) (show_reset_button : bool)
    (H : forall c, In c filterable_cols -> has_col c df = false) :
  get_filtered_df sb df section_title show_reset_button =
  if show_reset_button && button sb "Reset Filters"
  then Raise "RerunException" else Ok (df, []).
Proof.
  assert (forall c, In c filterable_cols -> df_get c df = None) as Hn
    by (intros c Hc; now apply has_col_false, H).
  unfold get_filtered_df. cbv zeta.
  unfold categorical_filter at 4. rewrite (Hn "CODE_GENDER") by (simpl; tauto).
  unfold categorical_filter at 3.
  rewrite (Hn "NAME_EDUCATION_TYPE") by (simpl; tauto).
  unfold categorical_filter at 2.
  rewrite (Hn "NAME_FAMILY_STATUS") by (simpl; tauto).
  unfold categorical_filter.
  rewrite (Hn "NAME_HOUSING_TYPE") by (simpl; tauto).
  unfold age_filter. rewrite (Hn "AGE_YEARS") by (simpl; tauto).
  cbn [mbind result_bind].
  unfold income_bracket_filter.
  rewrite (Hn "INCOME_BRACKET") by (simpl; tauto).
  unfold employment_filter.
  rewrite (Hn "EMPLOYMENT_YEARS") by (simpl; tauto).
  reflexivity.
Qed.

Lemma get_filtered_df_no_filter_columns_witness :
  let df := {| index := seq 0 2;
               columns := [("TARGET", NumCol (map F64.of_Z [1; 0]));
                           ("AMT_CREDIT", NumCol (map F64.of_Z [5; 6]))] |} in
  (forall c, In c filterable_cols -> has_col c df = false) /\
  get_filtered_df default_sidebar df "Global Filters" true = Ok (df, []).
Proof.
  intros df.
  assert (forall c, In c filterable_cols -> has_col c df = false) as H.
  { intros c Hc. repeat (destruct Hc as [<-|Hc]; [reflexivity|]). destruct Hc. }
  split; [exact H|].
  exact (get_filtered_df_no_filter_columns default_sidebar df
           "Global Filters" true H).
Defined.

Lemma categorical_filter_cleared (sb : Sidebar) (label col : string)
    (df : DataFrame) (vals : Values) :
  (forall l o d, multiselect sb l o d = []) ->
  categorical_filter sb label col (df, vals) = (df, vals) \/
  categorical_filter sb label col (df, vals) = (df, vals ++ [(col, FSel [])]).
Proof.
  intros Hsel. unfold categorical_filter.
  destruct (df_get col df); [|now left]. rewrite Hsel. now right.
Qed.

(** X9.  An empty selection in a multi-select filters nothing.  On a
    dataframe without the two range columns, a user who clears every
    multi-select (and does not press the reset button) gets the input
    dataframe back, and every recorded selection is the empty one. *)
Theorem get_filtered_df_cleared_selection (sb : Sidebar) (df : DataFrame)
    (section_title : string) (show_reset_button : bool)
    (Hsel : forall l o d, multiselect sb l o d = [])
    (Hage : has_col "AGE_YEARS" df = false)
    (Hemp : has_col "EMPLOYMENT_YEARS" df = false)
    (Hbtn : button sb "Reset Filters" = false) :
  exists values,
    get_filtered_df sb df section_title show_reset_button = Ok (df, values) /\
    forall c v, In (c, v) values -> v = FSel [].
Proof.
  assert (forall label col vals,
            (forall c v, In (c, v) vals -> v = FSel []) ->
            exists vals', categorical_filter sb label col (df, vals) = (df, vals')
                          /\ forall c v, In (c, v) vals' -> v = FSel []) as Hstep.
  { intros label col vals Hv.
    destruct (categorical_filter_cleared sb label col df vals Hsel) as [->| ->];
      eexists; (split; [reflexivity|]); [exact Hv|].
    intros c v Hin. apply in_app_or in Hin.
    destruct Hin as [Hin|[Hin|[]]]; [now apply (Hv c)|congruence]. }
  unfold get_filtered_df. cbv zeta.
  destruct (Hstep "Gender" "CODE_GENDER" []) as (v1 & -> & Hv1);
    [intros ? ? []|].
  destruct (Hstep "Education" "NAME_EDUCATION_TYPE" v1 Hv1) as (v2 & -> & Hv2).
  destruct (Hstep "Family Status" "NAME_FAMILY_STATUS" v2 Hv2) as (v3 & -> & Hv3).
  destruct (Hstep "Housing Type" "NAME_HOUSING_TYPE" v3 Hv3) as (v4 & -> & Hv4).
  unfold age_filter. rewrite (has_col_false _ _ Hage). cbn [mbind result_bind].
  rewrite Hbtn, andb_false_r.
  unfold income_bracket_filter.
  destruct (df_get "INCOME_BRACKET" df) as [c|].
  - rewrite Hsel. unfold employment_filter. rewrite (has_col_false _ _ Hemp).
    cbn [mbind result_bind]. eexists. split; [reflexivity|].
    intros c' v Hin. apply in_app_or in Hin.
    destruct Hin as [Hin|[Hin|[]]]; [now apply (Hv4 c')|congruence].
  - unfold employment_filter. rewrite (has_col_false _ _ Hemp).
    cbn [mbind result_bind]. eauto.
Qed.

Lemma get_filtered_df_cleared_selection_witness :
  let sb := {| multiselect := fun _ _ _ => [];
               slider := fun _ _ _ d => d;
               checkbox := fun _ d => d;
               button := fun _ => false |} in
  let df := {| index := seq 0 2;
               columns := [("CODE_GENDER", ObjCol [Some "M"; None]);
                           ("INCOME_BRACKET", ObjCol [Some "Low"; Some "High"])] |} in
  exists values,
    get_filtered_df sb df "Global Filters" true = Ok (df, values) /\
    forall c v, In (c, v) values -> v = FSel [].
Proof.
  intros sb df.
  exact (get_filtered_df_cleared_selection sb df "Global Filters" true
           (fun _ _ _ => eq_refl) eq_refl eq_refl eq_refl).
Defined.

(** ** Counts of repaid and defaulted loans *)

Lemma insert_by_count_Permutation (e : option string * nat) l :
  insert_by_count e l ≡ₚ e :: l.
Proof.
  induction l as [|e' l IH]; simpl; [reflexivity|].
  destruct (snd e' <=? snd e)%nat; [reflexivity|].
  rewrite IH. apply Permutation_swap.
Qed.

Lemma sort_by_count_Permutation (l : list (option string * nat)) :
  fold_right insert_by_count [] l ≡ₚ l.
Proof.
  induction l as [|e l IH]; simpl; [reflexivity|].
  now rewrite insert_by_count_Permutation, IH.
Qed.

Lemma insert_by_count_sorted (e : option string * nat) l :
  StronglySorted (fun a b => count_ge (snd a) (snd b)) l ->
  StronglySorted (fun a b => count_ge (snd a) (snd b)) (insert_by_count e l).
Proof.
  induction 1 as [|e' l Hs IH Hall]; simpl.
  - repeat constructor.
  - destruct (snd e' <=? snd e)%nat eqn:E.
    + apply Nat.leb_le in E. constructor; [now constructor|].
      constructor; [exact E|].
      eapply Forall_impl; [exact Hall|]. unfold count_ge. intros; simpl in *; lia.
    + apply Nat.leb_gt in E. constructor; [exact IH|].
      rewrite insert_by_count_Permutation.
      constructor; [unfold count_ge; lia|exact Hall].
Qed.

Lemma value_counts_sorted (s : StrSeries) :
  StronglySorted (fun a b => count_ge (snd a) (snd b)) (value_counts s).
Proof.
  unfold value_counts. induction (map _ (unique s)) as [|e l IH]; simpl.
  - constructor.
  - now apply insert_by_count_sorted.
Qed.

Lemma unique_NoDup (s : StrSeries) : NoDup (unique s).
Proof.
  induction s as [|x s IH]; simpl; constructor.
  - rewrite list_elem_of_In, filter_In. intros [_ H].
    now rewrite bool_decide_eq_true_2 in H.
  - apply NoDup_ListNoDup, List.NoDup_filter. now apply NoDup_ListNoDup.
Qed.

Lemma value_counts_entries (s : StrSeries) (k : option string) (n : nat) :
  In (k, n) (value_counts s) <-> In k s /\ n = count_of k s.
Proof.
  unfold value_counts. rewrite sort_by_count_In, in_map_iff. split.
  - intros (k' & E & Hin). injection E as <- <-. now rewrite <- unique_In.
  - intros [Hin ->]. exists k. now rewrite unique_In.
Qed.

Lemma value_counts_NoDup (s : StrSeries) : NoDup (map fst (value_counts s)).
Proof.
  unfold value_counts. rewrite sort_by_count_Permutation.
  rewrite map_map; simpl. rewrite map_id. apply unique_NoDup.
Qed.

Lemma count_of_group_size (k : option string) (s : StrSeries) :
  count_of k s = group_size (str_key k) (map str_key s).
Proof.
  unfold count_of, group_size. induction s as [|x s IH]; simpl; [reflexivity|].
  destruct (decide (x = k)) as [->|Hne].
  - rewrite !bool_decide_eq_true_2 by reflexivity. simpl. now rewrite IH.
  - rewrite (bool_decide_eq_false_2 (x = k)) by assumption.
    rewrite (bool_decide_eq_false_2 (str_key x = str_key k)); [exact IH|].
    intros E. now apply str_key_inj in E.
Qed.

Lemma value_counts_total (s : StrSeries) :
  sum_list (map snd (value_counts s)) = List.length s.
Proof.
  unfold value_counts. rewrite sort_by_count_Permutation.
  rewrite map_map; simpl.
  rewrite <- (length_map str_key s).
  rewrite <- (group_sizes_sum (map str_key (unique s)) (map str_key s)).
  - rewrite map_map. f_equal. apply map_ext. intros k.
    apply count_of_group_size.
  - apply NoDup_fmap_2; [intros x y; apply str_key_inj|apply unique_NoDup].
  - intros k Hk. apply in_map_iff in Hk as (x & <- & Hx).
    apply in_map, unique_In, Hx.
Qed.

Lemma map_labels_length (c : Column) :
  List.length (map_labels c) = col_length c.
Proof. destruct c; simpl; apply length_map. Qed.

Lemma map_labels_In (c : Column) (x : option string) :
  In x (map_labels c) ->
  x = Some "Repaid" \/ x = Some "Default" \/ x = None.
Proof.
  destruct c as [v|v|cats v]; simpl; rewrite in_map_iff; intros (y & <- & _);
    auto.
  unfold TGT_LABELS. destruct (F64.eqb y _); [auto|].
  destruct (F64.eqb y _); auto.
Qed.

(** X10.  On a dataframe with the outcome column, [counts_repaid_default]
    returns the two columns ["Status"] and ["Count"], one row per label met:
    the labels are distinct and among Repaid, Default and the missing value;
    each count is positive and is the number of rows carrying its label; the
    counts are in descending order and add up to the number of rows. *)
Theorem counts_repaid_default_counts (df : DataFrame) (c : Column)
    (H : df_get TARGET df = Some c) :
  exists status count,
    counts_repaid_default df
      = [("Status", TKey status); ("Count", TInt count)] /\
    List.length status = List.length count /\
    NoDup status /\
    (forall k, In k status ->
       k = CStr "Repaid" \/ k = CStr "Default" \/ k = CNA) /\
    (forall k n, In (k, n) (combine status count) ->
       (0 < n)%nat /\ n = labelled k c) /\
    StronglySorted count_ge count /\
    sum_list count = col_length c.
Proof.
  unfold counts_repaid_default. rewrite H. cbv zeta.
  set (t := value_counts (map_labels c)).
  exists (map (fun e => str_key (fst e)) t), (map snd t).
  split; [reflexivity|]. split; [now rewrite !length_map|].
  split; [|split; [|split; [|split]]].
  - rewrite <- (map_map fst str_key).
    apply NoDup_fmap_2; [intros x y; apply str_key_inj|].
    apply value_counts_NoDup.
  - intros k Hk. apply in_map_iff in Hk as ([x n] & <- & Hin).
    apply value_counts_entries in Hin as [Hin _].
    destruct (map_labels_In _ _ Hin) as [->|[->| ->]]; simpl; auto.
  - intros k n Hin.
    assert (exists x, k = str_key x /\ In (x, n) t) as (x & -> & Hx).
    { clear -Hin. induction t as [|[x m] t IH]; simpl in Hin; [destruct Hin|].
      destruct Hin as [E|Hin].
      - injection E as <- <-. exists x. simpl; auto.
      - destruct (IH Hin) as (y & ? & ?). exists y. simpl; auto. }
    apply value_counts_entries in Hx as [Hx ->]. split.
    + unfold count_of. apply in_split in Hx as (l1 & l2 & ->).
      rewrite List.filter_app, length_app. simpl.
      rewrite bool_decide_eq_true_2 by reflexivity. simpl. lia.
    + unfold labelled, count_of. generalize (map_labels c) as s.
      induction s as [|y s IH]; simpl; [reflexivity|].
      destruct (decide (y = x)) as [->|Hne].
      * rewrite !bool_decide_eq_true_2 by reflexivity. simpl. now rewrite IH.
      * rewrite (bool_decide_eq_false_2 (y = x)) by assumption.
        rewrite (bool_decide_eq_false_2 (str_key y = str_key x)); [exact IH|].
        intros E. now apply str_key_inj in E.
  - apply (StronglySorted_fmap _ (fun a b => count_ge (snd a) (snd b))).
    + intros x y Hxy; exact Hxy.
    + apply value_counts_sorted.
  - unfold t. now rewrite value_counts_total, map_labels_length.
Qed.

Lemma counts_repaid_default_counts_witness :
  let df := {| index := seq 0 4;
               columns := [("TARGET", NumCol [F64.of_Z 1; F64.of_Z 0;
                                              F64.of_Z 0; F64.nan])] |} in
  exists status count,
    counts_repaid_default df
      = [("Status", TKey status); ("Count", TInt count)] /\
    List.length status = List.length count /\
    NoDup status /\
    (forall k, In k status ->
       k = CStr "Repaid" \/ k = CStr "Default" \/ k = CNA) /\
    (forall k n, In (k, n) (combine status count) ->
       (0 < n)%nat /\
       n = labelled k (NumCol [F64.of_Z 1; F64.of_Z 0; F64.of_Z 0; F64.nan])) /\
    StronglySorted count_ge count /\
    sum_list count = 4%nat.
Proof.
  intros df.
  exact (counts_repaid_default_counts df
           (NumCol [F64.of_Z 1; F64.of_Z 0; F64.of_Z 0; F64.nan]) eq_refl).
Defined.

Lemma combine_status_In (t : list (option string * nat)) (k : Cell) (n : nat) :
  In (k, n) (combine (map (fun e => str_key (fst e)) t) (map snd t)) <->
  exists x, k = str_key x /\ In (x, n) t.
Proof.
  induction t as [|[y m] t IH]; simpl.
  - split; [tauto|]. now intros (? & _ & []).
  - rewrite IH. split.
    + intros [E|(x & ? & ?)]; [injection E as <- <-; exists y; auto|eauto].
    + intros (x & -> & [E|Hin]); [injection E as <- <-; auto|eauto].
Qed.

Lemma count_of_map (f : float -> option string) (k : option string)
    (v : Series) :
  count_of k (map f v) = count_cells (fun x => bool_decide (f x = k)) v.
Proof.
  unfold count_of, count_cells. induction v as [|x v IH]; simpl; [reflexivity|].
  destruct (bool_decide (f x = k)); simpl; now rewrite IH.
Qed.

Lemma count_of_pos (k : option string) (s : StrSeries) :
  In k s <-> (0 < count_of k s)%nat.
Proof.
  unfold count_of. split.
  - intros Hin. apply in_split in Hin as (l1 & l2 & ->).
    rewrite List.filter_app, length_app. simpl.
    rewrite bool_decide_eq_true_2 by reflexivity. simpl. lia.
  - intros Hpos.
    destruct (List.filter (fun y => bool_decide (y = k)) s) as [|y l] eqn:E;
      [simpl in Hpos; lia|].
    assert (In y (List.filter (fun y => bool_decide (y = k)) s)) as Hy
      by (rewrite E; now left).
    apply filter_In in Hy as [Hy Hk]. apply bool_decide_eq_true_1 in Hk.
    now subst.
Qed.

Lemma eqb_zero_not_one (x : float) :
  F64.eqb x (F64.of_Z 0) = true -> F64.eqb x (F64.of_Z 1) = false.
Proof.
  change (F64.of_Z 0) with (S754_zero false).
  destruct x as [s|s| |s m e]; intros H.
  - now destruct s.
  - now destruct s.
  - discriminate H.
  - now destruct s.
Qed.

Lemma TGT_LABELS_cases (x : float) :
  bool_decide (TGT_LABELS x = Some "Repaid") = F64.eqb x (F64.of_Z 0) /\
  bool_decide (TGT_LABELS x = Some "Default") = F64.eqb x (F64.of_Z 1) /\
  bool_decide (TGT_LABELS x = None)
    = negb (F64.eqb x (F64.of_Z 0)) && negb (F64.eqb x (F64.of_Z 1)).
Proof.
  unfold TGT_LABELS.
  destruct (F64.eqb x (F64.of_Z 0)) eqn:E0.
  - rewrite (eqb_zero_not_one x E0).
    rewrite bool_decide_eq_true_2 by reflexivity.
    rewrite !bool_decide_eq_false_2 by discriminate. auto.
  - destruct (F64.eqb x (F64.of_Z 1)).
    + rewrite (bool_decide_eq_true_2 (Some "Default" = Some "Default"))
        by reflexivity.
      rewrite !bool_decide_eq_false_2 by discriminate. auto.
    + rewrite (bool_decide_eq_true_2 (None = None)) by reflexivity.
      rewrite !bool_decide_eq_false_2 by discriminate. auto.
Qed.

(** X11.  For a numeric outcome column the table of [counts_repaid_default]
    has a row Default exactly when some cell equals 1, and its count is the
    number of such cells; a row Repaid exactly when some cell equals 0, with
    the number of such cells; and a row for the missing label exactly when
    some cell is neither (a missing cell, or any other number), with the
    number of those. *)
Theorem counts_repaid_default_numeric (df : DataFrame) (v : Series)
    (H : df_get TARGET df = Some (NumCol v)) :
  exists status count,
    counts_repaid_default df
      = [("Status", TKey status); ("Count", TInt count)] /\
    (forall n, In (CStr "Default", n) (combine status count) <->
       (0 < n)%nat /\
       n = count_cells (fun x => F64.eqb x (F64.of_Z 1)) v) /\
    (forall n, In (CStr "Repaid", n) (combine status count) <->
       (0 < n)%nat /\
       n = count_cells (fun x => F64.eqb x (F64.of_Z 0)) v) /\
    (forall n, In (CNA, n) (combine status count) <->
       (0 < n)%nat /\
       n = count_cells (fun x => negb (F64.eqb x (F64.of_Z 0))
                                 && negb (F64.eqb x (F64.of_Z 1))) v).
Proof.
  unfold counts_repaid_default. rewrite H. cbv zeta.
  cbn [map_labels].
  set (t := value_counts (map TGT_LABELS v)).
  exists (map (fun e => str_key (fst e)) t), (map snd t).
  split; [reflexivity|].
  assert (forall x p n,
            (forall y, bool_decide (TGT_LABELS y = x) = p y) ->
            In (str_key x, n)
               (combine (map (fun e => str_key (fst e)) t) (map snd t)) <->
            (0 < n)%nat /\ n = count_cells p v) as Hrow.
  { intros x p n Hp. rewrite combine_status_In.
    assert (count_of x (map TGT_LABELS v) = count_cells p v) as Hc.
    { rewrite count_of_map. unfold count_cells. f_equal.
      apply filter_ext. exact Hp. }
    split.
    - intros (y & E & Hin). apply str_key_inj in E. subst y.
      apply value_counts_entries in Hin as [Hin ->].
      apply count_of_pos in Hin. rewrite <- Hc. auto.
    - intros [Hpos ->]. exists x. split; [reflexivity|].
      apply value_counts_entries. rewrite <- Hc in *.
      split; [now apply count_of_pos|reflexivity]. }
  split; [|split]; intros n.
  - apply (Hrow (Some "Default")). intros y.
    exact (proj1 (proj2 (TGT_LABELS_cases y))).
  - apply (Hrow (Some "Repaid")). intros y.
    exact (proj1 (TGT_LABELS_cases y)).
  - apply (Hrow None). intros y.
    rewrite <- (proj2 (proj2 (TGT_LABELS_cases y))).
    now apply bool_decide_ext.
Qed.

Lemma counts_repaid_default_numeric_witness :
  let v := [F64.of_Z 1; F64.of_Z 0; F64.of_Z 0; F64.nan] in
  let df := {| index := seq 0 4; columns := [("TARGET", NumCol v)] |} in
  exists status count,
    counts_repaid_default df
      = [("Status", TKey status); ("Count", TInt count)] /\
    (forall n, In (CStr "Default", n) (combine status count) <->
       (0 < n)%nat /\
       n = count_cells (fun x => F64.eqb x (F64.of_Z 1)) v) /\
    (forall n, In (CStr "Repaid", n) (combine status count) <->
       (0 < n)%nat /\
       n = count_cells (fun x => F64.eqb x (F64.of_Z 0)) v) /\
    (forall n, In (CNA, n) (combine status count) <->
       (0 < n)%nat /\
       n = count_cells (fun x => negb (F64.eqb x (F64.of_Z 0))
                                 && negb (F64.eqb x (F64.of_Z 1))) v).
Proof.
  intros v df. exact (counts_repaid_default_numeric df v eq_refl).
Defined.

(** ** Top rows of a sorted table *)

Lemma df_head_take {A} (n : Z) (l : list A) :
  exists k, df_head n l = take k l /\ (0 <= n -> k = Z.to_nat n).
Proof.
  unfold df_head. destruct (0 <=? n) eqn:E.
  - eauto.
  - apply Z.leb_gt in E. eexists. split; [reflexivity|lia].
Qed.

Lemma top_rows {A} (R : relation A) `{forall x y, Decision (R x y)}
    `{!Transitive R, !Total R} (n : Z) (l : list A) :
  exists rest,
    df_head n (stable_sort R l) ++ rest ≡ₚ l /\
    StronglySorted R (df_head n (stable_sort R l)) /\
    (forall x y, In x (df_head n (stable_sort R l)) -> In y rest -> R x y) /\
    (0 <= n -> List.length (df_head n (stable_sort R l))
               = Nat.min (Z.to_nat n) (List.length l)).
Proof.
  destruct (df_head_take n (stable_sort R l)) as (k & -> & Hk).
  exists (drop k (stable_sort R l)).
  pose proof (StronglySorted_stable_sort R l) as Hs.
  rewrite <- (take_drop k (stable_sort R l)) in Hs.
  apply StronglySorted_app in Hs as (Hx & Hs1 & _).
  split; [now rewrite take_drop, stable_sort_Permutation|].
  split; [exact Hs1|]. split.
  - intros x y Hin1 Hin2. apply Hx; now apply list_elem_of_In.
  - intros Hn. rewrite length_take, (Hk Hn).
    now rewrite (Permutation_length (stable_sort_Permutation R l)).
Qed.

#[local] Instance abs_before_total : Total abs_before.
Proof. intros a b. apply desc_before_total. Qed.

#[local] Instance abs_before_trans : Transitive abs_before.
Proof. intros a b c. apply desc_before_trans. Qed.

Lemma fabs_is_nan (x : float) : F64.is_nan (fabs x) = F64.is_nan x.
Proof. now destruct x. Qed.

(** X12.  For a non-empty series of coefficients, [bar_corr_to_target]
    returns the columns feature, corr and abs_corr, where abs_corr is the
    absolute value of corr.  Its rows are rows of the input with a
    coefficient (missing ones are left out), in descending order of absolute
    value; no row left out has a larger absolute value than a row kept; and
    for [top_n >= 0] there are [top_n] rows, or all of them when fewer have
    a coefficient. *)
Theorem bar_corr_to_target_top (e : string * float)
    (s : list (string * float)) (top_n : Z) :
  let known := List.filter (fun r => negb (F64.is_nan (snd r))) (e :: s) in
  exists rows rest,
    bar_corr_to_target (Some (e :: s)) top_n =
      [("feature", TKey (map (fun r => CStr (fst r)) rows));
       ("corr", TFloat (map snd rows));
       ("abs_corr", TFloat (map (fun r => fabs (snd r)) rows))] /\
    rows ++ rest ≡ₚ known /\
    StronglySorted abs_before rows /\
    (forall r r', In r rows -> In r' rest ->
       F64.leb (fabs (snd r')) (fabs (snd r)) = true) /\
    (0 <= top_n ->
     List.length rows = Nat.min (Z.to_nat top_n) (List.length known)).
Proof.
  intros known.
  destruct (top_rows abs_before top_n known) as (rest & Hp & Hs & Hx & Hl).
  exists (df_head top_n (stable_sort abs_before known)), rest.
  split; [reflexivity|]. split; [exact Hp|]. split; [exact Hs|].
  split; [|exact Hl].
  intros r r' Hr Hr'. specialize (Hx r r' Hr Hr').
  assert (In r' known) as Hk.
  { apply list_elem_of_In. rewrite <- Hp. apply list_elem_of_In, in_or_app.
    now right. }
  assert (In r known) as Hk'.
  { apply list_elem_of_In. rewrite <- Hp. apply list_elem_of_In, in_or_app.
    now left. }
  apply filter_In in Hk as [_ Hk]. apply filter_In in Hk' as [_ Hk'].
  unfold abs_before, desc_before in Hx. rewrite !fabs_is_nan in Hx.
  apply negb_true_iff in Hk, Hk'. rewrite Hk, Hk' in Hx. exact Hx.
Qed.

(** X13.  [missingness_topk] reads the report recorded by the preprocessing
    when there is one with at least one row, and otherwise computes the
    missing percentage of every column of the dataframe it is given.  In
    both cases it returns rows of that report in descending order of
    percentage, no row left out has a larger percentage than a row kept,
    and for [k >= 0] there are [k] rows, or all of them when the report has
    fewer. *)
Theorem missingness_topk_top (artifacts : option Artifacts) (df : DataFrame)
    (k : Z) :
  let report :=
    match artifacts with
    | Some art =>
        if bool_decide (missingness_before art = [])
        then map (fun '(c, col) => (c, missing_pct col)) (columns df)
        else missingness_before art
    | None => map (fun '(c, col) => (c, missing_pct col)) (columns df)
    end in
  exists rest,
    missingness_topk artifacts df k ++ rest ≡ₚ report /\
    StronglySorted pct_before (missingness_topk artifacts df k) /\
    (forall r r', In r (missingness_topk artifacts df k) -> In r' rest ->
       pct_before r r') /\
    (0 <= k ->
     List.length (missingness_topk artifacts df k)
       = Nat.min (Z.to_nat k) (List.length report)).
Proof.
  unfold missingness_topk. cbv zeta.
  destruct artifacts as [art|]; [|apply (top_rows pct_before)].
  destruct (missingness_before art) as [|r rs].
  - rewrite bool_decide_eq_true_2 by reflexivity. apply (top_rows pct_before).
  - rewrite bool_decide_eq_false_2 by discriminate.
    apply (top_rows pct_before).
Qed.

(** ** Status column *)

Lemma status_column_keys (c : Column) :
  row_keys (status_column c) = map str_key (map_labels c).
Proof.
  destruct c as [v|v|[|cat cats] v]; simpl; try reflexivity;
    rewrite !map_map; reflexivity.
Qed.

(** X14.  [add_status_col] returns a new dataframe and changes no existing
    one, its argument included.  The new dataframe has the rows of the
    argument and, without an outcome column, its columns; with an outcome
    column, every column under another name than [status_col] is as in the
    argument, and the column [status_col] holds, row by row, Repaid where
    the outcome is 0, Default where it is 1 and the missing value
    elsewhere. *)
Theorem add_status_col_copy (h : heap) (df : loc) (status_col : string)
    (d : DataFrame) (H : h !! df = Some d) :
  exists out d',
    add_status_col df status_col h = (Ok out, <[out := d']> h) /\
    h !! out = None /\
    index d' = index d /\
    (has_col TARGET d = false -> d' = d) /\
    (forall c, c <> status_col -> df_get c d' = df_get c d) /\
    (forall t, df_get TARGET d = Some t ->
       exists col, df_get status_col d' = Some col /\
                   row_keys col = map str_key (map_labels t)).
Proof.
  assert (h !! fresh (dom h) = None) as Hfresh
    by apply not_elem_of_dom, is_fresh.
  unfold add_status_col. rewrite bind_run.
  unfold contains. rewrite bind_run. unfold read at 1. rewrite H.
  change ((mret (has_col TARGET d) : M bool) h) with (Ok (has_col TARGET d), h).
  cbv iota beta. unfold has_col.
  destruct (df_get TARGET d) as [t|] eqn:Ht; cbn [negb].
  - exists (fresh (dom h)), (df_set status_col (status_column t) d).
    split; [|split; [exact Hfresh|split; [reflexivity|split;
      [discriminate|split]]]].
    + rewrite bind_run. unfold df_copy. rewrite H. cbv zeta iota beta.
      rewrite bind_run. unfold get_col. rewrite bind_run. unfold read at 1.
      rewrite lookup_insert_eq. cbv iota beta. rewrite Ht.
      change ((mret t : M Column) (<[fresh (dom h) := d]> h))
        with (Ok t, <[fresh (dom h) := d]> h).
      cbv iota beta. rewrite bind_run. unfold set_col. rewrite bind_run.
      unfold read at 1. rewrite lookup_insert_eq. cbv iota beta.
      unfold write. now rewrite insert_insert_eq.
    + intros c Hc. now apply df_get_set_ne.
    + intros t' E. injection E as <-. exists (status_column t).
      split; [apply assoc_get_set_eq|apply status_column_keys].
  - exists (fresh (dom h)), d.
    split; [|split; [exact Hfresh|split; [reflexivity|split;
      [reflexivity|split; [reflexivity|discriminate]]]]].
    unfold df_copy. now rewrite H.
Qed.

Lemma add_status_col_copy_witness :
  let d := {| index := seq 0 3;
              columns := [("TARGET", NumCol [F64.of_Z 0; F64.of_Z 1; F64.nan])] |} in
  let h : heap := {[ 1%positive := d ]} in
  exists out d',
    add_status_col 1%positive "Status" h = (Ok out, <[out := d']> h) /\
    h !! out = None /\
    index d' = index d /\
    (has_col TARGET d = false -> d' = d) /\
    (forall c, c <> "Status" -> df_get c d' = df_get c d) /\
    (forall t, df_get TARGET d = Some t ->
       exists col, df_get "Status" d' = Some col /\
                   row_keys col = map str_key (map_labels t)).
Proof.
  intros d h.
  exact (add_status_col_copy h 1%positive "Status" d (lookup_singleton_eq _ _)).
Defined.

(** ** Runs of the pipeline *)

Lemma triple_bind {A B} (P : heap -> Prop) (R : A -> heap -> Prop)
    (Q : B -> heap -> Prop) (m : M A) (f : A -> M B) :
  triple P m R -> (forall a, triple (R a) (f a) Q) -> triple P (m ≫= f) Q.
Proof.
  intros Hm Hf h b h' HP Hrun. rewrite bind_run in Hrun.
  destruct (m h) as [[a|e] h1] eqn:E; [|discriminate].
  exact (Hf a h1 b h' (Hm h a h1 HP E) Hrun).
Qed.

Lemma triple_skip {A B} (P : heap -> Prop) (Q : B -> heap -> Prop)
    (m : M A) (f : A -> M B) :
  (forall a, triple (fun _ => True) (f a) Q) -> triple P (m ≫= f) Q.
Proof.
  intros Hf. apply (triple_bind P (fun _ _ => True)); [|exact Hf].
  now intros h a h' _ _.
Qed.

Lemma triple_returns {A B} (P : heap -> Prop) (R : A -> Prop)
    (Q : B -> heap -> Prop) (m : M A) (f : A -> M B) :
  returns m R -> (forall a, R a -> triple (fun _ => True) (f a) Q) ->
  triple P (m ≫= f) Q.
Proof.
  intros Hm Hf h b h' _ Hrun. rewrite bind_run in Hrun.
  destruct (m h) as [[a|e] h1] eqn:E; [|discriminate].
  apply (Hf a) with (h := h1); [|exact I|exact Hrun].
  apply (Hm h a). now rewrite E.
Qed.

Lemma triple_ret {A} (P : heap -> Prop) (Q : A -> heap -> Prop) (a : A) :
  (forall h, P h -> Q a h) -> triple P (mret a) Q.
Proof. intros H h a' h' HP E. injection E as <- <-. now apply H. Qed.

Lemma triple_pure {A} (P : heap -> Prop) (phi : Prop) (m : M A)
    (Q : A -> heap -> Prop) :
  (phi -> triple P m Q) -> triple (fun h => P h /\ phi) m Q.
Proof. intros H h a h' [HP Hphi] E. exact (H Hphi h a h' HP E). Qed.

Lemma triple_read (P : heap -> Prop) (l : loc) :
  triple P (read l) (fun d h => P h /\ h !! l = Some d).
Proof.
  intros h d h' HP E. unfold read in E.
  destruct (h !! l) as [d0|] eqn:El; [|discriminate].
  injection E as <- <-. auto.
Qed.

Lemma income_brackets_post (l : loc) :
  triple (fun _ => True) (income_brackets l)
    (fun _ h => exists clean, h !! l = Some clean /\ bracketed clean).
Proof.
  intros h u h' _ E. unfold income_brackets in E. rewrite bind_run in E.
  unfold contains in E. rewrite bind_run in E. unfold read at 1 in E.
  destruct (h !! l) as [d|] eqn:Hd; [|discriminate].
  change ((mret (has_col "AMT_INCOME_TOTAL" d) : M bool) h)
    with (Ok (has_col "AMT_INCOME_TOTAL" d), h) in E.
  cbv iota beta in E. unfold has_col in E.
  destruct (df_get "AMT_INCOME_TOTAL" d) as [col|] eqn:Hcol; cbn [when] in E.
  - rewrite bind_run in E. unfold get_col in E. rewrite bind_run in E.
    unfold read at 1 in E. rewrite Hd in E. cbv iota beta in E.
    rewrite Hcol in E.
    change ((mret col : M Column) h) with (Ok col, h) in E.
    cbv iota beta in E. rewrite bind_run in E. unfold lift at 1 in E.
    destruct col as [v| |]; try discriminate. cbn [numeric_operand] in E.
    cbv iota beta zeta in E. unfold set_col in E. rewrite bind_run in E.
    unfold read at 1 in E. rewrite Hd in E. cbv iota beta in E.
    unfold write in E. injection E as ? <-.
    eexists. split; [apply lookup_insert_eq|].
    intros col. rewrite df_get_set_ne by discriminate. rewrite Hcol.
    intros E. injection E as <-. exists v. split; [reflexivity|].
    apply assoc_get_set_eq.
  - injection E as ? <-. exists d. split; [exact Hd|].
    intros col E. congruence.
Qed.

Lemma preprocess_steps_post float_repr float_parse (l : loc) :
  triple (fun _ => True) (preprocess_steps float_repr float_parse l)
    (fun r h =>
       fst r = l /\
       exists clean, h !! l = Some clean /\ bracketed clean /\
         missingness_after (snd r) = summarize_missingness clean /\
         dropped_cols (snd r) = drop_cols (missingness_before (snd r)) /\
         notes (snd r) = pipeline_notes).
Proof.
  unfold preprocess_steps.
  do 3 (apply triple_skip; intros _).
  apply (triple_returns _ _ _ _ _ (drop_missing_returns l)).
  intros [miss drop] Hdrop. simpl in Hdrop.
  apply triple_skip; intros d.
  apply triple_skip; intros _.
  apply triple_skip; intros rare.
  apply triple_skip; intros d'.
  apply triple_skip; intros wp.
  eapply triple_bind; [apply income_brackets_post|]. intros u.
  eapply triple_bind; [apply triple_read|]. intros d''.
  apply triple_ret. intros h [(clean & Hc & Hb) Hd]. simpl.
  split; [reflexivity|]. exists clean.
  assert (d'' = clean) as -> by congruence. auto.
Qed.

(** X15.  In the dataframe the preprocessing returns, the income brackets
    are those of the returned (imputed and winsorized) income column: when
    that frame has a column AMT_INCOME_TOTAL, the column is numeric and
    INCOME_BRACKET is a categorical column with one cell per row, none
    missing, holding Low where the income is at most the first quartile of
    the column, High where it is above the third, and Mid elsewhere (also
    where the income is missing). *)
Theorem preprocess_income_brackets
    (float_repr : float -> string) (float_parse : string -> option float)
    (h h' : heap) (df out : loc) (art : Artifacts)
    (Hrun : preprocess_application_train float_repr float_parse df h
            = (Ok (out, art), h')) :
  exists clean, h' !! out = Some clean /\
    forall col, df_get "AMT_INCOME_TOTAL" clean = Some col ->
      exists v cats w,
        col = NumCol v /\
        df_get "INCOME_BRACKET" clean = Some (CatCol cats w) /\
        List.length w = List.length v /\
        forall i x, nth_error v i = Some x ->
          nth_error w i =
            Some (Some (if F64.leb x (quantile v (F64.lit 1 4)) then "Low"
                        else if F64.gtb x (quantile v (F64.lit 3 4))
                             then "High" else "Mid")).
Proof.
  unfold preprocess_application_train in Hrun. rewrite bind_run in Hrun.
  destruct (df_copy df h) as [[l|e] h1]; [|discriminate].
  destruct (preprocess_steps_post float_repr float_parse l h1 (out, art) h' I
              Hrun) as (Hl & clean & Hc & Hb & _).
  simpl in Hl. subst l. exists clean. split; [exact Hc|].
  intros col Hcol. destruct (Hb col Hcol) as (v & -> & Hbr).
  eexists v, _, _. split; [reflexivity|]. split; [exact Hbr|].
  split; [now rewrite length_map|].
  intros i x Hi. now rewrite nth_error_map, Hi.
Qed.

Lemma preprocess_income_brackets_witness :
  let raw := {| index := seq 0 4;
                columns := [("TARGET", NumCol (map F64.of_Z [1; 0; 0; 1]));
                            ("AMT_INCOME_TOTAL",
                             NumCol (map F64.of_Z [100; 200; 300; 400]))] |} in
  let h : heap := {[ 1%positive := raw ]} in
  match preprocess_application_train (fun _ => "x") (fun _ => None)
          1%positive h with
  | (Ok (out, art), h') =>
      exists clean, h' !! out = Some clean /\
        forall col, df_get "AMT_INCOME_TOTAL" clean = Some col ->
          exists v cats w,
            col = NumCol v /\
            df_get "INCOME_BRACKET" clean = Some (CatCol cats w) /\
            List.length w = List.length v /\
            forall i x, nth_error v i = Some x ->
              nth_error w i =
                Some (Some (if F64.leb x (quantile v (F64.lit 1 4)) then "Low"
                            else if F64.gtb x (quantile v (F64.lit 3 4))
                                 then "High" else "Mid"))
  | (Raise _, _) => False
  end.
Proof.
  intros raw h.
  destruct (preprocess_application_train (fun _ => "x") (fun _ => None)
              1%positive h) as [[[out art]|e] h'] eqn:Hrun.
  - exact (preprocess_income_brackets (fun _ => "x") (fun _ => None)
             h h' 1%positive out art Hrun).
  - vm_compute in Hrun. discriminate Hrun.
Defined.

(** X16.  The artifacts the preprocessing returns agree with the dataframe
    it returns: the report [missingness_after] is the missingness report of
    the returned dataframe, and [dropped_cols] lists exactly the names,
    other than the identifier and the outcome, that the recorded report
    [missingness_before] gives more than 60% missing. *)
Theorem preprocess_artifacts_consistent
    (float_repr : float -> string) (float_parse : string -> option float)
    (h h' : heap) (df out : loc) (art : Artifacts)
    (Hrun : preprocess_application_train float_repr float_parse df h
            = (Ok (out, art), h')) :
  exists clean, h' !! out = Some clean /\
    missingness_after art = summarize_missingness clean /\
    (forall c, In c (dropped_cols art) <->
       protected c = false /\
       exists pct, In (c, pct) (missingness_before art) /\
                   F64.gtb pct (F64.of_Z 60) = true) /\
    notes art = pipeline_notes.
Proof.
  unfold preprocess_application_train in Hrun. rewrite bind_run in Hrun.
  destruct (df_copy df h) as [[l|e] h1]; [|discriminate].
  destruct (preprocess_steps_post float_repr float_parse l h1 (out, art) h' I
              Hrun) as (Hl & clean & Hc & _ & Hafter & Hdrop & Hnotes).
  simpl in *. subst l. exists clean. split; [exact Hc|].
  split; [exact Hafter|]. split; [|exact Hnotes].
  intros c. rewrite Hdrop. apply drop_cols_In.
Qed.

Lemma preprocess_artifacts_consistent_witness :
  let raw := {| index := seq 0 3;
                columns := [("TARGET", NumCol (map F64.of_Z [1; 0; 0]));
                            ("EXT_SOURCE_1",
                             NumCol [F64.nan; F64.nan; F64.of_Z 1])] |} in
  let h : heap := {[ 1%positive := raw ]} in
  match preprocess_application_train (fun _ => "x") (fun _ => None)
          1%positive h with
  | (Ok (out, art), h') =>
      exists clean, h' !! out = Some clean /\
        missingness_after art = summarize_missingness clean /\
        (forall c, In c (dropped_cols art) <->
           protected c = false /\
           exists pct, In (c, pct) (missingness_before art) /\
                       F64.gtb pct (F64.of_Z 60) = true) /\
        notes art = pipeline_notes
  | (Raise _, _) => False
  end.
Proof.
  intros raw h.
  destruct (preprocess_application_train (fun _ => "x") (fun _ => None)
              1%positive h) as [[[out art]|e] h'] eqn:Hrun.
  - exact (preprocess_artifacts_consistent (fun _ => "x") (fun _ => None)
             h h' 1%positive out art Hrun).
  - vm_compute in Hrun. discriminate Hrun.
Defined.

(** ** The shape of the dataframe through the pipeline *)

Lemma assoc_set_In (c c' : string) (col col' : Column) l :
  In (c', col') (assoc_set c col l) -> col' = col \/ In (c', col') l.
Proof.
  induction l as [|[k v] l IH]; simpl.
  - intros [E|[]]. left. congruence.
  - destruct (String.eqb c k); simpl.
    + intros [E|Hin]; [left; congruence|auto].
    + intros [E|Hin]; [auto|]. destruct (IH Hin); auto.
Qed.

Lemma guard_ratio_length (a b : Series) :
  List.length (_guard_ratio a b) = Nat.max (List.length a) (List.length b).
Proof.
  unfold _guard_ratio, replace.
  now rewrite length_map, series_div_length, !length_map.
Qed.

Lemma winsorize_length (v : Series) (a b : float) :
  List.length (fst (_winsorize v a b)) = List.length v.
Proof.
  unfold _winsorize, clip; simpl.
  destruct (clip_thresholds _ _). apply length_map.
Qed.

Lemma fillna_text_length (x : string) (c c' : Column) :
  fillna_text x c = Ok c' -> col_length c' = col_length c.
Proof.
  destruct c as [v|v|cats v]; simpl.
  - now intros [= <-].
  - intros [= <-]. simpl. apply length_map.
  - destruct (name_in x cats); [|discriminate].
    intros [= <-]. simpl. apply length_map.
Qed.

Section Shape.

Context (float_repr : float -> string) (float_parse : string -> option float).
Context (l : loc) (ix : list nat) (n : option nat).

Lemma astype_float_length (c : Column) (v : Series) :
  astype_float float_parse c = Ok v -> List.length v = col_length c.
Proof.
  assert (forall (w : StrSeries) v,
            fold_right
              (fun x acc =>
                 match acc with
                 | Raise e => Raise e
                 | Ok w =>
                     match x with
                     | None => Ok (F64.nan :: w)
                     | Some t =>
                         match float_parse t with
                         | Some y => Ok (y :: w)
                         | None =>
                             Raise "ValueError: could not convert string to float"
                         end
                     end
                 end) (Ok []) w = Ok v ->
            List.length v = List.length w) as Hfold.
  { induction w as [|x w IH]; simpl; intros v0.
    - now intros [= <-].
    - destruct (fold_right _ _ w) as [u|e]; [|discriminate].
      destruct x as [t|]; [destruct (float_parse t); [|discriminate]|];
        intros [= <-]; simpl; f_equal; now apply IH. }
  destruct c as [w|w|cats w]; simpl; [now intros [= <-]| |]; apply Hfold.
Qed.

Lemma col_ok_same (col col' : Column) :
  col_length col' = col_length col -> col_ok n col -> col_ok n col'.
Proof. intros E H k Hk. rewrite E. now apply H. Qed.

Lemma shape_contains (c : string) :
  triple (shape l ix n) (contains l c) (fun _ => shape l ix n).
Proof.
  intros h b h' HS E. unfold contains in E. rewrite bind_run in E.
  unfold read in E. destruct (h !! l); [|discriminate].
  injection E as ? <-. exact HS.
Qed.

Lemma shape_get_col (c : string) :
  triple (shape l ix n) (get_col l c)
    (fun col h => shape l ix n h /\ col_ok n col).
Proof.
  intros h col h' HS E. unfold get_col in E. rewrite bind_run in E.
  unfold read in E. destruct HS as (d & Hd & Hix & Hcols).
  rewrite Hd in E. cbv iota beta in E.
  destruct (df_get c d) as [col0|] eqn:Hg; [|discriminate].
  injection E as <- <-. split; [exists d; auto|].
  eapply Hcols, df_get_In, Hg.
Qed.

Lemma shape_lift {A} (r : result A) (P : heap -> Prop) :
  triple P (lift r) (fun a h => P h /\ r = Ok a).
Proof. intros h a h' HP E. unfold lift in E. injection E as -> <-. auto. Qed.

Lemma shape_set_col (c : string) (col : Column) :
  col_ok n col -> triple (shape l ix n) (set_col l c col) (fun _ => shape l ix n).
Proof.
  intros Hok h u h' (d & Hd & Hix & Hcols) E.
  unfold set_col in E. rewrite bind_run in E. unfold read in E.
  rewrite Hd in E. unfold write in E. injection E as ? <-.
  exists (df_set c col d). split; [apply lookup_insert_eq|].
  split; [exact Hix|]. intros c' col' Hin. simpl in Hin.
  apply assoc_set_In in Hin as [->|Hin]; eauto.
Qed.

Lemma shape_drop_inplace (cs : list string) :
  triple (shape l ix n) (drop_inplace l cs) (fun _ => shape l ix n).
Proof.
  intros h u h' (d & Hd & Hix & Hcols) E.
  unfold drop_inplace in E. rewrite bind_run in E. unfold read in E.
  rewrite Hd in E. unfold write in E. injection E as ? <-.
  exists (df_drop cs d). split; [apply lookup_insert_eq|].
  split; [exact Hix|]. intros c' col' Hin. simpl in Hin.
  apply filter_In in Hin as [Hin _]. eauto.
Qed.

Lemma shape_when (b : bool) (m : M unit) :
  triple (shape l ix n) m (fun _ => shape l ix n) ->
  triple (shape l ix n) (when b m) (fun _ => shape l ix n).
Proof. intros H. destruct b; [exact H|]. now apply triple_ret. Qed.

Lemma shape_for_each {A} (xs : list A) (body : A -> M unit) :
  (forall x, triple (shape l ix n) (body x) (fun _ => shape l ix n)) ->
  triple (shape l ix n) (for_each xs body) (fun _ => shape l ix n).
Proof.
  intros H. induction xs as [|x xs IH]; simpl; [now apply triple_ret|].
  eapply triple_bind; [apply H|]. intros u. exact IH.
Qed.

Lemma shape_update (c c' : string) (f : Column -> Column) :
  (forall col, col_length (f col) = col_length col) ->
  triple (shape l ix n) (col ← get_col l c; set_col l c' (f col))
    (fun _ => shape l ix n).
Proof.
  intros Hf. eapply triple_bind; [apply shape_get_col|]. intros col.
  cbv beta; apply triple_pure. intros Hok. apply shape_set_col.
  now apply (col_ok_same col).
Qed.

Lemma shape_update_num (c c' : string) (g : Series -> Series) :
  (forall v, List.length (g v) = List.length v) ->
  triple (shape l ix n)
    (col ← get_col l c; v ← lift (numeric_operand col);
     set_col l c' (NumCol (g v)))
    (fun _ => shape l ix n).
Proof.
  intros Hg. eapply triple_bind; [apply shape_get_col|]. intros col.
  cbv beta; apply triple_pure. intros Hok.
  eapply triple_bind; [apply shape_lift|]. intros v.
  cbv beta; apply triple_pure. intros Hv. apply shape_set_col.
  destruct col as [w| |]; try discriminate. injection Hv as <-.
  apply (col_ok_same (NumCol w)); [simpl; apply Hg|exact Hok].
Qed.

Lemma shape_cast_ids :
  triple (shape l ix n) (cast_ids float_repr l) (fun _ => shape l ix n).
Proof.
  apply shape_for_each. intros c.
  eapply triple_bind; [apply shape_contains|]. intros b.
  apply shape_when, shape_update.
  intros [v|v|cats v]; simpl; apply length_map.
Qed.

Lemma shape_read :
  triple (shape l ix n) (read l) (fun _ => shape l ix n).
Proof.
  intros h d h' HS E. unfold read in E. destruct (h !! l); [|discriminate].
  injection E as ? <-. exact HS.
Qed.

Lemma shape_cast_objects :
  triple (shape l ix n) (cast_objects l) (fun _ => shape l ix n).
Proof.
  eapply triple_bind; [apply shape_read|]. intros d.
  apply shape_for_each. intros c.
  apply shape_update. now intros [v|v|cats v].
Qed.

Lemma shape_derive_ratio (c a b : string) :
  triple (shape l ix n) (derive_ratio l c a b) (fun _ => shape l ix n).
Proof.
  unfold derive_ratio.
  eapply triple_bind; [apply shape_contains|]. intros ha.
  eapply triple_bind; [apply shape_contains|]. intros hb.
  apply shape_when.
  eapply triple_bind; [apply shape_get_col|]. intros ca.
  cbv beta; apply triple_pure. intros Ha.
  eapply triple_bind; [apply shape_get_col|]. intros cb.
  cbv beta; apply triple_pure. intros Hb.
  eapply triple_bind; [apply shape_lift|]. intros numer.
  cbv beta; apply triple_pure. intros Hn.
  eapply triple_bind; [apply shape_lift|]. intros denom.
  cbv beta; apply triple_pure. intros Hd. apply shape_set_col.
  destruct ca as [v| |]; try discriminate. injection Hn as <-.
  destruct cb as [w| |]; try discriminate. injection Hd as <-.
  intros k Hk. simpl. rewrite guard_ratio_length.
  specialize (Ha k Hk). specialize (Hb k Hk). simpl in Ha, Hb. lia.
Qed.

Lemma shape_derive_features :
  triple (shape l ix n) (derive_features l) (fun _ => shape l ix n).
Proof.
  unfold derive_features.
  eapply triple_bind; [apply shape_contains|]. intros b.
  eapply triple_bind.
  { apply shape_when, shape_update_num. intros v. apply length_map. }
  intros u. eapply triple_bind; [apply shape_contains|]. intros b'.
  eapply triple_bind.
  { apply shape_when.
    eapply triple_bind; [apply shape_get_col|]. intros col.
    cbv beta; apply triple_pure. intros Hok.
    eapply triple_bind.
    { apply shape_set_col, (col_ok_same col); [|exact Hok].
      destruct col; simpl; [apply length_map|reflexivity|reflexivity]. }
    intros u'. apply shape_update_num. intros v. apply length_map. }
  intros u'. eapply triple_bind; [apply shape_derive_ratio|].
  intros u1. eapply triple_bind; [apply shape_derive_ratio|].
  intros u2. apply shape_derive_ratio.
Qed.

Lemma shape_drop_missing :
  triple (shape l ix n) (drop_missing l) (fun _ => shape l ix n).
Proof.
  unfold drop_missing.
  eapply triple_bind; [apply shape_read|]. intros d.
  eapply triple_bind; [apply shape_drop_inplace|]. intros u.
  now apply triple_ret.
Qed.

Lemma shape_impute (ncs ccs : list string) :
  triple (shape l ix n) (impute float_repr l ncs ccs) (fun _ => shape l ix n).
Proof.
  unfold impute. eapply triple_bind.
  - apply shape_for_each. intros c.
    eapply triple_bind; [apply shape_get_col|]. intros col.
    cbv beta; apply triple_pure. intros Hok. apply shape_when.
    destruct col as [v| |]; try now apply triple_ret.
    apply shape_set_col, (col_ok_same (NumCol v)); [|exact Hok].
    simpl. apply length_map.
  - intros u. apply shape_for_each. intros c.
    eapply triple_bind; [apply shape_get_col|]. intros col.
    cbv beta; apply triple_pure. intros Hok. apply shape_when.
    eapply triple_bind; [apply shape_lift|]. intros filled.
    cbv beta; apply triple_pure. intros Hf. apply shape_set_col.
    apply (col_ok_same col); [|exact Hok].
    now apply (fillna_text_length _ _ _ Hf).
Qed.

Lemma shape_merge_rare_loop (cs : list string) :
  triple (shape l ix n) (merge_rare_loop float_repr l cs)
    (fun _ => shape l ix n).
Proof.
  induction cs as [|c cs IH]; cbn [merge_rare_loop];
    [now apply triple_ret|].
  eapply triple_bind; [apply shape_get_col|]. intros col.
  cbv beta; apply triple_pure. intros Hok.
  pose proof (length_map
                (fun x => Some (default (py_str x)
                   (snd (_merge_rare_levels (astype_string float_repr col)
                           (F64.lit 1 100)) !! py_str x)))
                (astype_string float_repr col)) as Hlen.
  change (map _ (astype_string float_repr col))
    with (fst (_merge_rare_levels (astype_string float_repr col)
                 (F64.lit 1 100))) in Hlen.
  destruct (_merge_rare_levels (astype_string float_repr col) (F64.lit 1 100))
    as [merged mapping]. simpl in Hlen.
  eapply triple_bind.
  { apply shape_set_col, (col_ok_same col); [|exact Hok].
    simpl. rewrite Hlen. destruct col; simpl; [apply length_map| |];
      reflexivity. }
  intros u. eapply triple_bind; [apply IH|]. intros rest.
  now apply triple_ret.
Qed.

Lemma shape_winsorize_loop (cs : list string) :
  triple (shape l ix n) (winsorize_loop float_parse l cs)
    (fun _ => shape l ix n).
Proof.
  induction cs as [|c cs IH]; cbn [winsorize_loop];
    [now apply triple_ret|].
  eapply triple_bind; [apply shape_get_col|]. intros col.
  cbv beta; apply triple_pure. intros Hok.
  eapply triple_bind; [apply shape_lift|]. intros v.
  cbv beta; apply triple_pure. intros Hv.
  pose proof (winsorize_length v (F64.lit 1 100) (F64.lit 99 100)) as Hlen.
  destruct (_winsorize v (F64.lit 1 100) (F64.lit 99 100))
    as [clipped params]. simpl in Hlen.
  eapply triple_bind.
  { apply shape_set_col, (col_ok_same col); [|exact Hok].
    simpl. rewrite Hlen. now apply astype_float_length. }
  intros u. eapply triple_bind; [apply IH|]. intros rest.
  now apply triple_ret.
Qed.

Lemma shape_income_brackets :
  triple (shape l ix n) (income_brackets l) (fun _ => shape l ix n).
Proof.
  unfold income_brackets.
  eapply triple_bind; [apply shape_contains|]. intros b.
  apply shape_when.
  eapply triple_bind; [apply shape_get_col|]. intros col.
  cbv beta; apply triple_pure. intros Hok.
  eapply triple_bind; [apply shape_lift|]. intros v.
  cbv beta; apply triple_pure. intros Hv. apply shape_set_col.
  destruct col as [w| |]; try discriminate. injection Hv as <-.
  apply (col_ok_same (NumCol w)); [simpl; apply length_map|exact Hok].
Qed.

Lemma shape_preprocess_steps :
  triple (shape l ix n) (preprocess_steps float_repr float_parse l)
    (fun r h => fst r = l /\ shape l ix n h).
Proof.
  unfold preprocess_steps.
  eapply triple_bind; [apply shape_cast_ids|]. intros u1.
  eapply triple_bind; [apply shape_cast_objects|]. intros u2.
  eapply triple_bind; [apply shape_derive_features|]. intros u3.
  eapply triple_bind; [apply shape_drop_missing|]. intros [miss drop].
  eapply triple_bind; [apply shape_read|]. intros d.
  eapply triple_bind; [apply shape_impute|]. intros u4.
  eapply triple_bind; [apply shape_merge_rare_loop|]. intros rare.
  eapply triple_bind; [apply shape_read|]. intros d'.
  eapply triple_bind; [apply shape_winsorize_loop|]. intros wp.
  eapply triple_bind; [apply shape_income_brackets|]. intros u5.
  eapply triple_bind; [apply shape_read|]. intros d''.
  apply triple_ret. intros h HS. split; [reflexivity|exact HS].
Qed.

End Shape.

(** X17.  The preprocessing neither adds, removes nor reorders rows: the
    dataframe it returns has the row index of the raw one.  And when every
    column of the raw dataframe has one cell per row, so has every column of
    the returned one. *)
Theorem preprocess_keeps_rows
    (float_repr : float -> string) (float_parse : string -> option float)
    (h h' : heap) (df out : loc) (raw : DataFrame) (art : Artifacts)
    (Hraw : h !! df = Some raw)
    (Hrun : preprocess_application_train float_repr float_parse df h
            = (Ok (out, art), h')) :
  exists clean, h' !! out = Some clean /\
    index clean = index raw /\
    (regular raw -> regular clean).
Proof.
  unfold preprocess_application_train in Hrun. rewrite bind_run in Hrun.
  unfold df_copy in Hrun. rewrite Hraw in Hrun.
  set (l := fresh (dom h)) in *. set (h1 := <[l := raw]> h) in *.
  cbv iota beta zeta in Hrun.
  destruct (shape_preprocess_steps float_repr float_parse l (index raw) None
              h1 (out, art) h') as (Hl & clean & Hc & Hix & _);
    [|exact Hrun|].
  { exists raw. split; [apply lookup_insert_eq|]. split; [reflexivity|].
    intros c col _ k Hk. discriminate Hk. }
  simpl in Hl. subst out. exists clean. split; [exact Hc|].
  split; [exact Hix|]. intros Hreg.
  destruct (shape_preprocess_steps float_repr float_parse l (index raw)
              (Some (df_len raw)) h1 (l, art) h')
    as (_ & clean' & Hc' & Hix' & Hcols); [|exact Hrun|].
  { exists raw. split; [apply lookup_insert_eq|]. split; [reflexivity|].
    intros c col Hin k [= <-]. now apply (Hreg c). }
  assert (clean' = clean) as -> by congruence.
  intros c col Hin. unfold df_len. rewrite Hix.
  now apply (Hcols c col Hin).
Qed.

Lemma preprocess_keeps_rows_witness :
  let raw := {| index := [4; 2; 7]%nat;
                columns := [("TARGET", NumCol (map F64.of_Z [1; 0; 0]));
                            ("DAYS_BIRTH",
                             NumCol (map F64.of_Z [-9000; -12000; -15000]));
                            ("CODE_GENDER", ObjCol [Some "M"; None; Some "F"])] |} in
  let h : heap := {[ 1%positive := raw ]} in
  h !! 1%positive = Some raw /\
  match preprocess_application_train (fun _ => "x") (fun _ => None)
          1%positive h with
  | (Ok (out, art), h') =>
      exists clean, h' !! out = Some clean /\
        index clean = [4; 2; 7]%nat /\ (regular raw -> regular clean)
  | (Raise _, _) => False
  end.
Proof.
  intros raw h. split; [reflexivity|].
  destruct (preprocess_application_train (fun _ => "x") (fun _ => None)
              1%positive h) as [[[out art]|e] h'] eqn:Hrun.
  - exact (preprocess_keeps_rows (fun _ => "x") (fun _ => None)
             h h' 1%positive out raw art eq_refl Hrun).
  - vm_compute in Hrun. discriminate Hrun.
Defined.

(** ** Range filters *)

Lemma df_get_mask (c : string) (m : list bool) (f : DataFrame) :
  df_get c (df_mask m f) = option_map (col_mask m) (df_get c f).
Proof.
  unfold df_get, df_mask; simpl.
  induction (columns f) as [|[k col] cols IH]; simpl; [reflexivity|].
  destruct (String.eqb c k); [reflexivity|exact IH].
Qed.

Lemma mask_filter_In {A} (m : list bool) (l : list A) (x : A) :
  In x (mask_filter m l) -> In x l.
Proof.
  revert l; induction m as [|b m IH]; intros [|y l]; simpl; try tauto.
  destruct b; simpl; [intros [->|H]; auto|auto].
Qed.

Lemma mask_filter_map_In {A} (p : A -> bool) (l : list A) (x : A) :
  In x (mask_filter (map p l) l) -> p x = true.
Proof.
  induction l as [|y l IH]; simpl; [tauto|].
  destruct (p y) eqn:E; [intros [<-|H]; auto|auto].
Qed.

Lemma row_selection_num (c : string) (f f' : DataFrame) (v : Series) :
  row_selection f' f -> df_get c f' = Some (NumCol v) ->
  exists v', df_get c f = Some (NumCol v') /\ forall x, In x v -> In x v'.
Proof.
  intros [->|[m ->]]; [eauto|]. rewrite df_get_mask.
  destruct (df_get c f) as [[w|w|cats w]|]; simpl; try discriminate.
  intros [= <-]. exists w. split; [reflexivity|]. apply mask_filter_In.
Qed.

Lemma income_bracket_filter_values (sb : Sidebar) (f : DataFrame)
    (vals : Values) :
  exists ext, snd (income_bracket_filter sb (f, vals)) = vals ++ ext.
Proof.
  unfold income_bracket_filter.
  destruct (df_get "INCOME_BRACKET" f) as [c|];
    [|exists []; simpl; now rewrite app_nil_r].
  destruct (multiselect sb "Income Bracket" _ _); simpl; eauto.
Qed.

Lemma employment_filter_values (sb : Sidebar) (f f' : DataFrame)
    (vals vals' : Values) :
  employment_filter sb (f, vals) = Ok (f', vals') ->
  exists ext, vals' = vals ++ ext.
Proof.
  unfold employment_filter.
  destruct (df_get "EMPLOYMENT_YEARS" f) as [c|];
    [|intros [= <- <-]; exists []; now rewrite app_nil_r].
  destruct (match c with
            | CatCol _ w => if all_missing w then Ok (map (fun _ => F64.nan) w)
                            else Raise "TypeError"
            | _ => numeric_view c
            end) as [v|e]; [|discriminate].
  cbn [mbind result_bind].
  destruct (match dropna v with
            | [] => (F64.zero, F64.zero)
            | _ => (np_floor (series_min v), np_ceil (series_max v))
            end) as [e_min e_max].
  destruct (range_slider sb "Employment Tenure (years)" _ _) as [rng|e];
    [|discriminate].
  cbn [mbind result_bind].
  destruct (match c with
            | CatCol _ _ => Raise "TypeError"
            | _ => Ok _
            end) as [mask_range|e']; [|discriminate].
  cbn [mbind result_bind]. intros [= <- <-]. eauto.
Qed.

Lemma age_filter_range (sb : Sidebar) (f f' : DataFrame) (vals vals' : Values)
    (v : Series) :
  age_filter sb (f, vals) = Ok (f', vals') ->
  df_get "AGE_YEARS" f' = Some (NumCol v) ->
  exists lo hi, In ("AGE_YEARS", FRange (lo, hi)) vals' /\
    forall x, In x v -> F64.leb lo x = true /\ F64.leb x hi = true.
Proof.
  unfold age_filter.
  destruct (df_get "AGE_YEARS" f) as [c|] eqn:Hc;
    [|intros [= <- <-]; congruence].
  destruct (numeric_view c) as [w|e] eqn:Hw; [|discriminate].
  cbn [mbind result_bind].
  destruct (range_slider sb "Age (years)" _ _) as [[lo hi]|e];
    [|discriminate].
  cbn [mbind result_bind fst snd].
  intros [= <- <-]. rewrite df_get_mask, Hc. simpl.
  destruct c as [w'| |]; try discriminate. simpl in Hw. injection Hw as ->.
  simpl. intros [= <-]. exists lo, hi. split.
  - apply in_or_app. right. now left.
  - intros x Hx. unfold between in Hx. apply mask_filter_map_In in Hx.
    apply andb_prop in Hx. exact Hx.
Qed.

Lemma employment_filter_range (sb : Sidebar) (f f' : DataFrame)
    (vals vals' : Values) (v : Series) :
  employment_filter sb (f, vals) = Ok (f', vals') ->
  df_get "EMPLOYMENT_YEARS" f' = Some (NumCol v) ->
  exists lo hi inc,
    In ("EMPLOYMENT_YEARS", FRange (lo, hi)) vals' /\
    In ("INCLUDE_UNEMPLOYED", FFlag inc) vals' /\
    forall x, In x v ->
      (F64.leb lo x = true /\ F64.leb x hi = true) \/
      (inc = true /\ F64.is_nan x = true).
Proof.
  intros E Hv.
  destruct (row_selection_num "EMPLOYMENT_YEARS" f f' v) as (w & Hc & _);
    [now apply (employment_filter_selection sb f f' f vals vals'
                  (row_selection_refl f))|exact Hv|].
  unfold employment_filter in E. rewrite Hc in E.
  cbn [numeric_view isna mbind result_bind] in E.
  destruct (match dropna w with
            | [] => (F64.zero, F64.zero)
            | _ => (np_floor (series_min w), np_ceil (series_max w))
            end) as [e_min e_max].
  destruct (range_slider sb "Employment Tenure (years)" _ _) as [[lo hi]|e];
    [|discriminate].
  cbn [mbind result_bind fst snd] in E.
  set (inc := checkbox sb "Include Unemployed (missing tenure)" true) in *.
  injection E as <- <-. rewrite df_get_mask, Hc in Hv. simpl in Hv.
  injection Hv as <-. exists lo, hi, inc.
  split; [apply in_or_app; right; now left|].
  split; [apply in_or_app; right; right; now left|].
  intros x Hx. unfold between in Hx.
  rewrite combine_map_same in Hx. destruct inc.
  - rewrite map_map in Hx. apply mask_filter_map_In in Hx.
    apply orb_prop in Hx as [Hx|Hx]; [left; now apply andb_prop in Hx|auto].
  - rewrite map_map in Hx. apply mask_filter_map_In in Hx.
    apply andb_prop in Hx as [Hx _]. left. now apply andb_prop in Hx.
Qed.

(** X18.  The rows [get_filtered_df] returns respect the two sliders.  When
    the returned dataframe has a numeric age column, the chosen age range is
    recorded and every age left lies in it, ends included: rows with a
    missing age are dropped.  When it has a numeric tenure column, the
    chosen range and the checkbox are recorded, and every tenure left lies
    in the range or is missing, the latter only when the checkbox is
    ticked. *)
Theorem get_filtered_df_ranges (sb : Sidebar) (df f : DataFrame)
    (section_title : string) (show_reset_button : bool) (values : Values)
    (H : get_filtered_df sb df section_title show_reset_button
         = Ok (f, values)) :
  (forall v, df_get "AGE_YEARS" f = Some (NumCol v) ->
     exists lo hi, In ("AGE_YEARS", FRange (lo, hi)) values /\
       forall x, In x v -> F64.leb lo x = true /\ F64.leb x hi = true) /\
  (forall v, df_get "EMPLOYMENT_YEARS" f = Some (NumCol v) ->
     exists lo hi inc,
       In ("EMPLOYMENT_YEARS", FRange (lo, hi)) values /\
       In ("INCLUDE_UNEMPLOYED", FFlag inc) values /\
       forall x, In x v ->
         (F64.leb lo x = true /\ F64.leb x hi = true) \/
         (inc = true /\ F64.is_nan x = true)).
Proof.
  unfold get_filtered_df in H. cbv zeta in H.
  destruct (categorical_filter sb "Housing Type" "NAME_HOUSING_TYPE" _)
    as [f4 v4].
  destruct (age_filter sb (f4, v4)) as [[f5 v5]|e] eqn:E5; [|discriminate].
  cbn [mbind result_bind] in H.
  pose proof (income_bracket_filter_selection sb f5 f5 v5
                (row_selection_refl f5)) as H6.
  destruct (income_bracket_filter_values sb f5 v5) as (ext6 & Hv6).
  destruct (income_bracket_filter sb (f5, v5)) as [f6 v6].
  simpl in H6, Hv6. subst v6.
  destruct (employment_filter sb (f6, v5 ++ ext6)) as [[f7 v7]|e] eqn:E7;
    [|discriminate].
  cbn [mbind result_bind] in H.
  pose proof (employment_filter_selection sb f6 f7 f6 _ _
                (row_selection_refl f6) E7) as H7.
  destruct (employment_filter_values sb f6 f7 _ _ E7) as (ext7 & ->).
  destruct (show_reset_button && button sb "Reset Filters"); [discriminate|].
  injection H as <- <-. split.
  - intros v Hv.
    destruct (row_selection_num "AGE_YEARS" f6 f7 v H7 Hv) as (v6 & Hv6 & S6).
    destruct (row_selection_num "AGE_YEARS" f5 f6 v6 H6 Hv6)
      as (v5' & Hv5 & S5).
    destruct (age_filter_range sb f4 f5 v4 v5 v5' E5 Hv5)
      as (lo & hi & Hin & Hr).
    exists lo, hi. split; [apply in_or_app; left; apply in_or_app; now left|].
    intros x Hx. apply Hr, S5, S6, Hx.
  - intros v Hv. exact (employment_filter_range sb f6 f7 _ _ v E7 Hv).
Qed.

Lemma get_filtered_df_ranges_witness :
  let df := {| index := seq 0 3;
               columns := [("AGE_YEARS", NumCol (map F64.of_Z [25; 40; 61]));
                           ("EMPLOYMENT_YEARS",
                            NumCol [F64.of_Z 3; F64.nan; F64.of_Z 10])] |} in
  match get_filtered_df default_sidebar df "Global Filters" true with
  | Ok (f, values) =>
      (forall v, df_get "AGE_YEARS" f = Some (NumCol v) ->
         exists lo hi, In ("AGE_YEARS", FRange (lo, hi)) values /\
           forall x, In x v -> F64.leb lo x = true /\ F64.leb x hi = true) /\
      (forall v, df_get "EMPLOYMENT_YEARS" f = Some (NumCol v) ->
         exists lo hi inc,
           In ("EMPLOYMENT_YEARS", FRange (lo, hi)) values /\
           In ("INCLUDE_UNEMPLOYED", FFlag inc) values /\
           forall x, In x v ->
             (F64.leb lo x = true /\ F64.leb x hi = true) \/
             (inc = true /\ F64.is_nan x = true))
  | Raise _ => False
  end.
Proof.
  intros df.
  destruct (get_filtered_df default_sidebar df "Global Filters" true)
    as [[f values]|e] eqn:E.
  - exact (get_filtered_df_ranges default_sidebar df f "Global Filters" true
             values E).
  - vm_compute in E. discriminate E.
Defined.

(** ** Selections *)

Lemma row_keys_mask (m : list bool) (c : Column) :
  row_keys (col_mask m c) = mask_filter m (row_keys c).
Proof.
  assert (forall {A B} (g : A -> B) (l : list A),
            map g (mask_filter m l) = mask_filter m (map g l)) as Hmap.
  { intros A B g. induction m as [|b m IH]; intros [|x l]; simpl;
      try reflexivity.
    destruct b; simpl; now rewrite IH. }
  destruct c; simpl; apply Hmap.
Qed.

Lemma selected_step (col : string) (st st' : DataFrame * Values) :
  selected col st -> filter_step st st' -> selected col st'.
Proof.
  intros Hs [Hr (ext & Hv)] c' Hc'.
  assert (exists c, df_get col (fst st) = Some c /\
                    forall k, In k (row_keys c') -> In k (row_keys c))
    as (c & Hc & Hsub).
  { destruct Hr as [E|[m E]]; rewrite E in Hc'; [eauto|].
    rewrite df_get_mask in Hc'.
    destruct (df_get col (fst st)) as [c|]; [|discriminate].
    injection Hc' as <-. exists c. split; [reflexivity|].
    intros k. rewrite row_keys_mask. apply mask_filter_In. }
  destruct (Hs c Hc) as (sel & Hin & Hsel). exists sel.
  split; [rewrite Hv; apply in_or_app; now left|].
  destruct Hsel as [->|Hsel]; [now left|right]. auto.
Qed.

Lemma selected_isin (col : string) (f : DataFrame) (vals : Values)
    (c0 : Column) (sel : list Cell) :
  df_get col f = Some c0 ->
  selected col (df_mask (isin sel c0) f, vals ++ [(col, FSel sel)]).
Proof.
  intros Hc c. simpl. rewrite df_get_mask, Hc. simpl. intros [= <-].
  exists sel. split; [apply in_or_app; right; now left|]. right.
  intros k. rewrite row_keys_mask. unfold isin. intros Hk.
  apply mask_filter_map_In in Hk. now apply bool_decide_eq_true_1 in Hk.
Qed.

Lemma categorical_filter_step (sb : Sidebar) (label col : string)
    (st : DataFrame * Values) :
  filter_step st (categorical_filter sb label col st) /\
  selected col (categorical_filter sb label col st).
Proof.
  destruct st as [f vals]. split.
  - split; [apply categorical_filter_selection, row_selection_refl|].
    unfold categorical_filter.
    destruct (df_get col f) as [c|];
      [|exists []; simpl; now rewrite app_nil_r].
    destruct (multiselect sb label _ _); simpl; eauto.
  - unfold categorical_filter.
    destruct (df_get col f) as [c0|] eqn:Hc; [|intros c; simpl; congruence].
    destruct (multiselect sb label _ _) as [|k sel] eqn:Es.
    + intros c _. exists []. simpl.
      split; [apply in_or_app; right; now left|now left].
    + now apply selected_isin.
Qed.

Lemma income_bracket_filter_step (sb : Sidebar) (st : DataFrame * Values) :
  filter_step st (income_bracket_filter sb st) /\
  selected "INCOME_BRACKET" (income_bracket_filter sb st).
Proof.
  destruct st as [f vals]. split.
  - split; [apply income_bracket_filter_selection, row_selection_refl|].
    apply income_bracket_filter_values.
  - unfold income_bracket_filter.
    destruct (df_get "INCOME_BRACKET" f) as [c0|] eqn:Hc;
      [|intros c; simpl; congruence].
    destruct (multiselect sb "Income Bracket" _ _) as [|k sel] eqn:Es.
    + intros c _. exists []. simpl.
      split; [apply in_or_app; right; now left|now left].
    + now apply selected_isin.
Qed.

Lemma age_filter_step (sb : Sidebar) (st st' : DataFrame * Values) :
  age_filter sb st = Ok st' -> filter_step st st'.
Proof.
  destruct st as [f vals], st' as [f' vals']. intros E. split.
  - now apply (age_filter_selection sb f f' f vals vals'
                 (row_selection_refl f)).
  - unfold age_filter in E.
    destruct (df_get "AGE_YEARS" f) as [c|];
      [|injection E as <- <-; exists []; simpl; now rewrite app_nil_r].
    destruct (numeric_view c) as [v|e]; [|discriminate].
    cbn [mbind result_bind] in E.
    destruct (range_slider sb "Age (years)" _ _) as [rng|e]; [|discriminate].
    cbn [mbind result_bind] in E. injection E as <- <-. simpl. eauto.
Qed.

Lemma employment_filter_step (sb : Sidebar) (st st' : DataFrame * Values) :
  employment_filter sb st = Ok st' -> filter_step st st'.
Proof.
  destruct st as [f vals], st' as [f' vals']. intros E. split.
  - now apply (employment_filter_selection sb f f' f vals vals'
                 (row_selection_refl f)).
  - now apply (employment_filter_values sb f f').
Qed.

(** X19.  The rows [get_filtered_df] returns respect every multi-select.
    For each of the four categorical filters and for the income bracket,
    when the returned dataframe has the column, the selection is recorded,
    and unless it is empty every cell of the column in the returned
    dataframe is one of the selected values. *)
Theorem get_filtered_df_selections (sb : Sidebar) (df f : DataFrame)
    (section_title : string) (show_reset_button : bool) (values : Values)
    (H : get_filtered_df sb df section_title show_reset_button
         = Ok (f, values)) :
  forall col, In col categorical_filter_cols \/ col = "INCOME_BRACKET" ->
    forall c, df_get col f = Some c ->
      exists sel, In (col, FSel sel) values /\
                  (sel = [] \/ forall k, In k (row_keys c) -> k ∈ sel).
Proof.
  unfold get_filtered_df in H. cbv zeta in H.
  destruct (categorical_filter_step sb "Gender" "CODE_GENDER" (df, []))
    as [_ S1].
  set (st1 := categorical_filter sb "Gender" "CODE_GENDER" (df, [])) in *.
  destruct (categorical_filter_step sb "Education" "NAME_EDUCATION_TYPE" st1)
    as [T2 S2].
  set (st2 := categorical_filter sb "Education" "NAME_EDUCATION_TYPE" st1)
    in *.
  destruct (categorical_filter_step sb "Family Status" "NAME_FAMILY_STATUS"
              st2) as [T3 S3].
  set (st3 := categorical_filter sb "Family Status" "NAME_FAMILY_STATUS" st2)
    in *.
  destruct (categorical_filter_step sb "Housing Type" "NAME_HOUSING_TYPE"
              st3) as [T4 S4].
  set (st4 := categorical_filter sb "Housing Type" "NAME_HOUSING_TYPE" st3)
    in *.
  destruct (age_filter sb st4) as [st5|e] eqn:E5; [|discriminate].
  cbn [mbind result_bind] in H.
  pose proof (age_filter_step sb st4 st5 E5) as T5.
  destruct (income_bracket_filter_step sb st5) as [T6 S6].
  set (st6 := income_bracket_filter sb st5) in *.
  destruct (employment_filter sb st6) as [st7|e] eqn:E7; [|discriminate].
  cbn [mbind result_bind] in H.
  pose proof (employment_filter_step sb st6 st7 E7) as T7.
  destruct (show_reset_button && button sb "Reset Filters"); [discriminate|].
  injection H as ->.
  assert (forall col st, selected col st -> filter_step st st4 ->
            selected col (f, values)) as Hend.
  { intros col st Hs Hst.
    apply (selected_step col st6); [|exact T7].
    apply (selected_step col st5); [|exact T6].
    apply (selected_step col st4); [|exact T5].
    now apply (selected_step col st). }
  intros col [Hcol| ->].
  - destruct Hcol as [<-|[<-|[<-|[<-|[]]]]].
    + apply (Hend _ st1 S1). destruct T2 as [R2 (e2 & V2)],
        T3 as [R3 (e3 & V3)], T4 as [R4 (e4 & V4)].
      split.
      * destruct R2 as [E2|[m2 E2]], R3 as [E3|[m3 E3]], R4 as [E4|[m4 E4]];
          rewrite E4, E3, E2;
          repeat apply row_selection_mask; apply row_selection_refl.
      * exists (e2 ++ e3 ++ e4). rewrite V4, V3, V2.
        now rewrite <- !app_assoc.
    + apply (Hend _ st2 S2). destruct T3 as [R3 (e3 & V3)],
        T4 as [R4 (e4 & V4)].
      split.
      * destruct R3 as [E3|[m3 E3]], R4 as [E4|[m4 E4]];
          rewrite E4, E3;
          repeat apply row_selection_mask; apply row_selection_refl.
      * exists (e3 ++ e4). rewrite V4, V3. now rewrite <- !app_assoc.
    + apply (Hend _ st3 S3). exact T4.
    + apply (Hend _ st4 S4). split; [apply row_selection_refl|].
      exists []. now rewrite app_nil_r.
  - exact (selected_step "INCOME_BRACKET" st6 (f, values) S6 T7).
Qed.

Lemma get_filtered_df_selections_witness :
  let sb := {| multiselect := fun _ _ _ => [CStr "F"];
               slider := fun _ _ _ d => d;
               checkbox := fun _ d => d;
               button := fun _ => false |} in
  let df := {| index := seq 0 3;
               columns := [("CODE_GENDER",
                            ObjCol [Some "M"; Some "F"; Some "F"]);
                           ("TARGET", NumCol (map F64.of_Z [1; 0; 0]))] |} in
  match get_filtered_df sb df "Global Filters" true with
  | Ok (f, values) =>
      forall col, In col categorical_filter_cols \/ col = "INCOME_BRACKET" ->
        forall c, df_get col f = Some c ->
          exists sel, In (col, FSel sel) values /\
                      (sel = [] \/ forall k, In k (row_keys c) -> k ∈ sel)
  | Raise _ => False
  end.
Proof.
  intros sb df.
  destruct (get_filtered_df sb df "Global Filters" true)
    as [[f values]|e] eqn:E.
  - exact (get_filtered_df_selections sb df f "Global Filters" true values E).
  - vm_compute in E. discriminate E.
Defined.

(** ** Shape of the correlation tables *)

Lemma map_fst_filter_sublist {A B} (P : A * B -> bool) (l : list (A * B)) :
  map fst (List.filter P l) `sublist_of` map fst l.
Proof.
  induction l as [|x l IH]; simpl; [constructor|].
  destruct (P x); simpl; [now apply sublist_skip|now apply sublist_cons].
Qed.

Lemma numeric_columns_sublist (df : DataFrame) :
  map fst (numeric_columns df) `sublist_of` df_columns df.
Proof.
  unfold numeric_columns, df_columns.
  induction (columns df) as [|[c col] cols IH]; simpl; [constructor|].
  destruct col; simpl; [now apply sublist_skip| |]; now apply sublist_cons.
Qed.

Lemma tgt_corr_labels {A} (g : string -> A -> float) (l : list (string * A)) :
  map fst (map (fun '(c, v) => (c, g c v))
             (List.filter (fun '(c, _) => negb (String.eqb c TARGET)) l)) =
  List.filter (fun c => negb (String.eqb c TARGET)) (map fst l).
Proof.
  induction l as [|[c v] l IH]; simpl; [reflexivity|].
  destruct (String.eqb c TARGET); simpl; now rewrite IH.
Qed.

(** X20.  The matrix [compute_corr] returns is square over its labels, and
    the labels are columns of the dataframe, in the dataframe's order.  The
    series of correlations to the outcome has one entry for every label of
    the matrix other than TARGET, in the same order, when TARGET is one of
    the labels, and is empty when it is not. *)
Theorem compute_corr_shape (pairwise_corr : string -> Series -> Series -> float)
    (df : DataFrame) (method : string) :
  let corr := fst (compute_corr pairwise_corr df method) in
  let tgt_corr := snd (compute_corr pairwise_corr df method) in
  List.length (entries corr) = List.length (labels corr) /\
  (forall row, In row (entries corr) ->
               List.length row = List.length (labels corr)) /\
  labels corr `sublist_of` df_columns df /\
  map fst tgt_corr =
    if bool_decide (TARGET ∈ labels corr)
    then List.filter (fun c => negb (String.eqb c TARGET)) (labels corr)
    else [].
Proof.
  cbv zeta. split; [|split; [|split]].
  - unfold compute_corr. cbv zeta.
    destruct (List.filter _ (numeric_columns df)); simpl; [reflexivity|].
    now rewrite !length_map.
  - unfold compute_corr. cbv zeta.
    destruct (List.filter _ (numeric_columns df)) as [|p keep]; simpl;
      [tauto|].
    intros row [<-|Hrow]; [destruct p; simpl; now rewrite !length_map|].
    apply in_map_iff in Hrow as ([c v] & <- & _). simpl.
    now rewrite !length_map.
  - rewrite compute_corr_labels.
    etransitivity; [apply map_fst_filter_sublist|].
    apply numeric_columns_sublist.
  - rewrite compute_corr_labels. unfold compute_corr. cbv zeta.
    set (keep := List.filter _ (numeric_columns df)).
    destruct keep as [|p keep'] eqn:E; [reflexivity|].
    rewrite <- E. clear E. cbn [snd].
    destruct (List.find (fun '(c, _) => String.eqb c TARGET) keep)
      as [[c0 t]|] eqn:Ef.
    + apply find_some in Ef as [Hin Heq]. apply String.eqb_eq in Heq.
      subst c0. rewrite bool_decide_eq_true_2.
      * apply (tgt_corr_labels (fun _ v => pairwise_corr method v t)).
      * apply list_elem_of_In, in_map_iff. now exists (TARGET, t).
    + rewrite bool_decide_eq_false_2; [reflexivity|].
      intros Hin. apply list_elem_of_In, in_map_iff in Hin
        as ([c v] & Hc & Hin). simpl in Hc. subst c.
      pose proof (find_none _ _ Ef _ Hin) as Hn. cbv in Hn.
      discriminate Hn.
Qed.

(** ** Tiles and samples *)

Lemma dropna_all_missing (v : Series) :
  (forall x, In x v -> F64.is_nan x = true) -> dropna v = [].
Proof.
  intros H. unfold dropna. induction v as [|x v IH]; simpl; [reflexivity|].
  rewrite (H x) by now left. simpl. apply IH. intros y Hy. apply H. now right.
Qed.

(** X21.  A default rate taken over no observation shows as N/A: when the
    series has no cell, or only missing cells, [default_rate] is NaN and the
    tile [kpi] makes of it shows the text N/A, whatever the format. *)
Theorem default_rate_tile_missing
    (py_format : string -> KpiValue -> string) (label fmt : string)
    (help_text : option string) (v : Series)
    (H : forall x, In x v -> F64.is_nan x = true) :
  F64.is_nan (default_rate v) = true /\
  metric_value (kpi py_format label (KFloat (default_rate v)) fmt help_text)
    = "N/A".
Proof.
  assert (default_rate v = F64.nan) as ->.
  { unfold default_rate, mean. cbv zeta.
    now rewrite (dropna_all_missing v H). }
  split; reflexivity.
Qed.

Lemma default_rate_tile_missing_witness :
  F64.is_nan (default_rate [F64.nan; F64.nan]) = true /\
  metric_value (kpi (fun _ _ => "12.50%") "Default Rate (%)"
                  (KFloat (default_rate [F64.nan; F64.nan])) "{:.2f}%" None)
    = "N/A".
Proof.
  apply (default_rate_tile_missing (fun _ _ => "12.50%") "Default Rate (%)"
           "{:.2f}%" None [F64.nan; F64.nan]).
  intros x [<-|[<-|[]]]; reflexivity.
Defined.

(** X22.  [sample_df] returns its argument itself, the same object, when it
    has at most [n] rows; on a larger dataframe it raises for a negative
    [n], and otherwise returns a new dataframe, leaving the existing ones as
    they are, with the columns of the argument and, when the draw has [n]
    positions, [n] rows. *)
Theorem sample_df_small_or_new (draw : nat -> nat -> Z -> list nat)
    (h : heap) (df : loc) (d : DataFrame) (n seed : Z)
    (H : h !! df = Some d) :
  (Z.of_nat (df_len d) <= n -> sample_df draw df n seed h = (Ok df, h)) /\
  (n < Z.of_nat (df_len d) -> n < 0 ->
   sample_df draw df n seed h = (Raise "ValueError", h)) /\
  (n < Z.of_nat (df_len d) -> 0 <= n ->
   exists out f,
     sample_df draw df n seed h = (Ok out, <[out := f]> h) /\
     h !! out = None /\
     df_columns f = df_columns d /\
     (List.length (draw (df_len d) (Z.to_nat n) seed) = Z.to_nat n ->
      Z.of_nat (df_len f) = n)).
Proof.
  unfold sample_df. rewrite bind_run. unfold read. rewrite H.
  cbv iota beta. split; [|split].
  - intros Hn. apply Z.leb_le in Hn. now rewrite Hn.
  - intros Hn Hneg. apply Z.leb_gt in Hn. rewrite Hn.
    apply Z.ltb_lt in Hneg. now rewrite Hneg.
  - intros Hn Hpos. apply Z.leb_gt in Hn. rewrite Hn.
    apply Z.ltb_ge in Hpos. rewrite Hpos.
    eexists _, _. split; [reflexivity|].
    split; [apply not_elem_of_dom, is_fresh|]. split.
    + unfold df_columns, df_take; simpl. rewrite map_map.
      apply map_ext. now intros [c col].
    + intros Hlen. unfold df_len, df_take in *; simpl.
      rewrite length_map, Hlen. apply Z.ltb_ge in Hpos. lia.
Qed.

Lemma sample_df_small_or_new_witness :
  let d := {| index := seq 0 3;
              columns := [("TARGET", NumCol (map F64.of_Z [1; 0; 0]))] |} in
  let h : heap := {[ 1%positive := d ]} in
  let draw := fun (len k : nat) (seed : Z) => seq 0 k in
  sample_df draw 1%positive 5 42 h = (Ok 1%positive, h) /\
  sample_df draw 1%positive (-1) 42 h = (Raise "ValueError", h) /\
  exists out f,
    sample_df draw 1%positive 2 42 h = (Ok out, <[out := f]> h) /\
    h !! out = None /\
    df_columns f = df_columns d /\
    (List.length (draw (df_len d) (Z.to_nat 2) 42) = Z.to_nat 2 ->
     Z.of_nat (df_len f) = 2).
Proof.
  intros d h draw.
  split; [|split].
  - apply (sample_df_small_or_new draw h 1%positive d 5 42
             (lookup_singleton_eq _ _)). unfold d, df_len; simpl. lia.
  - apply (sample_df_small_or_new draw h 1%positive d (-1) 42
             (lookup_singleton_eq _ _)); unfold d, df_len; simpl; lia.
  - apply (sample_df_small_or_new draw h 1%positive d 2 42
             (lookup_singleton_eq _ _)); unfold d, df_len; simpl; lia.
Defined.

(** ** Categorical columns after the pipeline *)

Lemma triple_pre {A} (P P' : heap -> Prop) (m : M A) (Q : A -> heap -> Prop) :
  (forall h, P' h -> P h) -> triple P m Q -> triple P' m Q.
Proof. intros HP Hm h a h' HP' E. exact (Hm h a h' (HP h HP') E). Qed.

Lemma triple_same {A} (P : heap -> Prop) (m : M A) :
  (forall h, snd (m h) = h) -> triple P m (fun _ => P).
Proof.
  intros Hm h a h' HP E. specialize (Hm h). rewrite E in Hm. simpl in Hm.
  now subst h'.
Qed.

Lemma triple_when (P : heap -> Prop) (b : bool) (m : M unit) :
  triple P m (fun _ => P) -> triple P (when b m) (fun _ => P).
Proof. intros H. destruct b; [exact H|]. now apply triple_ret. Qed.

Lemma triple_for_each {A} (P : heap -> Prop) (xs : list A)
    (body : A -> M unit) :
  (forall x, In x xs -> triple P (body x) (fun _ => P)) ->
  triple P (for_each xs body) (fun _ => P).
Proof.
  induction xs as [|x xs IH]; intros H; simpl; [now apply triple_ret|].
  eapply triple_bind; [apply H; now left|]. intros u.
  apply IH. intros y Hy. apply H. now right.
Qed.

Lemma read_same (l : loc) (h : heap) : snd (read l h) = h.
Proof. unfold read. now destruct (h !! l). Qed.

Lemma contains_same (l : loc) (c : string) (h : heap) :
  snd (contains l c h) = h.
Proof.
  unfold contains. rewrite bind_run. unfold read. now destruct (h !! l).
Qed.

Lemma get_col_same (l : loc) (c : string) (h : heap) :
  snd (get_col l c h) = h.
Proof.
  unfold get_col. rewrite bind_run. unfold read.
  destruct (h !! l) as [d|]; [|reflexivity]. now destruct (df_get c d).
Qed.

Lemma cat_cols_In (d : DataFrame) (c : string) (col : Column) :
  df_get c d = Some col -> protected c = false ->
  tidy col \/ In c (cat_cols d).
Proof.
  intros Hc Hp. destruct col as [v|v|cats v]; [now left| |]; right;
    unfold cat_cols; apply in_map_iff;
    [exists (c, ObjCol v)|exists (c, CatCol cats v)];
    (split; [reflexivity|]); apply filter_In;
    (split; [now apply df_get_In|]); now rewrite Hp.
Qed.

Section Tidy.

Context (float_repr : float -> string) (float_parse : string -> option float).
Context (l : loc).

Lemma tidy_set_col (cs : list string) (c : string) (X : Column) :
  tidy X \/ In c cs ->
  triple (tidy_but l cs) (set_col l c X) (fun _ => tidy_but l cs).
Proof.
  intros HX h u h' (d & Hd & Hcols) E.
  unfold set_col in E. rewrite bind_run in E. unfold read in E.
  rewrite Hd in E. unfold write in E. injection E as ? <-.
  exists (df_set c X d). split; [apply lookup_insert_eq|].
  intros c' col' Hc' Hp. destruct (String.eqb_spec c' c) as [->|Hne].
  - unfold df_get, df_set in Hc'. simpl in Hc'.
    rewrite assoc_get_set_eq in Hc'. now injection Hc' as <-.
  - rewrite df_get_set_ne in Hc' by assumption. eauto.
Qed.

Lemma tidy_impute (ncs ccs : list string) :
  triple (tidy_but l ccs) (impute float_repr l ncs ccs)
    (fun _ => tidy_but l ccs).
Proof.
  unfold impute. eapply triple_bind.
  - apply triple_for_each. intros c _.
    eapply triple_bind; [apply triple_same, get_col_same|]. intros col.
    apply triple_when. destruct col as [v| |]; try now apply triple_ret.
    apply tidy_set_col. now left.
  - intros u. apply triple_for_each. intros c Hc.
    eapply triple_bind; [apply triple_same, get_col_same|]. intros col.
    apply triple_when.
    eapply triple_bind; [apply triple_same; reflexivity|]. intros filled.
    apply tidy_set_col. now right.
Qed.

Lemma tidy_merge_rare_loop (cs : list string) :
  triple (tidy_but l cs) (merge_rare_loop float_repr l cs)
    (fun _ => tidy_but l []).
Proof.
  induction cs as [|c cs IH]; cbn [merge_rare_loop];
    [now apply triple_ret|].
  eapply triple_bind; [apply triple_same, get_col_same|]. intros col.
  assert (tidy (as_category
                  (fst (_merge_rare_levels (astype_string float_repr col)
                          (F64.lit 1 100))))) as Ht.
  { unfold _merge_rare_levels; simpl. intros x Hx.
    apply in_map_iff in Hx as (y & <- & _). discriminate. }
  destruct (_merge_rare_levels (astype_string float_repr col) (F64.lit 1 100))
    as [merged mapping]. simpl in Ht.
  eapply triple_bind with (R := fun _ => tidy_but l cs).
  - intros h u h' (d & Hd & Hcols) E.
    unfold set_col in E. rewrite bind_run in E. unfold read in E.
    rewrite Hd in E. unfold write in E. injection E as ? <-.
    exists (df_set c (as_category merged) d).
    split; [apply lookup_insert_eq|].
    intros c' col' Hc' Hp. destruct (String.eqb_spec c' c) as [->|Hne].
    + unfold df_get, df_set in Hc'. simpl in Hc'.
      rewrite assoc_get_set_eq in Hc'. injection Hc' as <-. now left.
    + rewrite df_get_set_ne in Hc' by assumption.
      destruct (Hcols c' col' Hc' Hp) as [?|[->|?]]; auto. congruence.
  - intros u. eapply triple_bind; [apply IH|]. intros rest.
    now apply triple_ret.
Qed.

Lemma tidy_winsorize_loop (cs : list string) :
  triple (tidy_but l []) (winsorize_loop float_parse l cs)
    (fun _ => tidy_but l []).
Proof.
  induction cs as [|c cs IH]; cbn [winsorize_loop];
    [now apply triple_ret|].
  eapply triple_bind; [apply triple_same, get_col_same|]. intros col.
  eapply triple_bind; [apply triple_same; reflexivity|]. intros v.
  destruct (_winsorize v (F64.lit 1 100) (F64.lit 99 100))
    as [clipped params].
  eapply triple_bind; [apply tidy_set_col; now left|]. intros u.
  eapply triple_bind; [apply IH|]. intros rest. now apply triple_ret.
Qed.

Lemma tidy_income_brackets :
  triple (tidy_but l []) (income_brackets l) (fun _ => tidy_but l []).
Proof.
  unfold income_brackets.
  eapply triple_bind; [apply triple_same, contains_same|]. intros b.
  apply triple_when.
  eapply triple_bind; [apply triple_same, get_col_same|]. intros col.
  eapply triple_bind; [apply triple_same; reflexivity|]. intros v.
  apply tidy_set_col. left. simpl. intros x Hx.
  apply in_map_iff in Hx as (y & <- & _). discriminate.
Qed.

Lemma tidy_preprocess_steps :
  triple (fun _ => True) (preprocess_steps float_repr float_parse l)
    (fun r h => fst r = l /\ tidy_but l [] h).
Proof.
  unfold preprocess_steps.
  do 3 (apply triple_skip; intros _).
  apply triple_skip; intros [miss drop].
  eapply triple_bind; [apply triple_read|]. intros d.
  apply (triple_pre (tidy_but l (cat_cols d))).
  { intros h [_ Hd]. exists d. split; [exact Hd|]. apply cat_cols_In. }
  eapply triple_bind; [apply tidy_impute|]. intros u.
  eapply triple_bind; [apply tidy_merge_rare_loop|]. intros rare.
  eapply triple_bind; [apply triple_same, read_same|]. intros d'.
  eapply triple_bind; [apply tidy_winsorize_loop|]. intros wp.
  eapply triple_bind; [apply tidy_income_brackets|]. intros u'.
  eapply triple_bind; [apply triple_same, read_same|]. intros d''.
  apply triple_ret. intros h Hh. split; [reflexivity|exact Hh].
Qed.

End Tidy.

(** X23.  In the dataframe the preprocessing returns, every column other
    than the identifier and the outcome is numeric or categorical, and a
    categorical column has no missing cell: no column of [object] dtype and
    no missing category is left. *)
Theorem preprocess_no_missing_category
    (float_repr : float -> string) (float_parse : string -> option float)
    (h h' : heap) (df out : loc) (art : Artifacts)
    (Hrun : preprocess_application_train float_repr float_parse df h
            = (Ok (out, art), h')) :
  exists clean, h' !! out = Some clean /\
    forall c col, df_get c clean = Some col ->
      c <> "SK_ID_CURR" -> c <> TARGET_COL ->
      (exists v, col = NumCol v) \/
      (exists cats w, col = CatCol cats w /\ forall x, In x w -> x <> None).
Proof.
  unfold preprocess_application_train in Hrun. rewrite bind_run in Hrun.
  destruct (df_copy df h) as [[l|e] h1]; [|discriminate].
  destruct (tidy_preprocess_steps float_repr float_parse l h1 (out, art) h' I
              Hrun) as (Hl & clean & Hc & Hcols).
  simpl in Hl. subst l. exists clean. split; [exact Hc|].
  intros c col Hcol Hid Ht.
  assert (protected c = false) as Hp.
  { unfold protected, name_in, ID_COLS. simpl.
    destruct (String.eqb_spec c "SK_ID_CURR"); [congruence|].
    destruct (String.eqb_spec c TARGET_COL); [congruence|reflexivity]. }
  destruct (Hcols c col Hcol Hp) as [Htidy|[]].
  destruct col as [v| |cats w]; [eauto|destruct Htidy|right; eauto].
Qed.

Lemma preprocess_no_missing_category_witness :
  let raw := {| index := seq 0 3;
                columns := [("TARGET", NumCol (map F64.of_Z [1; 0; 0]));
                            ("CODE_GENDER", ObjCol [Some "M"; None; Some "F"])] |} in
  let h : heap := {[ 1%positive := raw ]} in
  match preprocess_application_train (fun _ => "x") (fun _ => None)
          1%positive h with
  | (Ok (out, art), h') =>
      exists clean, h' !! out = Some clean /\
        forall c col, df_get c clean = Some col ->
          c <> "SK_ID_CURR" -> c <> TARGET_COL ->
          (exists v, col = NumCol v) \/
          (exists cats w, col = CatCol cats w /\
                          forall x, In x w -> x <> None)
  | (Raise _, _) => False
  end.
Proof.
  intros raw h.
  destruct (preprocess_application_train (fun _ => "x") (fun _ => None)
              1%positive h) as [[[out art]|e] h'] eqn:Hrun.
  - exact (preprocess_no_missing_category (fun _ => "x") (fun _ => None)
             h h' 1%positive out art Hrun).
  - vm_compute in Hrun. discriminate Hrun.
Defined.

(** ** Winsorization keeps the order *)

Lemma clip_cell_mono (lo hi : option float) (x y : float) :
  thresholds_ok lo hi -> F64.leb x y = true ->
  F64.leb (clip_cell lo hi x) (clip_cell lo hi y) = true.
Proof.
  intros (Hlo & Hhi & Hord) Hxy.
  destruct (leb_not_nan _ _ Hxy) as [Nx Ny].
  unfold clip_cell. rewrite Nx, Ny. cbn [orb].
  assert (forall a b, F64.is_nan a = false -> F64.is_nan b = false ->
            F64.leb a b = false -> F64.leb b a = true) as Hflip.
  { intros a b Na Nb Hab. destruct (leb_total a b Na Nb); congruence. }
  destruct lo as [l|], hi as [u|].
  - specialize (Hlo l eq_refl). specialize (Hhi u eq_refl).
    specialize (Hord l u eq_refl eq_refl).
    change (F64.geb x l) with (F64.leb l x).
    change (F64.geb y l) with (F64.leb l y).
    destruct (F64.leb x u) eqn:Exu, (F64.leb y u) eqn:Eyu,
      (F64.leb l x) eqn:Elx, (F64.leb l y) eqn:Ely;
      auto using leb_refl;
      try (rewrite (leb_trans x y u Hxy Eyu) in Exu; discriminate);
      try (rewrite (leb_trans l x y Elx Hxy) in Ely; discriminate).
  - specialize (Hlo l eq_refl).
    change (F64.geb x l) with (F64.leb l x).
    change (F64.geb y l) with (F64.leb l y).
    destruct (F64.leb l x) eqn:Elx, (F64.leb l y) eqn:Ely;
      auto using leb_refl;
      try (rewrite (leb_trans l x y Elx Hxy) in Ely; discriminate).
  - specialize (Hhi u eq_refl).
    destruct (F64.leb x u) eqn:Exu, (F64.leb y u) eqn:Eyu;
      auto using leb_refl;
      try (rewrite (leb_trans x y u Hxy Eyu) in Exu; discriminate).
  - exact Hxy.
Qed.

(** X24.  Winsorization keeps the order of the cells: whenever a cell is at
    most another one in the input, the same holds for the two cells in the
    winsorized column. *)
Theorem winsorize_keeps_order (s : Series) (lower upper : float)
    (i j : nat) (x y : float)
    (Hi : nth_error s i = Some x) (Hj : nth_error s j = Some y)
    (Hxy : F64.leb x y = true) :
  exists x' y',
    nth_error (fst (_winsorize s lower upper)) i = Some x' /\
    nth_error (fst (_winsorize s lower upper)) j = Some y' /\
    F64.leb x' y' = true.
Proof.
  unfold _winsorize, clip; simpl.
  pose proof (clip_thresholds_ok (quantile s lower) (quantile s upper)) as Hok.
  destruct (clip_thresholds _ _) as [lo hi]. simpl in Hok.
  exists (clip_cell lo hi x), (clip_cell lo hi y).
  rewrite !nth_error_map, Hi, Hj. simpl.
  split; [reflexivity|]. split; [reflexivity|].
  now apply clip_cell_mono.
Qed.

Lemma winsorize_keeps_order_witness :
  let s := map F64.of_Z [5; 1; 100; 7] in
  exists x' y',
    nth_error (fst (_winsorize s (F64.lit 1 100) (F64.lit 99 100))) 1%nat
      = Some x' /\
    nth_error (fst (_winsorize s (F64.lit 1 100) (F64.lit 99 100))) 2%nat
      = Some y' /\
    F64.leb x' y' = true.
Proof.
  intros s.
  apply (winsorize_keeps_order s (F64.lit 1 100) (F64.lit 99 100) 1 2
           (F64.of_Z 1) (F64.of_Z 100)); reflexivity.
Defined.

(** ** Columns the pipeline creates *)

Lemma has_col_In (c : string) (col : Column) (d : DataFrame) :
  In (c, col) (columns d) -> has_col c d = true.
Proof.
  unfold has_col, df_get. induction (columns d) as [|[k v] cols IH]; simpl;
    [tauto|].
  intros [E|Hin].
  - injection E as -> ->. now rewrite String.eqb_refl.
  - destruct (String.eqb c k); [reflexivity|now apply IH].
Qed.

Lemma has_col_set (c c' : string) (X : Column) (d : DataFrame) :
  has_col c' (df_set c X d) = true -> c' = c \/ has_col c' d = true.
Proof.
  destruct (String.eqb_spec c' c) as [->|Hne]; [now left|right].
  unfold has_col in *. now rewrite df_get_set_ne in H.
Qed.

Lemma has_col_drop (c : string) (cs : list string) (d : DataFrame) :
  has_col c (df_drop cs d) = true -> has_col c d = true.
Proof.
  unfold has_col at 1. destruct (df_get c (df_drop cs d)) as [col|] eqn:E;
    [|discriminate].
  intros _. apply df_get_In in E. simpl in E.
  apply filter_In in E as [E _]. now apply (has_col_In c col).
Qed.

Section Names.

Context (float_repr : float -> string) (float_parse : string -> option float).
Context (l : loc) (ok : string -> Prop).
Hypothesis Hderived : forall c, In c derived_cols -> ok c.

Lemma names_get_col (c : string) :
  triple (names_ok l ok) (get_col l c) (fun _ h => names_ok l ok h /\ ok c).
Proof.
  intros h col h' (d & Hd & Hok) E. unfold get_col in E.
  rewrite bind_run in E. unfold read in E. rewrite Hd in E.
  cbv iota beta in E. destruct (df_get c d) as [col0|] eqn:Hg; [|discriminate].
  injection E as ? <-. split; [exists d; auto|].
  apply Hok. unfold has_col. now rewrite Hg.
Qed.

Lemma names_set_col (c : string) (X : Column) :
  ok c -> triple (names_ok l ok) (set_col l c X) (fun _ => names_ok l ok).
Proof.
  intros Hc h u h' (d & Hd & Hok) E.
  unfold set_col in E. rewrite bind_run in E. unfold read in E.
  rewrite Hd in E. unfold write in E. injection E as ? <-.
  exists (df_set c X d). split; [apply lookup_insert_eq|].
  intros c' Hc'. apply has_col_set in Hc' as [->|Hc']; auto.
Qed.

Lemma names_replace (c : string) (g : Column -> Column) :
  triple (names_ok l ok) (col ← get_col l c; set_col l c (g col))
    (fun _ => names_ok l ok).
Proof.
  eapply triple_bind; [apply names_get_col|]. intros col.
  cbv beta; apply triple_pure. intros Hc. now apply names_set_col.
Qed.

Lemma names_derive (c c' : string) (g : Series -> Series) :
  In c' derived_cols ->
  triple (names_ok l ok)
    (col ← get_col l c; v ← lift (numeric_operand col);
     set_col l c' (NumCol (g v)))
    (fun _ => names_ok l ok).
Proof.
  intros Hc'. eapply triple_bind; [apply triple_same, get_col_same|].
  intros col. eapply triple_bind; [apply triple_same; reflexivity|].
  intros v. apply names_set_col. now apply Hderived.
Qed.

Lemma names_derive_ratio (c a b : string) :
  In c derived_cols ->
  triple (names_ok l ok) (derive_ratio l c a b) (fun _ => names_ok l ok).
Proof.
  intros Hc. unfold derive_ratio.
  eapply triple_bind; [apply triple_same, contains_same|]. intros ha.
  eapply triple_bind; [apply triple_same, contains_same|]. intros hb.
  apply triple_when.
  eapply triple_bind; [apply triple_same, get_col_same|]. intros ca.
  eapply triple_bind; [apply triple_same, get_col_same|]. intros cb.
  eapply triple_bind; [apply triple_same; reflexivity|]. intros numer.
  eapply triple_bind; [apply triple_same; reflexivity|]. intros denom.
  apply names_set_col. now apply Hderived.
Qed.

Lemma names_preprocess_steps :
  triple (names_ok l ok) (preprocess_steps float_repr float_parse l)
    (fun r h => fst r = l /\ names_ok l ok h).
Proof.
  unfold preprocess_steps.
  eapply triple_bind.
  { apply triple_for_each. intros c _.
    eapply triple_bind; [apply triple_same, contains_same|]. intros b.
    apply triple_when, names_replace. }
  intros u1. eapply triple_bind.
  { eapply triple_bind; [apply triple_same, read_same|]. intros d.
    apply triple_for_each. intros c _. apply names_replace. }
  intros u2. eapply triple_bind.
  { unfold derive_features.
    eapply triple_bind; [apply triple_same, contains_same|]. intros b.
    eapply triple_bind.
    { apply triple_when, names_derive. simpl; tauto. }
    intros u. eapply triple_bind; [apply triple_same, contains_same|].
    intros b'. eapply triple_bind.
    { apply triple_when.
      eapply triple_bind; [apply names_get_col|]. intros col.
      cbv beta; apply triple_pure. intros Hc.
      eapply triple_bind; [now apply names_set_col|]. intros u'.
      apply names_derive. simpl; tauto. }
    intros u'.
    eapply triple_bind; [apply names_derive_ratio; simpl; tauto|].
    intros u3.
    eapply triple_bind; [apply names_derive_ratio; simpl; tauto|].
    intros u4. apply names_derive_ratio; simpl; tauto. }
  intros u3. eapply triple_bind with (R := fun _ => names_ok l ok).
  { unfold drop_missing.
    eapply triple_bind; [apply triple_same, read_same|]. intros d.
    eapply triple_bind with (R := fun _ => names_ok l ok).
    - intros h u h' (d0 & Hd & Hok) E.
      unfold drop_inplace in E. rewrite bind_run in E. unfold read in E.
      rewrite Hd in E. unfold write in E. injection E as ? <-.
      eexists. split; [apply lookup_insert_eq|].
      intros c Hc. apply Hok. now apply has_col_drop in Hc.
    - intros u. now apply triple_ret. }
  intros [miss drop].
  eapply triple_bind; [apply triple_same, read_same|]. intros d.
  eapply triple_bind.
  { unfold impute. eapply triple_bind.
    - apply triple_for_each. intros c _.
      eapply triple_bind; [apply names_get_col|]. intros col.
      cbv beta; apply triple_pure. intros Hc. apply triple_when.
      destruct col; try now apply triple_ret. now apply names_set_col.
    - intros u. apply triple_for_each. intros c _.
      eapply triple_bind; [apply names_get_col|]. intros col.
      cbv beta; apply triple_pure. intros Hc. apply triple_when.
      eapply triple_bind; [apply triple_same; reflexivity|]. intros filled.
      now apply names_set_col. }
  intros u4. eapply triple_bind with (R := fun _ => names_ok l ok).
  { induction (cat_cols d) as [|c cs IH]; cbn [merge_rare_loop];
      [now apply triple_ret|].
    eapply triple_bind; [apply names_get_col|]. intros col.
    cbv beta; apply triple_pure. intros Hc.
    destruct (_merge_rare_levels _ _) as [merged mapping].
    eapply triple_bind; [now apply names_set_col|]. intros u.
    eapply triple_bind; [apply IH|]. intros rest. now apply triple_ret. }
  intros rare.
  eapply triple_bind; [apply triple_same, read_same|]. intros d'.
  eapply triple_bind with (R := fun _ => names_ok l ok).
  { induction (winsor_fields d') as [|c cs IH]; cbn [winsorize_loop];
      [now apply triple_ret|].
    eapply triple_bind; [apply names_get_col|]. intros col.
    cbv beta; apply triple_pure. intros Hc.
    eapply triple_bind; [apply triple_same; reflexivity|]. intros v.
    destruct (_winsorize _ _ _) as [clipped params].
    eapply triple_bind; [now apply names_set_col|]. intros u.
    eapply triple_bind; [apply IH|]. intros rest. now apply triple_ret. }
  intros wp. eapply triple_bind.
  { unfold income_brackets.
    eapply triple_bind; [apply triple_same, contains_same|]. intros b.
    apply triple_when.
    eapply triple_bind; [apply triple_same, get_col_same|]. intros col.
    eapply triple_bind; [apply triple_same; reflexivity|]. intros v.
    apply names_set_col, Hderived. simpl; tauto. }
  intros u5.
  eapply triple_bind; [apply triple_same, read_same|]. intros d''.
  apply triple_ret. intros h Hh. split; [reflexivity|exact Hh].
Qed.

End Names.

(** X25.  The preprocessing invents no column: every column of the
    dataframe it returns is a column of the raw dataframe or one of the six
    derived columns AGE_YEARS, EMPLOYMENT_YEARS, DTI, LTI, ANNUITY_TO_CREDIT
    and INCOME_BRACKET. *)
Theorem preprocess_adds_only_derived
    (float_repr : float -> string) (float_parse : string -> option float)
    (h h' : heap) (df out : loc) (raw : DataFrame) (art : Artifacts)
    (Hraw : h !! df = Some raw)
    (Hrun : preprocess_application_train float_repr float_parse df h
            = (Ok (out, art), h')) :
  exists clean, h' !! out = Some clean /\
    forall c, has_col c clean = true ->
              has_col c raw = true \/ In c derived_cols.
Proof.
  unfold preprocess_application_train in Hrun. rewrite bind_run in Hrun.
  unfold df_copy in Hrun. rewrite Hraw in Hrun.
  set (l := fresh (dom h)) in *. set (h1 := <[l := raw]> h) in *.
  cbv iota beta zeta in Hrun.
  destruct (names_preprocess_steps float_repr float_parse l
              (fun c => has_col c raw = true \/ In c derived_cols)
              (fun c Hc => or_intror Hc) h1 (out, art) h')
    as (Hl & clean & Hc & Hok); [|exact Hrun|].
  { exists raw. split; [apply lookup_insert_eq|]. auto. }
  simpl in Hl. subst out. exists clean. auto.
Qed.

Lemma preprocess_adds_only_derived_witness :
  let raw := {| index := seq 0 3;
                columns := [("TARGET", NumCol (map F64.of_Z [1; 0; 0]));
                            ("DAYS_BIRTH",
                             NumCol (map F64.of_Z [-9000; -12000; -15000]))] |} in
  let h : heap := {[ 1%positive := raw ]} in
  h !! 1%positive = Some raw /\
  match preprocess_application_train (fun _ => "x") (fun _ => None)
          1%positive h with
  | (Ok (out, art), h') =>
      exists clean, h' !! out = Some clean /\
        forall c, has_col c clean = true ->
                  has_col c raw = true \/ In c derived_cols
  | (Raise _, _) => False
  end.
Proof.
  intros raw h. split; [reflexivity|].
  destruct (preprocess_application_train (fun _ => "x") (fun _ => None)
              1%positive h) as [[[out art]|e] h'] eqn:Hrun.
  - exact (preprocess_adds_only_derived (fun _ => "x") (fun _ => None)
             h h' 1%positive out raw art eq_refl Hrun).
  - vm_compute in Hrun. discriminate Hrun.
Defined.
